(** * The text buffer of the terminal: a shallow embedding of
      [src/buffer/out/textBuffer.cpp] and the properties of its circular row
      index, cursor coordinator, column measurement, reflow, hyperlink
      registry, scroll marks and search entry point. *)

From Stdlib Require Import ZArith List Bool Lia.
From Stdlib Require String Ascii.
From stdpp Require Import base option list gmap.

Local Open Scope Z_scope.

(** ** Machine integers

    [til::CoordType] is a 32-bit signed integer, the mutation counter is a
    [uint64_t], hyperlink ids are [uint16_t].  All of them are carried by [Z];
    the places where the program can leave the range apply the two's
    complement wrap-around explicitly. *)

Definition INT32_MIN : Z := - 2 ^ 31.
Definition INT32_MAX : Z := 2 ^ 31 - 1.
Definition CoordTypeMax : Z := INT32_MAX.
Definition UINT16_MAX : Z := 65535.

Definition wrap32 (z : Z) : Z := (z + 2 ^ 31) mod 2 ^ 32 - 2 ^ 31.
Definition wrap64u (z : Z) : Z := z mod 2 ^ 64.

Definition add32 (a b : Z) : Z := wrap32 (a + b).

Definition in_int32 (z : Z) : Prop := INT32_MIN <= z <= INT32_MAX.

(** [std::clamp(v, lo, hi)] *)
Definition clamp (v lo hi : Z) : Z :=
  if v <? lo then lo else if hi <? v then hi else v.

(** ** Plain data *)

Definition wchar := Z.
Definition wstring := list wchar.

Record point := mkPoint { x : Z; y : Z }.

Record point_span := mkSpan { span_start : point; span_end : point }.

(** Modelled from the spec: [Viewport] (viewport.hpp is not part of the
    sources), kept as the inclusive rectangle it stores;
    [FromDimensions] puts the origin at (0,0). *)
Record Viewport := mkViewport {
  vp_left : Z; vp_top : Z; vp_right : Z; vp_bottom : Z }.

Definition Viewport_FromDimensions (w h : Z) : Viewport :=
  mkViewport 0 0 (w - 1) (h - 1).
Definition Top (v : Viewport) : Z := vp_top v.
Definition BottomInclusive (v : Viewport) : Z := vp_bottom v.
Definition RightInclusive (v : Viewport) : Z := vp_right v.
Definition Width (v : Viewport) : Z := vp_right v - vp_left v + 1.
Definition Height (v : Viewport) : Z := vp_bottom v - vp_top v + 1.

(** Modelled from the spec: the enumerations [LineRendition] ("each row is
    single-width or double-width", the double-height halves being
    double-width too) and [DbcsAttribute]. *)
Inductive LineRendition :=
  | SingleWidth | DoubleWidth | DoubleHeightTop | DoubleHeightBottom.

Inductive DbcsAttribute := Single | Leading | Trailing.

Definition LineRendition_eqb (a b : LineRendition) : bool :=
  match a, b with
  | SingleWidth, SingleWidth | DoubleWidth, DoubleWidth
  | DoubleHeightTop, DoubleHeightTop
  | DoubleHeightBottom, DoubleHeightBottom => true
  | _, _ => false
  end.

Definition DbcsAttribute_eqb (a b : DbcsAttribute) : bool :=
  match a, b with
  | Single, Single | Leading, Leading | Trailing, Trailing => true
  | _, _ => false
  end.

(** Modelled from the spec: [TextAttribute] (textAttribute.hpp is not part of
    the sources).  A color payload and the 16-bit hyperlink id the cell
    refers to, 0 meaning "no hyperlink". *)
Record TextAttribute := mkAttr { attr_colors : Z; attr_hyperlinkId : Z }.

Definition defaultTextAttribute : TextAttribute := mkAttr 0 0.

Definition IsHyperlink (a : TextAttribute) : bool :=
  negb (attr_hyperlinkId a =? 0).

(** ** The row collaborator *)

(** One column of a row: the text of the glyph that covers it and whether
    the column is the whole glyph, its first or its second half. *)
Record Cell := mkCell { cell_text : wstring; cell_dbcs : DbcsAttribute }.

Definition SPACE : wchar := 32.
Definition blankCell : Cell := mkCell [SPACE] Single.

(** Modelled from the spec: [ROW] (Row.hpp and Row.cpp are not part of the
    sources).  The row holds one cell per logical column, one attribute per
    column, the forced-line-wrap flag, the double-byte-pad flag and the line
    rendition. *)
Record ROW := mkROW {
  row_cells : list Cell;
  row_attr : list TextAttribute;
  _lineRendition : LineRendition;
  _wrapForced : bool;
  _doubleBytePadded : bool }.

Definition ROW_columnCount (r : ROW) : Z := Z.of_nat (length (row_cells r)).

(** Modelled from the spec: the row constructor, which [_construct] calls
    with the buffer width and the initial attributes: whitespace in every
    column. *)
Definition ROW_construct (w : Z) (a : TextAttribute) : ROW :=
  mkROW (replicate (Z.to_nat w) blankCell) (replicate (Z.to_nat w) a)
        SingleWidth false false.

(** Modelled from the spec: [ROW::Reset], "reset that row's content to the
    given fill attributes": whitespace, the fill attributes, single width and
    both flags cleared, the column count kept. *)
Definition ROW_Reset (a : TextAttribute) (r : ROW) : ROW :=
  ROW_construct (ROW_columnCount r) a.

Definition SetWrapForced (b : bool) (r : ROW) : ROW :=
  mkROW (row_cells r) (row_attr r) (_lineRendition r) b (_doubleBytePadded r).

Definition WasWrapForced (r : ROW) : bool := _wrapForced r.

Definition SetDoubleBytePadded (b : bool) (r : ROW) : ROW :=
  mkROW (row_cells r) (row_attr r) (_lineRendition r) (_wrapForced r) b.

Definition GetLineRendition (r : ROW) : LineRendition := _lineRendition r.


Definition set_cells (cs : list Cell) (r : ROW) : ROW :=
  mkROW cs (row_attr r) (_lineRendition r) (_wrapForced r) (_doubleBytePadded r).

Definition set_attr (a : list TextAttribute) (r : ROW) : ROW :=
  mkROW (row_cells r) a (_lineRendition r) (_wrapForced r) (_doubleBytePadded r).

(** Modelled from the spec: [ROW::GetHyperlinks], the ids referenced by the
    row's cells. *)
Definition GetHyperlinks (r : ROW) : list Z :=
  map attr_hyperlinkId (filter (fun a => Is_true (IsHyperlink a)) (row_attr r)).

(** Modelled from the spec: [ROW::ReplaceCharacters (col, width, chars)]
    stores one glyph of [width] columns at [col]; a glyph that does not lie
    inside the row is not stored. *)
Definition ReplaceCharacters (col width : Z) (chars : wstring) (r : ROW) : ROW :=
  if (0 <=? col) && (col + width <=? ROW_columnCount r) then
    if width =? 2 then
      set_cells (<[Z.to_nat (col + 1) := mkCell chars Trailing]>
                 (<[Z.to_nat col := mkCell chars Leading]> (row_cells r))) r
    else
      set_cells (<[Z.to_nat col := mkCell chars Single]> (row_cells r)) r
  else r.

(** Modelled from the spec: [ROW::SetAttrToEnd (col, attr)]. *)
Definition SetAttrToEnd (col : Z) (a : TextAttribute) (r : ROW) : ROW :=
  set_attr (take (Z.to_nat col) (row_attr r)
            ++ replicate (length (row_attr r) - Z.to_nat col)%nat a) r.

Definition isBlank (c : Cell) : bool :=
  match cell_text c with
  | [ch] => ch =? SPACE
  | _ => false
  end.

Fixpoint measureRight_cells (cs : list Cell) : nat :=
  match cs with
  | [] => 0%nat
  | c :: tl =>
      match measureRight_cells tl with
      | O => if isBlank c then 0%nat else 1%nat
      | S n => S (S n)
      end
  end.

(** Modelled from the spec: [ROW::MeasureRight], one past the rightmost
    column that holds something else than whitespace, 0 for an empty row
    (the callers subtract 1 and take -1 for "the row was empty"). *)
Definition MeasureRight (r : ROW) : Z := Z.of_nat (measureRight_cells (row_cells r)).

(** Modelled from the spec: [ROW::AdjustToGlyphStart], "snapped to a valid
    glyph boundary": the column is brought into the row and moved off the
    trailing cell of a wide glyph. *)
Definition AdjustToGlyphStart (column : Z) (r : ROW) : Z :=
  let col := clamp column 0 (ROW_columnCount r - 1) in
  match row_cells r !! Z.to_nat col with
  | Some c => if DbcsAttribute_eqb (cell_dbcs c) Trailing then Z.max 0 (col - 1) else col
  | None => col
  end.

(** The cells end with the first half of a wide glyph. *)
Definition endsOnLeading (cs : list Cell) : bool :=
  match last cs with
  | Some c => DbcsAttribute_eqb (cell_dbcs c) Leading
  | None => false
  end.

(** Modelled from the spec: [ROW::CopyTextFrom] with the fields of
    [RowCopyTextFromState] as arguments: the columns
    [sourceColumnBegin, sourceColumnLimit) of [source] are copied to the
    columns from [columnBegin] on, whole glyphs only, as far as
    [columnLimit] and the row allow.  The result carries [columnEnd] and
    [sourceColumnEnd].  As with the other row writers, [columnEnd] is the
    limit when not all of the text fitted, a column left over by a wide
    glyph being padded with whitespace; when there is nothing to copy the
    source counts as consumed. *)
Definition CopyTextFrom (source : ROW)
    (columnBegin columnLimit sourceColumnBegin sourceColumnLimit : Z) (r : ROW)
    : ROW * Z * Z :=
  let sourceColBeg := clamp sourceColumnBegin 0 (ROW_columnCount source) in
  let sourceColLimit := clamp sourceColumnLimit 0 (ROW_columnCount source) in
  let colBeg := clamp columnBegin 0 (ROW_columnCount r) in
  let colLimit := clamp columnLimit 0 (ROW_columnCount r) in
  let chars := take (Z.to_nat (sourceColLimit - sourceColBeg))
                    (drop (Z.to_nat sourceColBeg) (row_cells source)) in
  let startsOnTrailer :=
    match chars with
    | c :: _ => DbcsAttribute_eqb (cell_dbcs c) Trailing
    | [] => true
    end in
  if (colLimit <=? colBeg) || startsOnTrailer then (r, colBeg, ROW_columnCount source)
  else
    let room := Z.to_nat (colLimit - colBeg) in
    let fitting := take room chars in
    let copied := if endsOnLeading fitting then removelast fitting else fitting in
    let n := length copied in
    let all := (n =? length chars)%nat in
    let padding := if all then [] else replicate (room - n) blankCell in
    let cells := take (Z.to_nat colBeg) (row_cells r) ++ copied ++ padding
                 ++ drop (Z.to_nat colBeg + n + length padding) (row_cells r) in
    (set_cells cells r,
     if all then colBeg + Z.of_nat n else colLimit,
     sourceColBeg + Z.of_nat n).

(** Modelled from the spec: the attribute store "supporting
    slice/replace/resize-trailing-extent", one attribute per column. *)
Definition attr_slice (from to : Z) (a : list TextAttribute) : list TextAttribute :=
  take (Z.to_nat (to - from)) (drop (Z.to_nat from) a).

Definition attr_replace (from to : Z) (new a : list TextAttribute) : list TextAttribute :=
  take (Z.to_nat from) a ++ new ++ drop (Z.to_nat to) a.

Definition attr_resize_trailing_extent (w : Z) (a : list TextAttribute) : list TextAttribute :=
  take (Z.to_nat w) a
  ++ replicate (Z.to_nat w - length a) (default defaultTextAttribute (last a)).

(** Modelled from the spec: [ROW::CopyFrom], the whole of another row: its
    rendition and wrap flag, its text as far as this row is wide, and its
    attributes brought to this row's width. *)
Definition CopyFrom (source : ROW) (r : ROW) : ROW :=
  let r := mkROW (row_cells r) (row_attr r) (_lineRendition source)
                 (_wrapForced source) (_doubleBytePadded r) in
  let r := fst (fst (CopyTextFrom source 0 CoordTypeMax 0 (ROW_columnCount source) r)) in
  set_attr (attr_resize_trailing_extent (ROW_columnCount r) (row_attr source)) r.

(** ** Cursor and scroll marks *)

(** Modelled from the spec: [Cursor] (cursor.hpp is not part of the
    sources): a position that is read and set as a whole or per axis, and a
    size. *)
Record Cursor := mkCursor { cPosition : point; ulSize : Z }.

Definition GetPosition (c : Cursor) : point := cPosition c.
Definition SetPosition (p : point) (c : Cursor) : Cursor := mkCursor p (ulSize c).
Definition SetXPosition (nx : Z) (c : Cursor) : Cursor :=
  mkCursor (mkPoint nx (y (cPosition c))) (ulSize c).
Definition SetYPosition (ny : Z) (c : Cursor) : Cursor :=
  mkCursor (mkPoint (x (cPosition c)) ny) (ulSize c).
Definition IncrementXPosition (d : Z) (c : Cursor) : Cursor :=
  SetXPosition (add32 (x (cPosition c)) d) c.
Definition IncrementYPosition (d : Z) (c : Cursor) : Cursor :=
  SetYPosition (add32 (y (cPosition c)) d) c.
Definition Cursor_SetSize (s : Z) (c : Cursor) : Cursor := mkCursor (cPosition c) s.
(** [Cursor::CopyProperties] carries the display properties over, never the
    position. *)
Definition Cursor_CopyProperties (other c : Cursor) : Cursor :=
  mkCursor (cPosition c) (ulSize other).

(** Modelled from the spec: [ScrollMark], "{start, end, optional
    commandEnd, optional outputEnd, category}"; the category is the
    enumeration's integer. *)
Record ScrollMark := mkMark {
  mark_start : point;
  mark_end : point;
  commandEnd : option point;
  outputEnd : option point;
  category : Z }.

(** Modelled from the spec: the renderer collaborator, as the list of the
    calls the buffer made to it, oldest first. *)
Inductive RendererCall :=
  | TriggerFlush (circling : bool)
  | TriggerRedraw (v : Viewport).

(** ** The buffer instance

    The reserved address range is the list [_buffer] of [_height + 1] row
    slots, slot 0 being the scratchpad row; [_commitWatermark] counts the
    slots constructed so far, and the slots at and after it are memory that
    holds no row yet. *)
Record TextBuffer := mkTextBuffer {
  _width : Z;
  _height : Z;
  _firstRow : Z;
  _buffer : list ROW;
  _commitWatermark : nat;
  _initialAttributes : TextAttribute;
  _currentAttributes : TextAttribute;
  _lastMutationId : Z;
  _cursor : Cursor;
  _isActiveBuffer : bool;
  _hyperlinkMap : gmap Z wstring;
  _hyperlinkCustomIdMap : list (wstring * Z);
  _currentHyperlinkId : Z;
  _marks : list ScrollMark;
  _renderer : list RendererCall }.

Definition with_firstRow (v : Z) (t : TextBuffer) : TextBuffer :=
  mkTextBuffer (_width t) (_height t) v (_buffer t) (_commitWatermark t)
    (_initialAttributes t) (_currentAttributes t) (_lastMutationId t) (_cursor t)
    (_isActiveBuffer t) (_hyperlinkMap t) (_hyperlinkCustomIdMap t)
    (_currentHyperlinkId t) (_marks t) (_renderer t).

Definition with_buffer (v : list ROW) (t : TextBuffer) : TextBuffer :=
  mkTextBuffer (_width t) (_height t) (_firstRow t) v (_commitWatermark t)
    (_initialAttributes t) (_currentAttributes t) (_lastMutationId t) (_cursor t)
    (_isActiveBuffer t) (_hyperlinkMap t) (_hyperlinkCustomIdMap t)
    (_currentHyperlinkId t) (_marks t) (_renderer t).

Definition with_commitWatermark (v : nat) (t : TextBuffer) : TextBuffer :=
  mkTextBuffer (_width t) (_height t) (_firstRow t) (_buffer t) v
    (_initialAttributes t) (_currentAttributes t) (_lastMutationId t) (_cursor t)
    (_isActiveBuffer t) (_hyperlinkMap t) (_hyperlinkCustomIdMap t)
    (_currentHyperlinkId t) (_marks t) (_renderer t).

Definition with_lastMutationId (v : Z) (t : TextBuffer) : TextBuffer :=
  mkTextBuffer (_width t) (_height t) (_firstRow t) (_buffer t) (_commitWatermark t)
    (_initialAttributes t) (_currentAttributes t) v (_cursor t)
    (_isActiveBuffer t) (_hyperlinkMap t) (_hyperlinkCustomIdMap t)
    (_currentHyperlinkId t) (_marks t) (_renderer t).

Definition with_cursor (v : Cursor) (t : TextBuffer) : TextBuffer :=
  mkTextBuffer (_width t) (_height t) (_firstRow t) (_buffer t) (_commitWatermark t)
    (_initialAttributes t) (_currentAttributes t) (_lastMutationId t) v
    (_isActiveBuffer t) (_hyperlinkMap t) (_hyperlinkCustomIdMap t)
    (_currentHyperlinkId t) (_marks t) (_renderer t).

Definition with_hyperlinks (m : gmap Z wstring) (c : list (wstring * Z)) (n : Z)
    (t : TextBuffer) : TextBuffer :=
  mkTextBuffer (_width t) (_height t) (_firstRow t) (_buffer t) (_commitWatermark t)
    (_initialAttributes t) (_currentAttributes t) (_lastMutationId t) (_cursor t)
    (_isActiveBuffer t) m c n (_marks t) (_renderer t).

Definition with_marks (v : list ScrollMark) (t : TextBuffer) : TextBuffer :=
  mkTextBuffer (_width t) (_height t) (_firstRow t) (_buffer t) (_commitWatermark t)
    (_initialAttributes t) (_currentAttributes t) (_lastMutationId t) (_cursor t)
    (_isActiveBuffer t) (_hyperlinkMap t) (_hyperlinkCustomIdMap t)
    (_currentHyperlinkId t) v (_renderer t).

Definition with_renderer (v : list RendererCall) (t : TextBuffer) : TextBuffer :=
  mkTextBuffer (_width t) (_height t) (_firstRow t) (_buffer t) (_commitWatermark t)
    (_initialAttributes t) (_currentAttributes t) (_lastMutationId t) (_cursor t)
    (_isActiveBuffer t) (_hyperlinkMap t) (_hyperlinkCustomIdMap t)
    (_currentHyperlinkId t) (_marks t) v.

(** ** A state and error monad

    A member function is a computation over the instance it is called on that
    either throws ([None]) or returns its result with the instance as it left
    it.  Functions declared [const] that commit rows behind a [const_cast]
    are computations all the same. *)
Definition M (S A : Type) : Type := S -> option (A * S).

Definition ret {S A} (a : A) : M S A := fun s => Some (a, s).
Definition bind {S A B} (m : M S A) (k : A -> M S B) : M S B :=
  fun s => match m s with
           | Some (a, s') => k a s'
           | None => None
           end.
Definition throw {S A} : M S A := fun _ => None.
Definition get {S} : M S S := fun s => Some (s, s).
Definition gets {S A} (f : S -> A) : M S A := fun s => Some (f s, s).
Definition modify {S} (f : S -> S) : M S unit := fun s => Some (tt, f s).

Notation "x <- m ;; k" := (bind m (fun x => k))
  (at level 99, m at level 98, right associativity).
Notation "m ;;; k" := (bind m (fun _ => k))
  (at level 99, right associativity).

Definition TB := M TextBuffer.

(** ** Text constants of the clipboard formats

    The narrow string literals of [GenHTML], as lists of bytes.  The double
    quote of the attribute values is written as the byte 34. *)
Module Literal.
Import Stdlib.Strings.String.

Definition bytes (s : string) : list Z :=
  map (fun a => Z.of_N (Ascii.N_of_ascii a)) (list_ascii_of_string s).

Definition quote : list Z := [34].
Definition crlf : list Z := [13; 10].

Definition htmlHeader : list Z := bytes "<!DOCTYPE><HTML><HEAD></HEAD><BODY>".
Definition startFragment : list Z := bytes "<!--StartFragment -->".
Definition endFragment : list Z := bytes "<!--EndFragment -->".
Definition HtmlFooter : list Z := bytes "</BODY></HTML>".
Definition divOpen : list Z := bytes "<DIV STYLE=" ++ quote.
Definition displayInlineBlock : list Z := bytes "display:inline-block;".
Definition whiteSpacePre : list Z := bytes "white-space:pre;".
Definition backgroundColorKey : list Z := bytes "background-color:".
Definition semicolon : list Z := bytes ";".
Definition fontFamilyKey : list Z := bytes "font-family:".
Definition apostrophe : list Z := bytes "'".
Definition apostropheComma : list Z := bytes "',".
Definition monospace : list Z := bytes "monospace;".
Definition fontSizeKey : list Z := bytes "font-size:".
Definition pt : list Z := bytes "pt;".
Definition paddingKey : list Z := bytes "padding:".
Definition px : list Z := bytes "px;".
Definition tagEnd : list Z := quote ++ bytes ">".
Definition br : list Z := bytes "<BR>".
Definition spanOpen : list Z := bytes "<SPAN STYLE=" ++ quote.
Definition spanClose : list Z := bytes "</SPAN>".
Definition colorKey : list Z := bytes "color:".
Definition divClose : list Z := bytes "</DIV>".
Definition lt : list Z := bytes "&lt;".
Definition gt : list Z := bytes "&gt;".
Definition amp : list Z := bytes "&amp;".
Definition version : list Z := bytes "Version:0.9" ++ crlf.
Definition startHTML : list Z := bytes "StartHTML:".
Definition endHTML : list Z := bytes "EndHTML:".
Definition startFragmentKey : list Z := bytes "StartFragment:".
Definition endFragmentKey : list Z := bytes "EndFragment:".
Definition startSelection : list Z := bytes "StartSelection:".
Definition endSelection : list Z := bytes "EndSelection:".
Definition colortbl : list Z := bytes "{\colortbl ;".
Definition red : list Z := bytes "\red".
Definition green : list Z := bytes "\green".
Definition blue : list Z := bytes "\blue".
End Literal.

Section TextBufferModel.

Set Default Proof Using "Type".

(** [_commitReadAheadRowCount] is a constant of textBuffer.hpp and
    [IsGlyphFullWidth] a function of GlyphWidth.hpp; neither is part of the
    sources, both are parameters. *)
Variable _commitReadAheadRowCount : nat.
Variable IsGlyphFullWidth : wstring -> bool.

(** ** Buffer management *)

(** Number of row slots between [_buffer] and [_bufferEnd]: [_reserve]
    allocates one row more than the height. *)
Definition reservedRows (tb : TextBuffer) : nat := Z.to_nat (_height tb + 1).

Fixpoint construct_rows (n : nat) (tb : TextBuffer) : TextBuffer :=
  match n with
  | O => tb
  | S n' =>
      let w := _commitWatermark tb in
      let row := ROW_construct (_width tb) (_initialAttributes tb) in
      construct_rows n' (with_commitWatermark (S w) (with_buffer (<[w := row]> (_buffer tb)) tb))
  end.

(** Constructs the rows up to (excluding) the slot [until]. *)
Definition _construct (until : nat) : TB unit :=
  modify (fun tb => construct_rows (until - _commitWatermark tb) tb).

(** Commits and constructs all rows up to and including the slot [row];
    the sizes are counted in rows.  The commit itself is taken to succeed:
    the [THROW_LAST_ERROR_IF_NULL] around [VirtualAlloc] has no counterpart
    here, so that a call returns is said of a call whose commits succeed, or
    of a buffer whose rows are committed already and which reaches no
    [VirtualAlloc]. *)
Definition _commit (row : nat) : TB unit :=
  tb <- get ;;
  let rowEnd := S row in
  let remaining := (reservedRows tb - _commitWatermark tb)%nat in
  let minimum := (rowEnd - _commitWatermark tb)%nat in
  let ideal := (minimum + _commitReadAheadRowCount)%nat in
  let size := Nat.min remaining ideal in
  _construct (_commitWatermark tb + size)%nat.

(** Returns the slot it was asked for, as the reference to the row in it. *)
Definition _getRowByOffsetDirect (offset : nat) : TB nat :=
  tb <- get ;;
  if (reservedRows tb <=? offset)%nat then throw
  else
    (if (_commitWatermark tb <=? offset)%nat then _commit offset else ret tt) ;;;
    ret offset.

Definition _getRow (y : Z) : TB nat :=
  tb <- get ;;
  let offset := Z.rem (add32 (_firstRow tb) y) (_height tb) in
  let offset := if offset <? 0 then offset + _height tb else offset in
  _getRowByOffsetDirect (Z.to_nat offset + 1)%nat.

Definition _estimateOffsetOfLastCommittedRow (tb : TextBuffer) : Z :=
  let lastRowOffset := Z.of_nat (_commitWatermark tb) in
  Z.max 0 (lastRowOffset - 2).

Definition GetRowByOffset (index : Z) : TB nat := _getRow index.

Definition GetMutableRowByOffset (index : Z) : TB nat :=
  modify (fun tb => with_lastMutationId (wrap64u (_lastMutationId tb + 1)) tb) ;;;
  _getRow index.

(** Reading and writing through a row reference. *)
Definition deref (slot : nat) : TB ROW :=
  tb <- get ;;
  match _buffer tb !! slot with
  | Some r => ret r
  | None => throw
  end.

Definition assign (slot : nat) (f : ROW -> ROW) : TB unit :=
  modify (fun tb => with_buffer (alter f slot (_buffer tb)) tb).

Definition GetScratchpadRow (attributes : TextAttribute) : TB nat :=
  r <- _getRowByOffsetDirect 0 ;;
  assign r (ROW_Reset attributes) ;;;
  ret r.

Definition GetSize (tb : TextBuffer) : Viewport :=
  Viewport_FromDimensions (_width tb) (_height tb).

Definition TotalRowCount (tb : TextBuffer) : Z := _height tb.

Definition IsDoubleWidthLine (row : Z) : TB bool :=
  r <- GetRowByOffset row ;;
  line <- deref r ;;
  ret (negb (LineRendition_eqb (GetLineRendition line) SingleWidth)).

Definition GetLineWidth (row : Z) : TB Z :=
  dw <- IsDoubleWidthLine row ;;
  tb <- get ;;
  let scale := if dw : bool then 1 else 0 in
  ret (Z.shiftr (Width (GetSize tb)) scale).

(** The instance invariant of section 3 of the specification, for a buffer
    that [_reserve] has set up. *)
Record wf (tb : TextBuffer) : Prop := {
  wf_height : 1 <= _height tb <= UINT16_MAX;
  wf_width : 1 <= _width tb <= UINT16_MAX;
  wf_firstRow : 0 <= _firstRow tb < _height tb;
  wf_reserved : length (_buffer tb) = reservedRows tb;
  wf_watermark : (_commitWatermark tb <= reservedRows tb)%nat }.

(** The row a reader finds in a slot: the constructed row, or the row the
    commit will construct there. *)
Definition peekRow (tb : TextBuffer) (slot : nat) : ROW :=
  if (slot <? _commitWatermark tb)%nat then
    default (ROW_construct (_width tb) (_initialAttributes tb)) (_buffer tb !! slot)
  else ROW_construct (_width tb) (_initialAttributes tb).

(** The physical slot of the logical row [y] (section 3). *)
Definition slotOf (tb : TextBuffer) (y : Z) : nat :=
  Z.to_nat ((_firstRow tb + y) mod _height tb + 1).

(** ** Measuring text *)

(** til/unicode.h *)
Definition UNICODE_REPLACEMENT : wchar := 0xFFFD.
Definition is_surrogate (wch : wchar) : bool := Z.land wch 0xF800 =? 0xD800.
Definition is_leading_surrogate (wch : wchar) : bool := Z.land wch 0xFC00 =? 0xD800.
Definition is_trailing_surrogate (wch : wchar) : bool := Z.land wch 0xFC00 =? 0xDC00.

(** The ASCII fast path: the number of steps of the loop
    [for (; it != asciiEnd && *it < 0x80; ++it)], [n] being the distance
    from [it] to [asciiEnd]. *)
Fixpoint asciiPrefix (chars : wstring) (n : nat) : nat :=
  match n, chars with
  | S n', ch :: tl => if ch <? 0x80 then S (asciiPrefix tl n') else O
  | _, _ => O
  end.

(** The Unicode slow path: [rest] is the text from [it] on, [it] the number
    of characters before it, [size] that of the whole text.  The result is
    the returned count and the value stored in [columns].  The loop is only
    entered and only repeated with [it != end]. *)
Fixpoint slowPath (columnLimit size : Z) (rest : wstring) (it col : Z)
    {struct rest} : Z * Z :=
  match rest with
  | [] => (size, col)
  | wch :: tl =>
      let col := add32 col 1 in
      let paired :=
        match tl with
        | wch2 :: _ =>
            if is_leading_surrogate wch && is_trailing_surrogate wch2
            then Some wch2 else None
        | [] => None
        end in
      let col :=
        if 0x80 <=? wch then
          let glyph :=
            if is_surrogate wch then
              match paired with
              | Some wch2 => [wch; wch2]
              | None => [UNICODE_REPLACEMENT]
              end
            else [wch] in
          add32 col (Z.b2z (IsGlyphFullWidth glyph))
        else col in
      if columnLimit <? col then (it, columnLimit)
      else if (0x80 <=? wch) && is_surrogate wch && bool_decide (is_Some paired) then
        match tl with
        | _ :: [] => (size, col)
        | _ :: (_ :: _) as tl2 => slowPath columnLimit size tl2 (it + 2) col
        | [] => (size, col)
        end
      else
        match tl with
        | [] => (size, col)
        | _ :: _ => slowPath columnLimit size tl (it + 1) col
        end
  end.

Definition FitTextIntoColumns (chars : wstring) (columnLimit : Z) : Z * Z :=
  let columnLimit := Z.max 0 columnLimit in
  let size := Z.of_nat (length chars) in
  let asciiEnd := Z.to_nat (Z.min size columnLimit) in
  let dist := asciiPrefix chars asciiEnd in
  let col := wrap32 (Z.of_nat dist) in
  if (dist =? asciiEnd)%nat then (Z.of_nat dist, col)
  else slowPath columnLimit size (drop dist chars) (Z.of_nat dist) col.

(** The specification's reading of the same measurement: the text is a
    sequence of glyphs, each with the number of characters it is made of and
    the number of columns it takes (1 for an ASCII character, 2 for a
    full-width glyph, a malformed surrogate measured as the replacement
    character); glyphs are taken while they fit. *)
Definition glyphColumns (glyph : wstring) : Z := 1 + Z.b2z (IsGlyphFullWidth glyph).

Fixpoint glyphs (text : wstring) : list (Z * Z) :=
  match text with
  | [] => []
  | wch :: tl =>
      if wch <? 0x80 then (1, 1) :: glyphs tl
      else if is_surrogate wch then
        match tl with
        | wch2 :: tl2 =>
            if is_leading_surrogate wch && is_trailing_surrogate wch2
            then (2, glyphColumns [wch; wch2]) :: glyphs tl2
            else (1, glyphColumns [UNICODE_REPLACEMENT]) :: glyphs tl
        | [] => [(1, glyphColumns [UNICODE_REPLACEMENT])]
        end
      else (1, glyphColumns [wch]) :: glyphs tl
  end.

Fixpoint fitGlyphs (limit : Z) (gs : list (Z * Z)) (chars cols : Z) : Z * Z :=
  match gs with
  | [] => (chars, cols)
  | (len, w) :: tl =>
      if cols + w <=? limit then fitGlyphs limit tl (chars + len) (cols + w)
      else (chars, limit)
  end.

Definition sumChars (gs : list (Z * Z)) : Z := foldr Z.add 0 (map fst gs).
Definition sumColumns (gs : list (Z * Z)) : Z := foldr Z.add 0 (map snd gs).

Definition textColumns (text : wstring) : Z := sumColumns (glyphs text).

Definition fitSpec (text : wstring) (columnLimit : Z) : Z * Z :=
  fitGlyphs (Z.max 0 columnLimit) (glyphs text) 0 0.

(** ** Hyperlink registry *)

(** The loop of [RemoveHyperlinkFromMap] over the custom-id map: the first
    pair whose id is [id] is erased and the loop is left. *)
Fixpoint eraseFirstWithId (id : Z) (m : list (wstring * Z)) : list (wstring * Z) :=
  match m with
  | [] => []
  | customIdPair :: tl =>
      if snd customIdPair =? id then tl
      else customIdPair :: eraseFirstWithId id tl
  end.

Definition RemoveHyperlinkFromMap (id : Z) (tb : TextBuffer) : TextBuffer :=
  with_hyperlinks (delete id (_hyperlinkMap tb))
                  (eraseFirstWithId id (_hyperlinkCustomIdMap tb))
                  (_currentHyperlinkId tb) tb.

(** [for (auto id : nextRowRefs)]: an id found in [firstRowRefs] is erased
    from it. *)
Definition eraseRefs (firstRowRefs : gset Z) (nextRowRefs : list Z) : gset Z :=
  foldl (fun refs id => if decide (id ∈ refs) then refs ∖ {[id]} else refs)
        firstRowRefs nextRowRefs.

(** The loop [for (i = 1; i < total; ++i)] of [_PruneHyperlinks], [n]
    iterations from row [i] on, left early once no reference remains. *)
Fixpoint pruneScan (n : nat) (i : Z) (firstRowRefs : gset Z) : TB (gset Z) :=
  match n with
  | O => ret firstRowRefs
  | S n' =>
      r <- GetRowByOffset i ;;
      row <- deref r ;;
      let firstRowRefs := eraseRefs firstRowRefs (GetHyperlinks row) in
      if decide (firstRowRefs = ∅) then ret firstRowRefs
      else pruneScan n' (i + 1) firstRowRefs
  end.

Definition _PruneHyperlinks : TB unit :=
  r <- GetRowByOffset 0 ;;
  row <- deref r ;;
  let hyperlinks := GetHyperlinks row in
  match hyperlinks with
  | [] => ret tt
  | _ :: _ =>
      let firstRowRefs : gset Z := list_to_set hyperlinks in
      total <- gets TotalRowCount ;;
      firstRowRefs <- pruneScan (Z.to_nat (total - 1)) 1 firstRowRefs ;;
      modify (fun tb =>
        foldl (fun t hyperlinkReference => RemoveHyperlinkFromMap hyperlinkReference t)
              tb (elements firstRowRefs))
  end.

Definition CopyHyperlinkMaps (other : TextBuffer) (tb : TextBuffer) : TextBuffer :=
  with_hyperlinks (_hyperlinkMap other) (_hyperlinkCustomIdMap other)
                  (_currentHyperlinkId other) tb.

Definition AddHyperlinkToMap (uri : wstring) (id : Z) (tb : TextBuffer) : TextBuffer :=
  with_hyperlinks (<[id := uri]> (_hyperlinkMap tb)) (_hyperlinkCustomIdMap tb)
                  (_currentHyperlinkId tb) tb.

(** [std::to_wstring (til::hash (uri))]; til/hash.h is not part of the
    sources. *)
Variable hashText : wstring -> wstring.

Fixpoint customIdLookup (key : wstring) (m : list (wstring * Z)) : option Z :=
  match m with
  | [] => None
  | customIdPair :: tl =>
      if decide (fst customIdPair = key) then Some (snd customIdPair)
      else customIdLookup key tl
  end.

(** [_currentHyperlinkId] is a [uint16_t]: the increment wraps at 65536. *)
Definition nextHyperlinkId (tb : TextBuffer) : TextBuffer :=
  with_hyperlinks (_hyperlinkMap tb) (_hyperlinkCustomIdMap tb)
                  ((_currentHyperlinkId tb + 1) mod 65536) tb.

Definition GetHyperlinkId (uri id : wstring) : TB Z :=
  tb <- get ;;
  numericId <-
    match id with
    | [] =>
        modify nextHyperlinkId ;;;
        ret (_currentHyperlinkId tb)
    | _ :: _ =>
        let newId := id ++ [37] ++ hashText uri in
        match customIdLookup newId (_hyperlinkCustomIdMap tb) with
        | Some existing => ret existing
        | None =>
            modify (fun tb =>
              nextHyperlinkId
                (with_hyperlinks (_hyperlinkMap tb)
                   (_hyperlinkCustomIdMap tb ++ [(newId, _currentHyperlinkId tb)])
                   (_currentHyperlinkId tb) tb)) ;;;
            ret (_currentHyperlinkId tb)
        end
    end ;;
  tb <- get ;;
  (if _currentHyperlinkId tb =? 0 then modify nextHyperlinkId else ret tt) ;;;
  ret numericId.

(** ** Cursor coordinator *)

Definition onCursor (f : Cursor -> Cursor) : TB unit :=
  modify (fun tb => with_cursor (f (_cursor tb)) tb).

Definition rendererFlush : TB unit :=
  tb <- get ;;
  if _isActiveBuffer tb
  then modify (fun tb => with_renderer (_renderer tb ++ [TriggerFlush true]) tb)
  else ret tt.

Definition resetRecycledRow (fillAttributes : TextAttribute) : TB unit :=
  r <- GetMutableRowByOffset 0 ;;
  assign r (ROW_Reset fillAttributes).

Definition advanceFirstRow : TB unit :=
  modify (fun tb =>
    let firstRow := add32 (_firstRow tb) 1 in
    with_firstRow (if Height (GetSize tb) <=? firstRow then 0 else firstRow) tb).

Definition IncrementCircularBuffer (fillAttributes : TextAttribute) : TB unit :=
  rendererFlush ;;;
  _PruneHyperlinks ;;;
  resetRecycledRow fillAttributes ;;;
  advanceFirstRow.

(** [IncrementCircularBuffer ()] is called without an argument: the fill
    attributes are the default-constructed ones. *)
Definition NewlineCursor : TB unit :=
  tb <- get ;;
  let iFinalRowIndex := BottomInclusive (GetSize tb) in
  onCursor (SetXPosition 0) ;;;
  onCursor (IncrementYPosition 1) ;;;
  tb <- get ;;
  if iFinalRowIndex <? y (GetPosition (_cursor tb)) then
    onCursor (SetYPosition iFinalRowIndex) ;;;
    IncrementCircularBuffer defaultTextAttribute
  else ret tt.

Definition _AdjustWrapOnCurrentRow (fSet : bool) : TB unit :=
  tb <- get ;;
  let uiCurrentRowOffset := y (GetPosition (_cursor tb)) in
  r <- GetMutableRowByOffset uiCurrentRowOffset ;;
  assign r (SetWrapForced fSet).

Definition _SetWrapOnCurrentRow : TB unit := _AdjustWrapOnCurrentRow true.

Definition IncrementCursor : TB unit :=
  tb <- get ;;
  lineWidth <- GetLineWidth (y (GetPosition (_cursor tb))) ;;
  let iFinalColumnIndex := lineWidth - 1 in
  onCursor (IncrementXPosition 1) ;;;
  tb <- get ;;
  if iFinalColumnIndex <? x (GetPosition (_cursor tb)) then
    _SetWrapOnCurrentRow ;;;
    NewlineCursor
  else ret tt.

Definition _PrepareForDoubleByteSequence (dbcsAttribute : DbcsAttribute) : TB unit :=
  if DbcsAttribute_eqb dbcsAttribute Leading then
    tb <- get ;;
    let cursorPosition := GetPosition (_cursor tb) in
    lineWidth <- GetLineWidth (y cursorPosition) ;;
    if x cursorPosition =? lineWidth - 1 then
      row <- GetMutableRowByOffset (y cursorPosition) ;;
      assign row (SetDoubleBytePadded true) ;;;
      IncrementCursor
    else ret tt
  else ret tt.

Definition InsertCharacter (chars : wstring) (dbcsAttribute : DbcsAttribute)
    (attr : TextAttribute) : TB unit :=
  _PrepareForDoubleByteSequence dbcsAttribute ;;;
  tb <- get ;;
  let iRow := y (GetPosition (_cursor tb)) in
  let iCol := x (GetPosition (_cursor tb)) in
  Row <- GetMutableRowByOffset iRow ;;
  assign Row (match dbcsAttribute with
              | Leading => ReplaceCharacters iCol 2 chars
              | Trailing => ReplaceCharacters (iCol - 1) 2 chars
              | Single => ReplaceCharacters iCol 1 chars
              end) ;;;
  assign Row (SetAttrToEnd iCol attr) ;;;
  IncrementCursor.

(** ** Marks *)

(** [std::erase_if] *)
Fixpoint erase_if {A} (pred : A -> bool) (l : list A) : list A :=
  match l with
  | [] => []
  | a :: tl => if pred a then erase_if pred tl else a :: erase_if pred tl
  end.

Definition _trimMarksOutsideBuffer (tb : TextBuffer) : TextBuffer :=
  let height := _height tb in
  with_marks (erase_if (fun m => (y (mark_start m) <? 0) || (height <=? y (mark_start m)))
                       (_marks tb)) tb.

Definition moveY (delta : Z) (p : point) : point := mkPoint (x p) (add32 (y p) delta).

(** The body of the loop of [ScrollMarks] on one mark. *)
Definition scrollMark (delta : Z) (mark : ScrollMark) : ScrollMark :=
  mkMark (moveY delta (mark_start mark))
         (mark_end mark)
         (match commandEnd mark with Some p => Some (moveY delta p) | None => None end)
         (match outputEnd mark with Some p => Some (moveY delta p) | None => None end)
         (category mark).

Definition ScrollMarks (delta : Z) (tb : TextBuffer) : TextBuffer :=
  _trimMarksOutsideBuffer (with_marks (map (scrollMark delta) (_marks tb)) tb).

(** [_marks.back ()] of a list that is not empty, updated in place. *)
Definition onBack (f : ScrollMark -> ScrollMark) (marks : list ScrollMark) : list ScrollMark :=
  alter f (length marks - 1)%nat marks.

Definition SetCurrentPromptEnd (pos : point) (tb : TextBuffer) : TextBuffer :=
  match _marks tb with
  | [] => tb
  | _ :: _ =>
      with_marks (onBack (fun curr => mkMark (mark_start curr) pos (commandEnd curr)
                                             (outputEnd curr) (category curr))
                         (_marks tb)) tb
  end.

Definition SetCurrentCommandEnd (pos : point) (tb : TextBuffer) : TextBuffer :=
  match _marks tb with
  | [] => tb
  | _ :: _ =>
      with_marks (onBack (fun curr => mkMark (mark_start curr) (mark_end curr) (Some pos)
                                             (outputEnd curr) (category curr))
                         (_marks tb)) tb
  end.

Definition SetCurrentOutputEnd (pos : point) (cat : Z) (tb : TextBuffer) : TextBuffer :=
  match _marks tb with
  | [] => tb
  | _ :: _ =>
      with_marks (onBack (fun curr => mkMark (mark_start curr) (mark_end curr)
                                             (commandEnd curr) (Some pos) cat)
                         (_marks tb)) tb
  end.

(** ** Search *)

Fixpoint allWhitespace (text : wstring) : bool :=
  match text with
  | [] => true
  | ch :: tl => if negb (ch =? SPACE) then false else allWhitespace tl
  end.

(** The text-search collaborator: the matches of the literal [needle],
    case-insensitive or not, in the rows [rowBeg, rowEnd) of a buffer. *)
Variable findAll : wstring -> bool -> TextBuffer -> Z -> Z -> list point_span.

Definition SearchText (needle : wstring) (caseInsensitive : bool) (rowBeg rowEnd : Z)
    (tb : TextBuffer) : list point_span :=
  let rowEnd := Z.min rowEnd (_estimateOffsetOfLastCommittedRow tb + 1) in
  let results := [] in
  if allWhitespace needle || (rowEnd <=? rowBeg) then results
  else findAll needle caseInsensitive tb rowBeg rowEnd.

(** The two-argument overload searches every committed row. *)
Definition SearchTextAll (needle : wstring) (caseInsensitive : bool) (tb : TextBuffer)
    : list point_span :=
  SearchText needle caseInsensitive 0 CoordTypeMax tb.

(** ** Reflow *)

(** The loop [while (fDoBackUp)] of [GetLastNonSpaceCharacter]; every turn
    moves one row up, so one turn per row above [viewportTop] is enough. *)
Fixpoint backUp (turns : nat) (viewportTop : Z) (coordEndOfText : point) : TB point :=
  let fDoBackUp := (x coordEndOfText <? 0) && (viewportTop <? y coordEndOfText) in
  if fDoBackUp then
    match turns with
    | O => throw
    | S turns' =>
        let yy := y coordEndOfText - 1 in
        r <- GetRowByOffset yy ;;
        backupRow <- deref r ;;
        backUp turns' viewportTop (mkPoint (MeasureRight backupRow - 1) yy)
    end
  else ret coordEndOfText.

Definition GetLastNonSpaceCharacter (viewOptional : option Viewport) : TB point :=
  tb <- get ;;
  let viewport := match viewOptional with Some v => v | None => GetSize tb end in
  let endY := Z.min (BottomInclusive viewport) (_estimateOffsetOfLastCommittedRow tb) in
  r <- GetRowByOffset endY ;;
  currRow <- deref r ;;
  let coordEndOfText := mkPoint (MeasureRight currRow - 1) endY in
  let viewportTop := Top viewport in
  c <- backUp (Z.to_nat (endY - viewportTop)) viewportTop coordEndOfText ;;
  ret (mkPoint (Z.max (x c) 0) (Z.max (y c) 0)).

(** Modelled from the spec: [PositionInformation], the "viewport-top markers
    to translate". *)
Record PositionInformation := mkPositionInformation {
  pi_mutableViewportTop : Z;
  pi_visibleViewportTop : Z }.

(** The two buffers and the local variables of [Reflow]. *)
Record ReflowWalk := mkWalk {
  oldBuffer : TextBuffer;
  newBuffer : TextBuffer;
  oldY : Z;
  newY : Z;
  newX : Z;
  newYLimit : Z;
  newCursorPos : point;
  mutableViewportTop : Z;
  visibleViewportTop : Z;
  positionInfo : option PositionInformation }.

Definition RW := M ReflowWalk.

Definition onOld {A} (m : TB A) : RW A :=
  fun w => match m (oldBuffer w) with
           | Some (a, b) =>
               Some (a, mkWalk b (newBuffer w) (oldY w) (newY w) (newX w) (newYLimit w)
                               (newCursorPos w) (mutableViewportTop w)
                               (visibleViewportTop w) (positionInfo w))
           | None => None
           end.

Definition onNew {A} (m : TB A) : RW A :=
  fun w => match m (newBuffer w) with
           | Some (a, b) =>
               Some (a, mkWalk (oldBuffer w) b (oldY w) (newY w) (newX w) (newYLimit w)
                               (newCursorPos w) (mutableViewportTop w)
                               (visibleViewportTop w) (positionInfo w))
           | None => None
           end.

Definition set_oldY (v : Z) : RW unit :=
  modify (fun w => mkWalk (oldBuffer w) (newBuffer w) v (newY w) (newX w) (newYLimit w)
                          (newCursorPos w) (mutableViewportTop w) (visibleViewportTop w)
                          (positionInfo w)).

Definition set_newXY (vx vy : Z) : RW unit :=
  modify (fun w => mkWalk (oldBuffer w) (newBuffer w) (oldY w) vy vx (newYLimit w)
                          (newCursorPos w) (mutableViewportTop w) (visibleViewportTop w)
                          (positionInfo w)).

Definition set_newCursorPos (p : point) : RW unit :=
  modify (fun w => mkWalk (oldBuffer w) (newBuffer w) (oldY w) (newY w) (newX w)
                          (newYLimit w) p (mutableViewportTop w) (visibleViewportTop w)
                          (positionInfo w)).

Definition set_newYLimit (v : Z) : RW unit :=
  modify (fun w => mkWalk (oldBuffer w) (newBuffer w) (oldY w) (newY w) (newX w) v
                          (newCursorPos w) (mutableViewportTop w) (visibleViewportTop w)
                          (positionInfo w)).

(** [if (oldY >= mutableViewportTop) ...] and the same for the visible top. *)
Definition translateViewportTops : RW unit :=
  modify (fun w =>
    let w :=
      if mutableViewportTop w <=? oldY w then
        mkWalk (oldBuffer w) (newBuffer w) (oldY w) (newY w) (newX w) (newYLimit w)
               (newCursorPos w) CoordTypeMax (visibleViewportTop w)
               ((fun p => mkPositionInformation (newY w) (pi_visibleViewportTop p))
                  <$> positionInfo w)
      else w in
    if visibleViewportTop w <=? oldY w then
      mkWalk (oldBuffer w) (newBuffer w) (oldY w) (newY w) (newX w) (newYLimit w)
             (newCursorPos w) (mutableViewportTop w) CoordTypeMax
             ((fun p => mkPositionInformation (pi_mutableViewportTop p) (newY w))
                <$> positionInfo w)
    else w).

(** The do-while loop that copies one single-width row, from the column
    [oldX] on.  [turns] bounds the number of turns; the loop as written has no
    bound of its own. *)
Fixpoint copyRow (turns : nat) (oldRow : ROW) (oldRowLimit newWidth newHeight : Z)
    (oldCursorPos : point) (oldX : Z) : RW unit :=
  match turns with
  | O => throw
  | S turns' =>
      w <- get ;;
      (if newWidth <=? newX w then
         r <- onNew (GetMutableRowByOffset (newY w)) ;;
         onNew (assign r (SetWrapForced true)) ;;;
         set_newXY 0 (newY w + 1)
       else ret tt) ;;;
      w <- get ;;
      if (newHeight <=? newY w) && (newX w =? 0) && (newYLimit w <=? newY w) then
        ret tt
      else
        (if (newHeight <=? newY w) && (newX w =? 0) then
           r <- onNew (GetMutableRowByOffset (newY w)) ;;
           onNew (assign r (ROW_Reset (_initialAttributes (newBuffer w))))
         else ret tt) ;;;
        newRow <- onNew (GetMutableRowByOffset (newY w)) ;;
        row <- onNew (deref newRow) ;;
        let '(row, columnEnd, sourceColumnEnd) :=
          CopyTextFrom oldRow (newX w) CoordTypeMax oldX oldRowLimit row in
        let oldAttr := row_attr oldRow in
        let newAttr := row_attr row in
        let attributes := attr_slice oldX (Z.of_nat (length oldAttr)) oldAttr in
        let newAttr := attr_replace (newX w) (Z.of_nat (length newAttr)) attributes newAttr in
        let newAttr := attr_resize_trailing_extent newWidth newAttr in
        let row := set_attr newAttr row in
        onNew (assign newRow (fun _ => row)) ;;;
        (if (oldY w =? y oldCursorPos) && (oldX <=? x oldCursorPos) then
           set_newCursorPos
             (mkPoint (AdjustToGlyphStart (x oldCursorPos - oldX + newX w) row) (newY w)) ;;;
           set_newYLimit (newY w + newHeight)
         else ret tt) ;;;
        translateViewportTops ;;;
        set_newXY columnEnd (newY w) ;;;
        if sourceColumnEnd <? oldRowLimit
        then copyRow turns' oldRow oldRowLimit newWidth newHeight oldCursorPos sourceColumnEnd
        else ret tt
  end.

(** The body of the main loop for the row [oldY]. *)
Definition reflowRow (turns : nat) (newWidth newHeight : Z) (oldCursorPos : point)
    : RW unit :=
  w <- get ;;
  r <- onOld (GetRowByOffset (oldY w)) ;;
  oldRow <- onOld (deref r) ;;
  if negb (LineRendition_eqb (GetLineRendition oldRow) SingleWidth) then
    (if negb (newX w =? 0) then set_newXY 0 (newY w + 1) else ret tt) ;;;
    w <- get ;;
    newRow <- onNew (GetMutableRowByOffset (newY w)) ;;
    (if newHeight <=? newY w
     then onNew (assign newRow (ROW_Reset (_initialAttributes (newBuffer w))))
     else ret tt) ;;;
    onNew (assign newRow (CopyFrom oldRow)) ;;;
    onNew (assign newRow (SetWrapForced false)) ;;;
    (if oldY w =? y oldCursorPos then
       row <- onNew (deref newRow) ;;
       set_newCursorPos (mkPoint (AdjustToGlyphStart (x oldCursorPos) row) (newY w))
     else ret tt) ;;;
    translateViewportTops ;;;
    set_newXY (newX w) (newY w + 1)
  else
    let oldRowLimit := MeasureRight oldRow in
    let oldRowLimit :=
      if oldY w =? y oldCursorPos then Z.max oldRowLimit (x oldCursorPos + 1)
      else oldRowLimit in
    copyRow turns oldRow oldRowLimit newWidth newHeight oldCursorPos 0 ;;;
    w <- get ;;
    if negb (WasWrapForced oldRow) then set_newXY 0 (newY w + 1) else ret tt.

(** [for (; oldY < oldHeight && newY < newYLimit; ++oldY)], at most [n]
    turns. *)
Fixpoint copyRows (n turns : nat) (oldHeight newWidth newHeight : Z)
    (oldCursorPos : point) : RW unit :=
  match n with
  | O => ret tt
  | S n' =>
      w <- get ;;
      if (oldY w <? oldHeight) && (newY w <? newYLimit w) then
        reflowRow turns newWidth newHeight oldCursorPos ;;;
        w <- get ;;
        set_oldY (oldY w + 1) ;;;
        copyRows n' turns oldHeight newWidth newHeight oldCursorPos
      else ret tt
  end.

(** [for (; oldY < initializedRowsEnd && newY < newHeight; oldY++, newY++)] *)
Fixpoint copyRemainingAttributes (n : nat) (initializedRowsEnd newWidth newHeight : Z)
    : RW unit :=
  match n with
  | O => ret tt
  | S n' =>
      w <- get ;;
      if (oldY w <? initializedRowsEnd) && (newY w <? newHeight) then
        r <- onOld (GetRowByOffset (oldY w)) ;;
        oldRow <- onOld (deref r) ;;
        newRow <- onNew (GetMutableRowByOffset (newY w)) ;;
        onNew (assign newRow
                 (set_attr (attr_resize_trailing_extent newWidth (row_attr oldRow)))) ;;;
        set_oldY (oldY w + 1) ;;;
        set_newXY (newX w) (newY w + 1) ;;;
        copyRemainingAttributes n' initializedRowsEnd newWidth newHeight
      else ret tt
  end.

(** [TextBuffer::Reflow].  The two [assert]s on [newCursorPos] are not part
    of a release build and check nothing here; [reflowAsserts] states them.
    The result is the old buffer, the new buffer and the position
    information as the call leaves them. *)
Definition Reflow (turns : nat) (lastCharacterViewport : option Viewport)
    (positionInfo0 : option PositionInformation) : RW unit :=
  w <- get ;;
  let oldCursor := _cursor (oldBuffer w) in
  let oldCursorPos := GetPosition oldCursor in
  let oldCursorPos :=
    mkPoint (clamp (x oldCursorPos) 0 (_width (oldBuffer w) - 1))
            (clamp (y oldCursorPos) 0 (_height (oldBuffer w) - 1)) in
  last <- onOld (GetLastNonSpaceCharacter lastCharacterViewport) ;;
  let lastRowWithText := y last in
  let newWidth := Width (GetSize (newBuffer w)) in
  let oldHeight := Z.max lastRowWithText (y oldCursorPos) + 1 in
  let newHeight := Height (GetSize (newBuffer w)) in
  modify (fun w =>
    mkWalk (oldBuffer w) (newBuffer w) 0 0 0 CoordTypeMax (mkPoint 0 0)
      (match positionInfo0 with Some p => pi_mutableViewportTop p | None => CoordTypeMax end)
      (match positionInfo0 with Some p => pi_visibleViewportTop p | None => CoordTypeMax end)
      positionInfo0) ;;;
  copyRows (Z.to_nat oldHeight) turns oldHeight newWidth newHeight oldCursorPos ;;;
  w <- get ;;
  let initializedRowsEnd := _estimateOffsetOfLastCommittedRow (oldBuffer w) + 1 in
  copyRemainingAttributes (Z.to_nat (initializedRowsEnd - oldY w))
                          initializedRowsEnd newWidth newHeight ;;;
  w <- get ;;
  (if newHeight <? newY w then
     let firstRow := Z.rem (newY w) newHeight in
     onNew (modify (with_firstRow firstRow)) ;;;
     set_newCursorPos
       (mkPoint (x (newCursorPos w))
                (Z.rem (y (newCursorPos w) - firstRow + newHeight) newHeight))
   else ret tt) ;;;
  w <- get ;;
  onNew (modify (fun nb =>
    let nb := with_cursor (Cursor_CopyProperties (_cursor (oldBuffer w)) (_cursor nb)) nb in
    let nb := CopyHyperlinkMaps (oldBuffer w) nb in
    let nb := with_cursor (Cursor_SetSize (ulSize oldCursor) (_cursor nb)) nb in
    let nb := with_cursor (SetPosition (newCursorPos w) (_cursor nb)) nb in
    _trimMarksOutsideBuffer (with_marks (_marks (oldBuffer w)) nb))).

Definition reflowAsserts (newBuffer : TextBuffer) : Prop :=
  let newCursorPos := GetPosition (_cursor newBuffer) in
  (0 <= x newCursorPos /\ x newCursorPos < _width newBuffer) /\
  (0 <= y newCursorPos /\ y newCursorPos < _height newBuffer).

Definition runReflow (turns : nat) (lastCharacterViewport : option Viewport)
    (positionInfo0 : option PositionInformation) (old new : TextBuffer)
    : option (TextBuffer * TextBuffer * option PositionInformation) :=
  match Reflow turns lastCharacterViewport positionInfo0
          (mkWalk old new 0 0 0 CoordTypeMax (mkPoint 0 0) CoordTypeMax CoordTypeMax
                  positionInfo0) with
  | Some (_, w) => Some (oldBuffer w, newBuffer w, positionInfo w)
  | None => None
  end.

(** ** Construction and sample buffers *)

(** The constructor with [_reserve]: the size is at least 1 by 1, no row is
    committed, the cursor is at the origin, the first hyperlink id is 1.  The
    slots of the reserved range hold no row; they are filled with an empty
    one.  [mutationSeed] is the value the global counter hands out. *)
Definition TextBuffer_new (width height : Z) (defaultAttributes : TextAttribute)
    (cursorSize : Z) (isActiveBuffer : bool) (mutationSeed : Z) : TextBuffer :=
  let w := Z.max width 1 in
  let h := Z.max height 1 in
  mkTextBuffer w h 0
    (replicate (Z.to_nat (h + 1)) (ROW_construct 0 defaultAttributes)) 0%nat
    defaultAttributes defaultAttributes mutationSeed
    (mkCursor (mkPoint 0 0) cursorSize) isActiveBuffer ∅ [] 1 [] [].

(** Typing narrow characters one after the other at the cursor. *)
Fixpoint typeText (text : wstring) (attr : TextAttribute) : TB unit :=
  match text with
  | [] => ret tt
  | ch :: tl => InsertCharacter [ch] Single attr ;;; typeText tl attr
  end.

Definition SetCursorPosition (p : point) : TB unit := onCursor (SetPosition p).

(** A buffer of 2 columns and 3 rows in which "abcd" was typed, which
    fills and wraps the first two rows, and whose cursor was then put on the
    "d". *)
Definition wrappedBuffer : option TextBuffer :=
  match (typeText [97; 98; 99; 100] defaultTextAttribute ;;;
         SetCursorPosition (mkPoint 1 1))
          (TextBuffer_new 2 3 defaultTextAttribute 25 true 0) with
  | Some (_, tb) => Some tb
  | None => None
  end.

(** The text of the cells of a row, one entry per column. *)
Definition rowText (r : ROW) : list wstring := map cell_text (row_cells r).

(** A buffer of 2 columns and 2 rows in which two custom ids came to share
    the numeric id 1: "a" is given the id 1, 65534 anonymous ids later the
    16-bit counter is back at 1, and "b" is given the id 1 too.  One cell of
    the first row carries the hyperlink. *)
Fixpoint anonymousIds (n : nat) (uri : wstring) : TB unit :=
  match n with
  | O => ret tt
  | S n' => GetHyperlinkId uri [] ;;; anonymousIds n' uri
  end.

Definition sharedIdBuffer : option (Z * Z * TextBuffer) :=
  let uri := [117] in
  match (a <- GetHyperlinkId uri [97] ;;
         modify (AddHyperlinkToMap uri a) ;;;
         anonymousIds (Z.to_nat 65534) uri ;;;
         b <- GetHyperlinkId uri [98] ;;
         InsertCharacter [120] Single (mkAttr 0 a) ;;;
         ret (a, b))
          (TextBuffer_new 2 2 defaultTextAttribute 25 false 0) with
  | Some ((a, b), tb) => Some (a, b, tb)
  | None => None
  end.

(** A literal matcher to stand for the text-search collaborator: the
    occurrences of [needle] in each of the rows [rowBeg, rowEnd), one
    character per column, as end-inclusive spans. *)
Definition foldCase (caseInsensitive : bool) (ch : wchar) : wchar :=
  if caseInsensitive && (65 <=? ch) && (ch <=? 90) then ch + 32 else ch.

Fixpoint isPrefix (caseInsensitive : bool) (needle text : wstring) : bool :=
  match needle, text with
  | [], _ => true
  | _ :: _, [] => false
  | a :: needle', b :: text' =>
      (foldCase caseInsensitive a =? foldCase caseInsensitive b)
      && isPrefix caseInsensitive needle' text'
  end.

Fixpoint findInRow (caseInsensitive : bool) (needle text : wstring) (col row : Z)
    : list point_span :=
  match text with
  | [] => []
  | _ :: text' =>
      (if isPrefix caseInsensitive needle text
       then [mkSpan (mkPoint col row) (mkPoint (col + Z.of_nat (length needle) - 1) row)]
       else [])
      ++ findInRow caseInsensitive needle text' (col + 1) row
  end.

Definition literalFindAll (needle : wstring) (caseInsensitive : bool) (tb : TextBuffer)
    (rowBeg rowEnd : Z) : list point_span :=
  match needle with
  | [] => []
  | _ :: _ =>
      concat (map (fun i =>
                let row := rowBeg + Z.of_nat i in
                findInRow caseInsensitive needle
                          (concat (rowText (peekRow tb (slotOf tb row)))) 0 row)
              (seq 0 (Z.to_nat (rowEnd - rowBeg))))
  end.

(** A buffer of 4 columns and 1 row in which a horizontal tab was stored. *)
Definition tabBuffer : option TextBuffer :=
  match InsertCharacter [9] Single defaultTextAttribute
          (TextBuffer_new 4 1 defaultTextAttribute 25 false 0) with
  | Some (_, tb) => Some tb
  | None => None
  end.

(** The example of the specification: 10 columns, 5 rows, every row filled
    with "0123456789", the cursor on the last column of the first row. *)
Definition digitsRow : ROW :=
  mkROW (map (fun ch => mkCell [ch] Single) [48; 49; 50; 51; 52; 53; 54; 55; 56; 57])
        (replicate 10 defaultTextAttribute) SingleWidth false false.

Definition digitsBuffer : TextBuffer :=
  mkTextBuffer 10 5 0 (ROW_construct 10 defaultTextAttribute :: replicate 5 digitsRow)
    6%nat defaultTextAttribute defaultTextAttribute 0
    (mkCursor (mkPoint 9 0) 25) true ∅ [] 1 [] [].

(** The cell in a column of a row slot, and the flags of a row slot. *)
Definition cellAt (tb : TextBuffer) (slot col : nat) : option Cell :=
  match _buffer tb !! slot with
  | Some r => row_cells r !! col
  | None => None
  end.

Definition paddedAt (tb : TextBuffer) (slot : nat) : option bool :=
  _doubleBytePadded <$> _buffer tb !! slot.

(** A glyph width function and a hash for the sample runs: the CJK unified
    ideographs are full width. *)
Definition cjkFullWidth (glyph : wstring) : bool :=
  match glyph with
  | [ch] => (0x4E00 <=? ch) && (ch <=? 0x9FFF)
  | _ => false
  end.

Definition constantHash (uri : wstring) : wstring := [48].

(** [digitsBuffer] with a hyperlink and the cursor on the last row: the
    first cell of the first row carries the hyperlink id 1, which the
    id-to-URI map gives the URI "u" and to which the custom id "a%0" maps,
    as [GetHyperlinkId] and [AddHyperlinkToMap] register it; the next id to
    hand out is 2.  No other row refers to the id. *)
Definition linkedRow : ROW :=
  mkROW (row_cells digitsRow) (mkAttr 0 1 :: replicate 9 defaultTextAttribute)
        SingleWidth false false.

Definition linkedBuffer : TextBuffer :=
  mkTextBuffer 10 5 0
    (ROW_construct 10 defaultTextAttribute :: linkedRow :: replicate 4 digitsRow)
    6%nat defaultTextAttribute defaultTextAttribute 0
    (mkCursor (mkPoint 9 4) 25) true {[ 1 := [117] ]} [([97; 37; 48], 1)] 2 [] [].

(** [digitsBuffer] with two marks, starting at (0,0) and at (0,2). *)
Definition markedBuffer : TextBuffer :=
  with_marks [mkMark (mkPoint 0 0) (mkPoint 0 0) None None 0;
              mkMark (mkPoint 0 2) (mkPoint 0 2) None None 0] digitsBuffer.

(** The specification's "whitespace character": a character with the
    Unicode White_Space property, which is what [iswspace] tests. *)
Definition isWhitespaceChar (ch : wchar) : bool :=
  ((9 <=? ch) && (ch <=? 13)) || (ch =? 32) || (ch =? 0x85) || (ch =? 0xA0)
  || (ch =? 0x1680) || ((0x2000 <=? ch) && (ch <=? 0x200A))
  || (ch =? 0x2028) || (ch =? 0x2029) || (ch =? 0x202F) || (ch =? 0x205F)
  || (ch =? 0x3000).

(** The marks a scroll keeps: those whose start row is a row of the buffer. *)
Definition startsInside (height : Z) (m : ScrollMark) : Prop :=
  0 <= y (mark_start m) < height.

#[local] Instance startsInside_dec height m : Decision (startsInside height m).
Proof. unfold startsInside. apply _. Defined.

(** Number of custom ids that map to the numeric id [id]. *)
Definition countId (id : Z) (m : list (wstring * Z)) : nat :=
  length (filter (fun customIdPair => snd customIdPair = id) m).

(** The pairs of the custom-id map that map to the numeric id [id], in the
    order of the map. *)
Definition pairsWithId (id : Z) (m : list (wstring * Z)) : list (wstring * Z) :=
  filter (fun customIdPair => snd customIdPair = id) m.

(** The ids the rotation finds in the row it recycles and in no other row. *)
Definition referencedBy (tb : TextBuffer) (j : Z) (id : Z) : Prop :=
  id ∈ GetHyperlinks (peekRow tb (slotOf tb j)).

Definition onlyInRecycledRow (tb : TextBuffer) (id : Z) : Prop :=
  referencedBy tb 0 id /\ forall j, 1 <= j < _height tb -> ~ referencedBy tb j id.

Definition removeAll (l : list Z) (tb : TextBuffer) : TextBuffer :=
  foldl (fun t hyperlinkReference => RemoveHyperlinkFromMap hyperlinkReference t) tb l.

(** Everything of the instance but the row storage and its watermark. *)
Definition header (tb : TextBuffer) : TextBuffer :=
  with_commitWatermark 0 (with_buffer [] tb).

(** What a commit may change: it constructs rows past the watermark and
    leaves each row a reader finds as it was. *)
Record commits (tb tb' : TextBuffer) : Prop := {
  cm_header : header tb' = header tb;
  cm_length : length (_buffer tb') = length (_buffer tb);
  cm_mono : (_commitWatermark tb <= _commitWatermark tb')%nat;
  cm_peek : forall s, peekRow tb' s = peekRow tb s }.

Ltac header_field H f :=
  let E := fresh "E" in
  pose proof (f_equal f H) as E; simpl in E.


(** ** Further members of the hyperlink registry *)

(** [_hyperlinkMap.at (id)] throws for an id that is not registered. *)
Definition GetHyperlinkUriFromId (id : Z) : TB wstring :=
  tb <- get ;;
  match _hyperlinkMap tb !! id with
  | Some uri => ret uri
  | None => throw
  end.

(** The loop of [GetCustomIdFromId] over the custom-id pairs. *)
Fixpoint firstCustomId (id : Z) (m : list (wstring * Z)) : wstring :=
  match m with
  | [] => []
  | customIdPair :: tl =>
      if snd customIdPair =? id then fst customIdPair
      else firstCustomId id tl
  end.

Definition GetCustomIdFromId (id : Z) (tb : TextBuffer) : wstring :=
  firstCustomId id (_hyperlinkCustomIdMap tb).

(** ** Further members of the marks *)

Definition StartPromptMark (m : ScrollMark) (tb : TextBuffer) : TextBuffer :=
  with_marks (_marks tb ++ [m]) tb.

Definition AddMark (m : ScrollMark) (tb : TextBuffer) : TextBuffer :=
  with_marks (m :: _marks tb) tb.

(** A buffer of one row to which [StartPromptMark] gave two marks, starting
    at (0,0) and at (0,2). *)
Definition oneRowMarkedBuffer : TextBuffer :=
  StartPromptMark (mkMark (mkPoint 0 2) (mkPoint 0 2) None None 0)
    (StartPromptMark (mkMark (mkPoint 0 0) (mkPoint 0 0) None None 0)
       (TextBuffer_new 10 1 defaultTextAttribute 25 true 0)).

(** The numeric ids the registry hands out are [uint16_t] values other than
    0, which the attributes use for "no hyperlink". *)
Definition validId (id : Z) : Prop := 1 <= id <= UINT16_MAX.

Definition registry_ok (tb : TextBuffer) : Prop :=
  validId (_currentHyperlinkId tb) /\
  Forall (fun customIdPair => validId (snd customIdPair)) (_hyperlinkCustomIdMap tb).

(** The key [GetHyperlinkId] stores for a custom id. *)
Definition customKey (uri id : wstring) : wstring := id ++ [37] ++ hashText uri.

(** ** The instance as its callers see it

    A caller sees the members other than the row storage ([header]) and the
    row each slot holds ([peekRow]); which rows are committed is not
    observable.  [agrees h rows] describes an instance by the two. *)

Definition agrees (h : TextBuffer) (rows : nat -> ROW) (tb : TextBuffer) : Prop :=
  wf tb /\ header tb = header h /\ forall s, peekRow tb s = rows s.

(** The rows after the row in [slot] was changed by [f]. *)
Definition upd (slot : nat) (f : ROW -> ROW) (rows : nat -> ROW) : nat -> ROW :=
  fun s => if decide (s = slot) then f (rows s) else rows s.

(** [agrees], with the slots below [c] known to be committed. *)
Definition St (h : TextBuffer) (rows : nat -> ROW) (c : nat) (tb : TextBuffer) : Prop :=
  agrees h rows tb /\ (c <= _commitWatermark tb)%nat.

(** A member function that returns, with a result and in a state that
    satisfy [Q], from every state that satisfies [P]. *)
Definition hoare {A} (P : TextBuffer -> Prop) (m : TB A) (Q : A -> TextBuffer -> Prop) : Prop :=
  forall tb, P tb -> exists a tb', m tb = Some (a, tb') /\ Q a tb'.

(** The rendition and the width of a logical row, read off the rows. *)
Definition lineRenditionAt (h : TextBuffer) (rows : nat -> ROW) (row : Z) : LineRendition :=
  GetLineRendition (rows (slotOf h row)).

Definition lineWidthAt (h : TextBuffer) (rows : nat -> ROW) (row : Z) : Z :=
  Z.shiftr (_width h)
           (if LineRendition_eqb (lineRenditionAt h rows row) SingleWidth then 0 else 1).

Definition bumpMutationId (h : TextBuffer) : TextBuffer :=
  with_lastMutationId (wrap64u (_lastMutationId h + 1)) h.

(** The members after a rotation of the ring that removed the hyperlink ids
    [l]: the renderer was flushed when the buffer is the active one, the
    registry pruned, the mutation counter incremented for the recycled row
    and the first row advanced. *)
Definition flushed (h : TextBuffer) : TextBuffer :=
  if _isActiveBuffer h then with_renderer (_renderer h ++ [TriggerFlush true]) h else h.

Definition rotated (l : list Z) (h : TextBuffer) : TextBuffer :=
  with_firstRow ((_firstRow h + 1) mod _height h)
                (bumpMutationId (removeAll l (flushed h))).

(** ** The cursor coordinator, seen from its callers *)

Definition cursorX (h : TextBuffer) : Z := x (GetPosition (_cursor h)).
Definition cursorY (h : TextBuffer) : Z := y (GetPosition (_cursor h)).

(** The cursor is on a cell of the buffer. *)
Definition cursorInside (tb : TextBuffer) : Prop :=
  0 <= cursorX tb < _width tb /\ 0 <= cursorY tb < _height tb.

Definition cursorAt (nx ny : Z) (h : TextBuffer) : TextBuffer :=
  with_cursor (SetPosition (mkPoint nx ny) (_cursor h)) h.

(** What [NewlineCursor] leaves of an instance [h] with the rows [rows]: the
    cursor at the start of the next row, or, from the last row, the cursor at
    the start of the last row of the rotated ring. *)
Definition afterNewline (h : TextBuffer) (rows : nat -> ROW) (c : nat) (tb : TextBuffer)
    : Prop :=
  (cursorY h + 1 < _height h /\ St (cursorAt 0 (cursorY h + 1) h) rows c tb) \/
  (cursorY h + 1 = _height h /\
   exists l, St (rotated l (cursorAt 0 (_height h - 1) h))
                (upd (slotOf h 0) (ROW_Reset defaultTextAttribute) rows) c tb).

(** What [IncrementCursor] leaves: the cursor one column further in its row,
    or, past the last column of the row, the row marked as wrapped and the
    cursor on a new line. *)
Definition afterIncrement (h : TextBuffer) (rows : nat -> ROW) (c : nat) (tb : TextBuffer)
    : Prop :=
  (cursorX h + 1 <= lineWidthAt h rows (cursorY h) - 1 /\
   St (cursorAt (cursorX h + 1) (cursorY h) h) rows c tb) \/
  (lineWidthAt h rows (cursorY h) - 1 < cursorX h + 1 /\
   afterNewline (bumpMutationId (cursorAt (cursorX h + 1) (cursorY h) h))
                (upd (slotOf h (cursorY h)) (SetWrapForced true) rows) c tb).

(** What the cursor coordinator never changes: the size, the marks, the
    current attributes, whether the buffer is the active one, and, in a
    buffer that is not the active one, the calls made to the renderer. *)
Definition sameFrame (h tb : TextBuffer) : Prop :=
  _width tb = _width h /\ _height tb = _height h /\ _marks tb = _marks h /\
  _currentAttributes tb = _currentAttributes h /\
  _isActiveBuffer tb = _isActiveBuffer h /\
  (_isActiveBuffer h = false -> _renderer tb = _renderer h).

(** The row [InsertCharacter] stores into, after the store. *)
Definition storeGlyph (chars : wstring) (dbcsAttribute : DbcsAttribute)
    (attr : TextAttribute) (iCol : Z) (r : ROW) : ROW :=
  SetAttrToEnd iCol attr
    (match dbcsAttribute with
     | Leading => ReplaceCharacters iCol 2 chars r
     | Trailing => ReplaceCharacters (iCol - 1) 2 chars r
     | Single => ReplaceCharacters iCol 1 chars r
     end).

(** The invariant of the cursor coordinator, relative to the instance [h] it
    started from. *)
Definition Inv (h tb : TextBuffer) : Prop :=
  wf tb /\ sameFrame h tb /\ cursorInside tb.

(** Every row of the reserved range is committed: no row access has a row
    left to commit, and the [VirtualAlloc] of [_commit] is not reached. *)
Definition fullyCommitted (tb : TextBuffer) : Prop :=
  _commitWatermark tb = reservedRows tb.

(** ** Clearing the buffer *)

Definition with_initialAttributes (v : TextAttribute) (t : TextBuffer) : TextBuffer :=
  mkTextBuffer (_width t) (_height t) (_firstRow t) (_buffer t) (_commitWatermark t)
    v (_currentAttributes t) (_lastMutationId t) (_cursor t)
    (_isActiveBuffer t) (_hyperlinkMap t) (_hyperlinkCustomIdMap t)
    (_currentHyperlinkId t) (_marks t) (_renderer t).

(** [_destroy] ends the lifetime of the rows below the watermark and changes
    no member. *)
Definition _destroy (tb : TextBuffer) : TextBuffer := tb.

(** [_decommit] gives the pages back and moves the watermark to the start of
    the reserved region: no slot holds a row any more. *)
Definition _decommit (tb : TextBuffer) : TextBuffer :=
  with_commitWatermark 0 (_destroy tb).

Definition Reset (tb : TextBuffer) : TextBuffer :=
  with_initialAttributes (_currentAttributes tb) (_decommit tb).

(** A row without text: [MeasureRight] finds nothing. *)
Definition rowIsEmpty (h : TextBuffer) (rows : nat -> ROW) (row : Z) : Prop :=
  MeasureRight (rows (slotOf h row)) = 0.

(** ** Line renditions and positions *)






Definition ClampPositionWithinLine (position : point) : TB point :=
  lineWidth <- GetLineWidth (y position) ;;
  let rightmostColumn := lineWidth - 1 in
  ret (mkPoint (Z.min (x position) rightmostColumn) (y position)).

Definition ScreenToBufferPosition (position : point) : TB point :=
  dw <- IsDoubleWidthLine (y position) ;;
  let scale := if dw : bool then 1 else 0 in
  ret (mkPoint (Z.shiftr (x position) scale) (y position)).

(** The left shift of a [til::CoordType] keeps the low 32 bits. *)
Definition BufferToScreenPosition (position : point) : TB point :=
  dw <- IsDoubleWidthLine (y position) ;;
  let scale := if dw : bool then 1 else 0 in
  ret (mkPoint (wrap32 (Z.shiftl (x position) scale)) (y position)).

Definition _GetPreviousFromCursor : TB point :=
  tb <- get ;;
  let coordPosition := GetPosition (_cursor tb) in
  if 0 <? x coordPosition then
    ret (mkPoint (x coordPosition - 1) (y coordPosition))
  else if 0 <? y coordPosition then
    lineWidth <- GetLineWidth (y coordPosition - 1) ;;
    ret (mkPoint (lineWidth - 1) (y coordPosition - 1))
  else ret coordPosition.

(** 1 on a single-width row, 2 on a double-width one. *)
Definition lineScale (h : TextBuffer) (rows : nat -> ROW) (row : Z) : Z :=
  if LineRendition_eqb (lineRenditionAt h rows row) SingleWidth then 1 else 2.

(** ** Moving rows *)

(** The loop [for (; y != end; y += step)] of [ScrollRows]; it makes one
    turn per row of the range, which is the fuel it is given.  The object
    expression of [CopyFrom] is evaluated before its argument. *)
Fixpoint scrollLoop (turns : nat) (y0 end_ step delta : Z) : TB unit :=
  if y0 =? end_ then ret tt
  else
    match turns with
    | O => throw
    | S turns' =>
        dst <- GetMutableRowByOffset (add32 y0 delta) ;;
        src <- GetRowByOffset y0 ;;
        source <- deref src ;;
        assign dst (CopyFrom source) ;;;
        scrollLoop turns' (add32 y0 step) end_ step delta
    end.

Definition ScrollRows (firstRow size delta : Z) : TB unit :=
  if delta =? 0 then ret tt
  else
    let size := Z.max 0 size in
    if delta <? 0 then
      scrollLoop (Z.to_nat size) firstRow (add32 firstRow size) 1 delta
    else
      scrollLoop (Z.to_nat size) (add32 (add32 firstRow size) (-1)) (add32 firstRow (-1))
                 (-1) delta.

(** The rows after [n] turns of the loop from row [y0] on. *)
Fixpoint scrolled (h : TextBuffer) (n : nat) (y0 step delta : Z) (rows : nat -> ROW)
    : nat -> ROW :=
  match n with
  | O => rows
  | S n' =>
      scrolled h n' (y0 + step) step delta
        (upd (slotOf h (y0 + delta)) (CopyFrom (rows (slotOf h y0))) rows)
  end.

Fixpoint bumpMutationIdBy (n : nat) (h : TextBuffer) : TextBuffer :=
  match n with
  | O => h
  | S n' => bumpMutationIdBy n' (bumpMutationId h)
  end.

(** ** Resizing without reflow *)



(** The rows of the new buffer after [n] turns of the loop. *)
Fixpoint copied (nh h : TextBuffer) (rows : nat -> ROW) (n : nat) (dstRow srcRow : Z)
    (nrows : nat -> ROW) : nat -> ROW :=
  match n with
  | O => nrows
  | S n' =>
      copied nh h rows n' (dstRow + 1) (srcRow + 1)
        (upd (slotOf nh dstRow) (CopyFrom (rows (slotOf h srcRow))) nrows)
  end.

(** ** Clipboard formats: RTF text *)

(** [std::to_string] of an integer: the decimal digits, at most 20 of them,
    which is enough for every 64-bit value, after a minus sign for a negative
    one. *)
Fixpoint decimalDigits (fuel : nat) (n : Z) : list Z :=
  match fuel with
  | O => []
  | S fuel' => (if n <? 10 then [] else decimalDigits fuel' (n / 10)) ++ [48 + n mod 10]
  end.

Definition to_string (n : Z) : list Z :=
  if n <? 0 then 45 :: decimalDigits 20 (- n) else decimalDigits 20 n.









(** ** Clipboard formats: the colour table of RTF *)

(** [GetRValue], [GetGValue] and [GetBValue] of wingdi.h are not part of the
    sources. *)
Variable GetRValue : Z -> Z.
Variable GetGValue : Z -> Z.
Variable GetBValue : Z -> Z.

(** What the lambda [getColorTableIndex] of [GenRTF] captures: the map from
    a colour to its index and the colour table written so far. *)
Record ColorTable := mkColorTable {
  colorMap : gmap Z nat;
  colorTableBuilder : list Z }.

(** The entry the lambda writes for a colour it has not seen. *)
Definition colorEntry (color : Z) : list Z :=
  Literal.red ++ to_string (GetRValue color)
  ++ Literal.green ++ to_string (GetGValue color)
  ++ Literal.blue ++ to_string (GetBValue color)
  ++ Literal.semicolon.

(** The empty map and the start of the table, as [GenRTF] sets them up. *)
Definition emptyColorTable : ColorTable := mkColorTable ∅ Literal.colortbl.

(** [colorMap.emplace (color, colorMap.size () + 1)] inserts nothing when the
    colour has an index. *)
Definition getColorTableIndex (color : Z) (t : ColorTable) : nat * ColorTable :=
  match colorMap t !! color with
  | Some index => (index, t)
  | None =>
      let index := (size (colorMap t) + 1)%nat in
      (index, mkColorTable (<[color := index]> (colorMap t))
                           (colorTableBuilder t ++ colorEntry color))
  end.

(** The table after calls of the lambda for the colours [colors], in that
    order. *)
Definition colorTableAfter (colors : list Z) : ColorTable :=
  foldl (fun t color => snd (getColorTableIndex color t)) emptyColorTable colors.

(** The colours of [order] are the entries of the table, the [i]-th of them
    with the index [i], counted from 1. *)
Definition tableLists (order : list Z) (t : ColorTable) : Prop :=
  NoDup order /\
  (colorTableBuilder t = Literal.colortbl ++ flat_map colorEntry order) /\
  (size (colorMap t) = length order) /\
  (forall color (index : nat),
     colorMap t !! color = Some index <->
     (1 <= index)%nat /\ order !! (index - 1)%nat = Some color).

(** The colours of a list in the order of their first use. *)
Definition firstUses (colors : list Z) : list Z :=
  foldl (fun order color => if decide (color ∈ order) then order else order ++ [color])
        [] colors.

(** ** Clipboard formats: HTML *)

(** [ConvertToA (CP_UTF8, text)] of convert.hpp and [Utils::ColorToHexString]
    are not part of the sources. *)
Variable ConvertToA : wstring -> list Z.
Variable ColorToHexString : Z -> list Z.

(** [TextBuffer::TextAndColor]: the rows of text with the foreground and the
    background colour of every character. *)
Record TextAndColor := mkTextAndColor {
  tc_text : list wstring;
  FgAttr : list (list Z);
  BkAttr : list (list Z) }.

(** The switch on the characters of [unescapedText]. *)
Definition escapeHtml (unescapedText : list Z) : list Z :=
  flat_map (fun c =>
    if c =? 60 then Literal.lt
    else if c =? 62 then Literal.gt
    else if c =? 38 then Literal.amp
    else [c]) unescapedText.

(** The lambda [writeAccumulatedChars] of [GenHTML]: the bytes it writes and
    the start offset it leaves. *)
Definition writeAccumulatedChars (rowText : wstring) (col startOffset : nat)
    (includeCurrent : bool) : list Z * nat :=
  if (startOffset <=? col)%nat then
    (escapeHtml
       (ConvertToA (take (col - startOffset + (if includeCurrent then 1 else 0))
                         (drop startOffset rowText))),
     col)
  else ([], startOffset).

(** The variables the two loops of [GenHTML] share. *)
Record HtmlLoop := mkHtmlLoop {
  startOffset : nat;
  fgColor : option Z;
  bkColor : option Z;
  hasWrittenAnyText : bool }.

Definition colorDiffers (current : option Z) (attr : Z) : bool :=
  match current with
  | None => true
  | Some v => negb (attr =? v)
  end.

(** The loop over the columns of one row, [n] columns from [col] on: the
    bytes written and the variables left, or nothing when an [at ()] threw.
    A carriage return or a line feed ends the row. *)
Fixpoint htmlColumns (n : nat) (rows : TextAndColor) (row : nat) (rowText : wstring)
    (col : nat) (st : HtmlLoop) : option (list Z * HtmlLoop) :=
  match n with
  | O => Some ([], st)
  | S n' =>
      ch ← rowText !! col ;
      if (ch =? 13) || (ch =? 10) then
        let w := writeAccumulatedChars rowText col (startOffset st) false in
        Some (fst w, mkHtmlLoop (snd w) (fgColor st) (bkColor st) (hasWrittenAnyText st))
      else
        fgRow ← FgAttr rows !! row ;
        fgAttr ← fgRow !! col ;
        bkRow ← BkAttr rows !! row ;
        bkAttr ← bkRow !! col ;
        let fgChanged := colorDiffers (fgColor st) fgAttr in
        let fg := if fgChanged then fgAttr else default fgAttr (fgColor st) in
        let bkChanged := colorDiffers (bkColor st) bkAttr in
        let bk := if bkChanged then bkAttr else default bkAttr (bkColor st) in
        let colorChanged := fgChanged || bkChanged in
        let w1 := if colorChanged
                  then writeAccumulatedChars rowText col (startOffset st) false
                  else ([], startOffset st) in
        let span :=
          if colorChanged then
            (if hasWrittenAnyText st then Literal.spanClose else [])
            ++ Literal.spanOpen
            ++ Literal.colorKey ++ ColorToHexString fg ++ Literal.semicolon
            ++ Literal.backgroundColorKey ++ ColorToHexString bk ++ Literal.semicolon
            ++ Literal.tagEnd
          else [] in
        let w2 := if (col =? length rowText - 1)%nat
                  then writeAccumulatedChars rowText col (snd w1) true
                  else ([], snd w1) in
        rest ← htmlColumns n' rows row rowText (S col)
                 (mkHtmlLoop (snd w2) (Some fg) (Some bk) true) ;
        Some (fst w1 ++ span ++ fst w2 ++ fst rest, snd rest)
  end.

(** The loop over the rows, from the row with the index [row] on. *)
Fixpoint htmlRows (texts : list wstring) (rows : TextAndColor) (row : nat) (st : HtmlLoop)
    : option (list Z * HtmlLoop) :=
  match texts with
  | [] => Some ([], st)
  | rowText :: tl =>
      let br := if (row =? 0)%nat then [] else Literal.br in
      cols ← htmlColumns (length rowText) rows row rowText 0
               (mkHtmlLoop 0 (fgColor st) (bkColor st) (hasWrittenAnyText st)) ;
      rest ← htmlRows tl rows (S row) (snd cols) ;
      Some (br ++ fst cols ++ fst rest, snd rest)
  end.

(** [std::setw (10)] with [std::setfill ('0')]. *)
Definition setw10 (n : Z) : list Z :=
  replicate (10 - length (to_string n)) 48 ++ to_string n.

Definition ClipboardHeaderSize : Z := 157.

(** The header of the HTML clipboard format. *)
Definition clipHeader (htmlStartPos htmlEndPos fragStartPos fragEndPos : Z) : list Z :=
  Literal.version
  ++ Literal.startHTML ++ setw10 htmlStartPos ++ Literal.crlf
  ++ Literal.endHTML ++ setw10 htmlEndPos ++ Literal.crlf
  ++ Literal.startFragmentKey ++ setw10 fragStartPos ++ Literal.crlf
  ++ Literal.endFragmentKey ++ setw10 fragEndPos ++ Literal.crlf
  ++ Literal.startSelection ++ setw10 fragStartPos ++ Literal.crlf
  ++ Literal.endSelection ++ setw10 fragEndPos ++ Literal.crlf.

(** The style of the [DIV] element around the text. *)
Definition divStyle (fontHeightPoints : Z) (fontFaceName : wstring) (backgroundColor : Z)
    : list Z :=
  Literal.divOpen ++ Literal.displayInlineBlock ++ Literal.whiteSpacePre
  ++ Literal.backgroundColorKey ++ ColorToHexString backgroundColor ++ Literal.semicolon
  ++ Literal.fontFamilyKey ++ Literal.apostrophe ++ ConvertToA fontFaceName
  ++ Literal.apostropheComma ++ Literal.monospace
  ++ Literal.fontSizeKey ++ to_string fontHeightPoints ++ Literal.pt
  ++ Literal.paddingKey ++ to_string 4 ++ Literal.px
  ++ Literal.tagEnd.

(** What lies between the two fragment comments. *)
Definition htmlFragment (rows : TextAndColor) (fontHeightPoints : Z)
    (fontFaceName : wstring) (backgroundColor : Z) : option (list Z) :=
  body ← htmlRows (tc_text rows) rows 0 (mkHtmlLoop 0 None None false) ;
  Some (divStyle fontHeightPoints fontFaceName backgroundColor
        ++ fst body
        ++ (if hasWrittenAnyText (snd body) then Literal.spanClose else [])
        ++ Literal.divClose).

(** [catch (...)] returns the empty string. *)
Definition GenHTML (rows : TextAndColor) (fontHeightPoints : Z) (fontFaceName : wstring)
    (backgroundColor : Z) : list Z :=
  match htmlFragment rows fontHeightPoints fontFaceName backgroundColor with
  | None => []
  | Some fragment =>
      let html := Literal.htmlHeader ++ Literal.startFragment ++ fragment
                  ++ Literal.endFragment ++ Literal.HtmlFooter in
      let htmlStartPos := ClipboardHeaderSize in
      let htmlEndPos := ClipboardHeaderSize + Z.of_nat (length html) in
      let fragStartPos := ClipboardHeaderSize + Z.of_nat (length Literal.htmlHeader) in
      let fragEndPos := htmlEndPos - Z.of_nat (length Literal.HtmlFooter) in
      clipHeader htmlStartPos htmlEndPos fragStartPos fragEndPos ++ html
  end.

(** The number of characters of a row before its first carriage return or
    line feed. *)
Fixpoint lineLength (rowText : wstring) : nat :=
  match rowText with
  | [] => 0%nat
  | ch :: tl => if (ch =? 13) || (ch =? 10) then 0%nat else S (lineLength tl)
  end.

(** Every character of the text, up to the end of its line, has its two
    colours. *)
Definition coloursCover (rows : TextAndColor) : Prop :=
  forall (row : nat) (rowText : wstring),
    tc_text rows !! row = Some rowText ->
    exists fgRow bkRow,
      FgAttr rows !! row = Some fgRow /\ BkAttr rows !! row = Some bkRow /\
      (lineLength rowText <= length fgRow)%nat /\ (lineLength rowText <= length bkRow)%nat.

(** A sample conversion for text below 128, a sample colour notation, and a
    sample of two rows, the first with a change of colour. *)
Definition narrowBytes (text : wstring) : list Z := text.
Definition hashColor (color : Z) : list Z := 35 :: to_string color.
Definition sampleRows : TextAndColor :=
  mkTextAndColor [[97; 60; 98]; [99; 13; 10]] [[1; 1; 2]; [2]] [[0; 0; 0]; [0]].

(** * Properties *)

(** ** Integer helpers *)

Lemma wrap32_id (z : Z) : in_int32 z -> wrap32 z = z.
Proof.
  unfold in_int32, INT32_MIN, INT32_MAX, wrap32. intros H.
  rewrite Z.mod_small by lia. lia.
Qed.

(** The C++ remainder followed by the "negative wrap around" fix-up is the
    mathematical modulus. *)
Lemma rem_fix (a h : Z) : 0 < h ->
  (if Z.rem a h <? 0 then Z.rem a h + h else Z.rem a h) = a mod h.
Proof.
  intros Hh.
  pose proof (Z.quot_rem' a h) as E.
  pose proof (Z.rem_bound_abs a h ltac:(lia)) as Hb.
  destruct (Z.ltb_spec (Z.rem a h) 0).
  - apply Z.mod_unique with (q := a ÷ h - 1); lia.
  - apply Z.mod_unique with (q := a ÷ h); lia.
Qed.

(** ** Committing rows *)

Lemma commits_refl tb : commits tb tb.
Proof. by split. Qed.

Lemma commits_trans a b c : commits a b -> commits b c -> commits a c.
Proof.
  intros [] []. split; try congruence; try lia.
Qed.

Lemma commits_fields tb tb' : commits tb tb' ->
  _width tb' = _width tb /\ _height tb' = _height tb /\
  _firstRow tb' = _firstRow tb /\ _lastMutationId tb' = _lastMutationId tb /\
  _initialAttributes tb' = _initialAttributes tb.
Proof.
  intros [H _ _ _]. unfold header in H.
  header_field H _width. header_field H _height. header_field H _firstRow.
  header_field H _lastMutationId. header_field H _initialAttributes. done.
Qed.

Lemma commits_registry tb tb' : commits tb tb' ->
  _hyperlinkMap tb' = _hyperlinkMap tb /\
  _hyperlinkCustomIdMap tb' = _hyperlinkCustomIdMap tb /\
  _currentHyperlinkId tb' = _currentHyperlinkId tb /\
  _renderer tb' = _renderer tb /\ _cursor tb' = _cursor tb /\
  _marks tb' = _marks tb /\ _isActiveBuffer tb' = _isActiveBuffer tb.
Proof.
  intros [H _ _ _]. unfold header in H.
  header_field H _hyperlinkMap. header_field H _hyperlinkCustomIdMap.
  header_field H _currentHyperlinkId. header_field H _renderer.
  header_field H _cursor. header_field H _marks. header_field H _isActiveBuffer. done.
Qed.

Lemma construct_rows_commits n tb : commits tb (construct_rows n tb).
Proof.
  revert tb. induction n as [|n IH]; intros tb; simpl; [apply commits_refl|].
  eapply commits_trans; [|apply IH].
  split; simpl; try done.
  - by rewrite length_insert.
  - lia.
  - intros s. unfold peekRow; simpl.
    destruct (Nat.ltb_spec s (S (_commitWatermark tb))) as [Hs|Hs];
      destruct (Nat.ltb_spec s (_commitWatermark tb)) as [Hs'|Hs']; try lia; try done.
    + rewrite list_lookup_insert_ne by lia. done.
    + assert (s = _commitWatermark tb) as -> by lia.
      destruct (decide (_commitWatermark tb < length (_buffer tb))%nat).
      * by rewrite list_lookup_insert_eq.
      * rewrite list_insert_ge by lia. by rewrite lookup_ge_None_2 by lia.
Qed.

Lemma construct_rows_watermark n tb :
  _commitWatermark (construct_rows n tb) = (n + _commitWatermark tb)%nat.
Proof.
  revert tb. induction n as [|n IH]; intros tb; simpl; [done|].
  rewrite IH. simpl. lia.
Qed.

Lemma commits_reserved tb tb' : commits tb tb' -> reservedRows tb' = reservedRows tb.
Proof. intros H. apply commits_fields in H. unfold reservedRows. by destruct H as (_ & -> & _). Qed.

Lemma commits_wf tb tb' :
  wf tb -> commits tb tb' -> (_commitWatermark tb' <= reservedRows tb)%nat -> wf tb'.
Proof.
  intros [] Hc Hw. pose proof (commits_reserved _ _ Hc) as Hr.
  pose proof (commits_fields _ _ Hc) as (Ew & Eh & Ef & _).
  destruct Hc. split; try congruence; rewrite ?Ew, ?Eh, ?Ef; try done.
Qed.

Lemma getRowByOffsetDirect_ok tb o :
  wf tb -> (o < reservedRows tb)%nat ->
  exists tb', _getRowByOffsetDirect o tb = Some (o, tb') /\ commits tb tb' /\
              wf tb' /\ (o < _commitWatermark tb')%nat.
Proof.
  intros Hwf Ho. unfold _getRowByOffsetDirect, bind, get.
  destruct (Nat.leb_spec (reservedRows tb) o) as [?|_]; [lia|].
  destruct (Nat.leb_spec (_commitWatermark tb) o) as [Hc|Hc].
  - unfold _commit, _construct, bind, get, modify, ret.
    eexists; split; [reflexivity|].
    pose proof (construct_rows_commits
      ((_commitWatermark tb +
        (reservedRows tb - _commitWatermark tb) `min`
        (S o - _commitWatermark tb + _commitReadAheadRowCount) -
        _commitWatermark tb))%nat tb) as Hcm.
    pose proof (construct_rows_watermark
      ((_commitWatermark tb +
        (reservedRows tb - _commitWatermark tb) `min`
        (S o - _commitWatermark tb + _commitReadAheadRowCount) -
        _commitWatermark tb))%nat tb) as Hw.
    split; [done|]. split; [apply (commits_wf tb); [done|done|lia]|lia].
  - unfold ret. eexists; split; [reflexivity|].
    split; [apply commits_refl|]. done.
Qed.

Lemma getRow_ok tb (y0 : Z) :
  wf tb -> in_int32 (_firstRow tb + y0) ->
  exists tb', _getRow y0 tb = Some (slotOf tb y0, tb') /\ commits tb tb' /\
              wf tb' /\ (slotOf tb y0 < _commitWatermark tb')%nat.
Proof.
  intros Hwf Hy. unfold _getRow, bind, get, add32.
  rewrite wrap32_id by done.
  destruct Hwf as [Hh Hw Hf Hr Hc].
  rewrite rem_fix by lia.
  replace (Z.to_nat ((_firstRow tb + y0) mod _height tb) + 1)%nat
    with (slotOf tb y0)
    by (unfold slotOf; pose proof (Z.mod_pos_bound (_firstRow tb + y0) (_height tb)); lia).
  apply getRowByOffsetDirect_ok; [by split|].
  unfold slotOf, reservedRows.
  pose proof (Z.mod_pos_bound (_firstRow tb + y0) (_height tb)). lia.
Qed.

Lemma deref_committed tb tb' s :
  commits tb tb' -> (s < _commitWatermark tb')%nat -> (s < length (_buffer tb'))%nat ->
  deref s tb' = Some (peekRow tb s, tb').
Proof.
  intros Hc Hs Hl. unfold deref, bind, get.
  destruct (lookup_lt_is_Some_2 (_buffer tb') s Hl) as [r Hr].
  rewrite Hr. unfold ret. rewrite <- (cm_peek _ _ Hc s).
  unfold peekRow. destruct (Nat.ltb_spec s (_commitWatermark tb')); [|lia].
  by rewrite Hr.
Qed.

(** ** C1 *)

(** C1: for every logical row index [y], negative ones included,
    [GetRowByOffset] and [GetMutableRowByOffset] return the row stored in the
    physical slot [(firstRow + y) mod height + 1] of the reserved region,
    never the scratch slot 0; the mutable variant increments the mutation
    counter and the other one leaves it as it is.  The sum [firstRow + y]
    is taken inside the 32-bit range, where the C++ addition is defined. *)
Theorem GetRowByOffset_physical_slot (tb : TextBuffer) (y0 : Z) :
  wf tb -> in_int32 y0 -> in_int32 (_firstRow tb + y0) ->
  let slot := Z.to_nat ((_firstRow tb + y0) mod _height tb + 1) in
  (1 <= slot <= Z.to_nat (_height tb))%nat /\
  (exists tb',
      GetRowByOffset y0 tb = Some (slot, tb') /\
      _lastMutationId tb' = _lastMutationId tb /\
      deref slot tb' = Some (peekRow tb slot, tb')) /\
  (exists tb',
      GetMutableRowByOffset y0 tb = Some (slot, tb') /\
      _lastMutationId tb' = wrap64u (_lastMutationId tb + 1) /\
      deref slot tb' = Some (peekRow tb slot, tb')).
Proof.
  intros Hwf _ Hsum slot.
  assert (Hslot : (1 <= slot <= Z.to_nat (_height tb))%nat).
  { destruct Hwf. subst slot.
    pose proof (Z.mod_pos_bound (_firstRow tb + y0) (_height tb)). lia. }
  split; [done|]. split.
  - destruct (getRow_ok tb y0 Hwf Hsum) as (tb' & E & Hc & Hwf' & Hs).
    exists tb'. split; [exact E|].
    split; [by apply commits_fields in Hc as (_ & _ & _ & ? & _)|].
    change (slotOf tb y0) with slot in Hs.
    apply deref_committed; [done|done|].
    destruct Hwf'. lia.
  - set (tb1 := with_lastMutationId (wrap64u (_lastMutationId tb + 1)) tb).
    assert (Hwf1 : wf tb1) by (destruct Hwf; by split).
    destruct (getRow_ok tb1 y0 Hwf1 Hsum) as (tb' & E & Hc & Hwf' & Hs).
    exists tb'. split; [exact E|].
    split; [by apply commits_fields in Hc as (_ & _ & _ & ? & _)|].
    change (slotOf tb1 y0) with slot in Hs.
    change (peekRow tb slot) with (peekRow tb1 slot).
    apply deref_committed; [done|done|].
    destruct Hwf'. lia.
Qed.

(** ** Measuring text: C3 and C10 *)

Lemma add32_small (a b : Z) : in_int32 (a + b) -> add32 a b = a + b.
Proof. apply wrap32_id. Qed.

(** The slow path takes glyphs while they fit.  The column counter stays in
    its range when the budget leaves room for one more glyph, or when the
    text is short enough. *)
Lemma slowPath_fitGlyphs (columnLimit size : Z) (n : nat) :
  forall (rest : wstring) (it col : Z),
    (length rest <= n)%nat -> rest <> [] -> 0 <= col <= columnLimit ->
    (columnLimit <= INT32_MAX - 2 \/ col + 2 * Z.of_nat (length rest) <= INT32_MAX) ->
    it + Z.of_nat (length rest) = size ->
    slowPath columnLimit size rest it col = fitGlyphs columnLimit (glyphs rest) it col.
Proof.
  induction n as [|n IH]; intros rest it col Hn Hne Hcol Hmax Hsize.
  { destruct rest; [done|simpl in Hn; lia]. }
  destruct rest as [|wch tl]; [done|]. clear Hne.
  simpl length in *.
  assert (E1 : add32 col 1 = col + 1)
    by (apply add32_small; unfold in_int32, INT32_MIN, INT32_MAX in *; lia).
  assert (Eb : forall b : bool, add32 (col + 1) (Z.b2z b) = col + 1 + Z.b2z b).
  { intros b. apply add32_small. unfold in_int32, INT32_MIN, INT32_MAX in *.
    destruct b; simpl; lia. }
  assert (Hb : forall b : bool, 0 <= Z.b2z b <= 1) by (intros []; simpl; lia).
  cbn [slowPath glyphs]. rewrite E1.
  destruct (Z.ltb_spec wch 128) as [Ha|Ha].
  - (* an ASCII character *)
    destruct (Z.leb_spec 128 wch) as [?|_]; [lia|]. cbn [andb fitGlyphs].
    destruct (Z.ltb_spec columnLimit (col + 1)), (Z.leb_spec (col + 1) columnLimit);
      try lia; try done.
    destruct tl as [|c tl]; [simpl; f_equal; simpl in Hsize; lia|].
    apply IH; simpl length in *; try done; lia.
  - destruct (Z.leb_spec 128 wch) as [_|?]; [|lia]. cbn [andb].
    destruct (is_surrogate wch) eqn:Es.
    + destruct tl as [|wch2 tl2].
      * (* a lone surrogate at the end of the text *)
        cbn [fitGlyphs]. unfold glyphColumns. rewrite Eb.
        destruct (Z.ltb_spec columnLimit (col + 1 + Z.b2z (IsGlyphFullWidth [UNICODE_REPLACEMENT]))),
                 (Z.leb_spec (col + (1 + Z.b2z (IsGlyphFullWidth [UNICODE_REPLACEMENT]))) columnLimit);
          try lia; try done.
        simpl. f_equal; simpl in Hsize; lia.
      * destruct (is_leading_surrogate wch && is_trailing_surrogate wch2) eqn:Ep.
        -- (* a surrogate pair *)
           cbn [fitGlyphs]. unfold glyphColumns. rewrite Eb.
           pose proof (Hb (IsGlyphFullWidth [wch; wch2])).
           destruct (Z.ltb_spec columnLimit (col + 1 + Z.b2z (IsGlyphFullWidth [wch; wch2]))),
                    (Z.leb_spec (col + (1 + Z.b2z (IsGlyphFullWidth [wch; wch2]))) columnLimit);
             try lia; try done.
           replace (col + (1 + Z.b2z (IsGlyphFullWidth [wch; wch2])))
             with (col + 1 + Z.b2z (IsGlyphFullWidth [wch; wch2])) by lia.
           destruct tl2 as [|c tl2]; [simpl; f_equal; simpl in Hsize; lia|].
           apply IH; simpl length in *; try done; lia.
        -- (* a malformed surrogate *)
           cbn [fitGlyphs]. unfold glyphColumns. rewrite Eb.
           pose proof (Hb (IsGlyphFullWidth [UNICODE_REPLACEMENT])).
           destruct (Z.ltb_spec columnLimit (col + 1 + Z.b2z (IsGlyphFullWidth [UNICODE_REPLACEMENT]))),
                    (Z.leb_spec (col + (1 + Z.b2z (IsGlyphFullWidth [UNICODE_REPLACEMENT]))) columnLimit);
             try lia; try done.
           replace (col + (1 + Z.b2z (IsGlyphFullWidth [UNICODE_REPLACEMENT])))
             with (col + 1 + Z.b2z (IsGlyphFullWidth [UNICODE_REPLACEMENT])) by lia.
           apply IH; simpl length in *; try done; lia.
    + (* a character of the basic plane *)
      cbn [fitGlyphs]. unfold glyphColumns. rewrite Eb.
      pose proof (Hb (IsGlyphFullWidth [wch])).
      destruct (Z.ltb_spec columnLimit (col + 1 + Z.b2z (IsGlyphFullWidth [wch]))),
               (Z.leb_spec (col + (1 + Z.b2z (IsGlyphFullWidth [wch]))) columnLimit);
        try lia; try done.
      replace (col + (1 + Z.b2z (IsGlyphFullWidth [wch])))
        with (col + 1 + Z.b2z (IsGlyphFullWidth [wch])) by lia.
      destruct tl as [|c tl]; [simpl; f_equal; simpl in Hsize; lia|].
      apply IH; simpl length in *; try done; lia.
Qed.

Lemma glyphColumns_bounds g : 1 <= glyphColumns g <= 2.
Proof. unfold glyphColumns. destruct (IsGlyphFullWidth g); simpl; lia. Qed.

Lemma glyphs_cons (wch : wchar) (tl : wstring) :
  exists len w gs, glyphs (wch :: tl) = (len, w) :: gs /\ 1 <= w <= 2.
Proof.
  cbn [glyphs]. destruct (wch <? 128); [by eexists _, _, _; split; [done|lia]|].
  destruct (is_surrogate wch).
  - destruct tl as [|wch2 tl2].
    + eexists _, _, _; split; [done|apply glyphColumns_bounds].
    + destruct (is_leading_surrogate wch && is_trailing_surrogate wch2);
        eexists _, _, _; (split; [done|apply glyphColumns_bounds]).
  - eexists _, _, _; split; [done|apply glyphColumns_bounds].
Qed.

Lemma sumChars_glyphs (n : nat) :
  forall text : wstring, (length text <= n)%nat -> sumChars (glyphs text) = Z.of_nat (length text).
Proof.
  induction n as [|n IH]; intros [|wch tl] Hn; simpl in Hn; try done; try lia.
  assert (Hcons : forall len w gs, sumChars ((len, w) :: gs) = len + sumChars gs) by done.
  cbn [glyphs]. destruct (wch <? 128).
  { rewrite Hcons, IH by lia. simpl length. lia. }
  destruct (is_surrogate wch).
  - destruct tl as [|wch2 tl2]; [done|].
    destruct (is_leading_surrogate wch && is_trailing_surrogate wch2);
      rewrite Hcons, IH by (simpl in *; lia); simpl length; lia.
  - rewrite Hcons, IH by lia. simpl length. lia.
Qed.

(** The fast path followed, where it stops early, by the slow path takes
    glyphs while they fit. *)
Lemma fastPath_fitGlyphs (columnLimit size : Z) :
  forall (text : wstring) (k : Z),
    0 <= k <= columnLimit ->
    (columnLimit <= INT32_MAX - 2 \/ k + 2 * Z.of_nat (length text) <= INT32_MAX) ->
    k + Z.of_nat (length text) = size ->
    let n := Z.to_nat (Z.min (Z.of_nat (length text)) (columnLimit - k)) in
    let d := asciiPrefix text n in
    (if (d =? n)%nat then (k + Z.of_nat d, k + Z.of_nat d)
     else slowPath columnLimit size (drop d text) (k + Z.of_nat d) (k + Z.of_nat d))
    = fitGlyphs columnLimit (glyphs text) k k.
Proof.
  induction text as [|wch tl IH]; intros k Hk Hmax Hsize n d.
  { assert (n = 0%nat) as Hn by (subst n; simpl length; lia).
    subst d. rewrite Hn. simpl. f_equal; lia. }
  destruct (Z.eq_dec k columnLimit) as [->|Hlt].
  - (* no column is left *)
    assert (n = 0%nat) as Hn by (subst n; simpl length; lia).
    subst d. rewrite Hn. simpl asciiPrefix. simpl Nat.eqb. cbv iota.
    destruct (glyphs_cons wch tl) as (len & w & gs & -> & Hw).
    cbn [fitGlyphs]. destruct (Z.leb_spec (columnLimit + w) columnLimit); [lia|].
    f_equal; lia.
  - assert (n = S (Z.to_nat (Z.min (Z.of_nat (length tl)) (columnLimit - (k + 1))))) as Hn
      by (subst n; simpl length; lia).
    subst d. rewrite Hn. cbn [asciiPrefix].
    destruct (Z.ltb_spec wch 128) as [Ha|Ha].
    + cbn [glyphs]. destruct (Z.ltb_spec wch 128) as [_|?]; [|lia].
      cbn [fitGlyphs]. destruct (Z.leb_spec (k + 1) columnLimit); [|lia].
      rewrite <- (IH (k + 1)) by (simpl length in *; lia).
      cbn [Nat.eqb drop].
      replace (k + Z.of_nat (S (asciiPrefix tl
                 (Z.to_nat (Z.of_nat (length tl) `min` (columnLimit - (k + 1)))))))
        with (k + 1 + Z.of_nat (asciiPrefix tl
                 (Z.to_nat (Z.of_nat (length tl) `min` (columnLimit - (k + 1))))))
        by lia.
      done.
    + cbn [Nat.eqb drop]. rewrite Z.add_0_r.
      apply (slowPath_fitGlyphs columnLimit size (length (wch :: tl))); try done; lia.
Qed.

Lemma asciiPrefix_le (text : wstring) (n : nat) : (asciiPrefix text n <= n)%nat.
Proof.
  revert text. induction n as [|n IH]; intros [|c tl]; simpl; try lia.
  destruct (c <? 128); [specialize (IH tl)|]; lia.
Qed.

Lemma FitTextIntoColumns_fitSpec (chars : wstring) (columnLimit : Z) :
  columnLimit <= INT32_MAX ->
  (columnLimit <= INT32_MAX - 2 \/ Z.of_nat (length chars) < 2 ^ 30) ->
  FitTextIntoColumns chars columnLimit = fitSpec chars columnLimit.
Proof.
  intros Hlim Hlen. unfold FitTextIntoColumns, fitSpec.
  pose proof (fastPath_fitGlyphs (Z.max 0 columnLimit) (Z.of_nat (length chars)) chars 0) as H.
  cbv zeta in H. rewrite Z.sub_0_r in H. rewrite !Z.add_0_l in H.
  rewrite <- H by (unfold INT32_MAX in *; lia). clear H.
  pose proof (asciiPrefix_le chars
    (Z.to_nat (Z.of_nat (length chars) `min` (Z.max 0 columnLimit)))) as Hd.
  rewrite wrap32_id by (unfold in_int32, INT32_MIN, INT32_MAX in *; lia).
  done.
Qed.

(** Taking glyphs while they fit, seen from the result. *)
Lemma fitGlyphs_split (limit : Z) :
  forall (gs : list (Z * Z)) (chars cols : Z),
    cols <= limit ->
    exists taken left,
      gs = taken ++ left /\
      cols + sumColumns taken <= limit /\
      fst (fitGlyphs limit gs chars cols) = chars + sumChars taken /\
      match left with
      | [] => fitGlyphs limit gs chars cols = (chars + sumChars gs, cols + sumColumns gs)
      | g :: _ => limit < cols + sumColumns taken + snd g /\
                  snd (fitGlyphs limit gs chars cols) = limit
      end.
Proof.
  induction gs as [|[len w] gs IH]; intros chars cols Hc.
  { exists [], []. unfold sumColumns, sumChars. simpl.
    repeat split; try lia. f_equal; lia. }
  cbn [fitGlyphs]. destruct (Z.leb_spec (cols + w) limit) as [Hfit|Hfit].
  - destruct (IH (chars + len) (cols + w) Hfit) as (taken & left & -> & Hs & Hf & Hl).
    exists ((len, w) :: taken), left. unfold sumColumns, sumChars in *. simpl.
    repeat split; try lia.
    destruct left as [|g left].
    + rewrite Hl. rewrite app_nil_r. f_equal; lia.
    + destruct Hl as [Hl1 Hl2]. split; [lia|done].
  - exists [], ((len, w) :: gs). unfold sumColumns, sumChars. simpl.
    repeat split; lia.
Qed.

(** C3: for every text and every non-negative column budget,
    [FitTextIntoColumns] returns the number of input characters that fit:
    the text is a sequence of glyphs (1 column per ASCII character, 2 per
    full-width glyph, a malformed surrogate measured as the replacement
    character), split into the glyphs [taken], which fit into the budget, and
    the glyphs [left], the first of which does not.  When nothing is left the
    result is the text length and [columns] the columns consumed; when the
    budget runs out, [columns] is exactly [columnLimit], also when a column
    was wasted because a wide glyph did not fit.  In particular "ab" with a
    budget of 1 gives 1 character and 1 column.  The column counter is a
    32-bit integer: the budget leaves room for one more glyph below
    [INT32_MAX], or the text is shorter than 2^30 characters. *)
Theorem FitTextIntoColumns_characters_that_fit (chars : wstring) (columnLimit : Z) :
  0 <= columnLimit <= INT32_MAX ->
  (columnLimit <= INT32_MAX - 2 \/ Z.of_nat (length chars) < 2 ^ 30) ->
  (exists taken left,
      glyphs chars = taken ++ left /\
      sumColumns taken <= columnLimit /\
      fst (FitTextIntoColumns chars columnLimit) = sumChars taken /\
      match left with
      | [] => FitTextIntoColumns chars columnLimit
              = (Z.of_nat (length chars), textColumns chars)
      | g :: _ => columnLimit < sumColumns taken + snd g /\
                  snd (FitTextIntoColumns chars columnLimit) = columnLimit
      end) /\
  FitTextIntoColumns [97; 98] 1 = (1, 1).
Proof.
  intros Hlim Hlen. split; [|reflexivity].
  rewrite FitTextIntoColumns_fitSpec by (done || lia). unfold fitSpec.
  rewrite Z.max_r by lia.
  destruct (fitGlyphs_split columnLimit (glyphs chars) 0 0 ltac:(lia))
    as (taken & left & E & Hs & Hf & Hl).
  exists taken, left. repeat split; try done; try lia.
  destruct left as [|g left]; [|destruct Hl; split; [lia|done]].
  rewrite Hl. unfold textColumns.
  rewrite (sumChars_glyphs (length chars)) by done. done.
Qed.

(** C10: for every text and every column budget that is 0 or negative,
    [FitTextIntoColumns] returns 0 characters and stores 0 columns: the
    negative budget is clamped to 0 and no error is raised. *)
Theorem FitTextIntoColumns_nonpositive_budget (chars : wstring) (columnLimit : Z) :
  columnLimit <= 0 -> FitTextIntoColumns chars columnLimit = (0, 0).
Proof.
  intros H. unfold FitTextIntoColumns.
  rewrite Z.max_l by lia.
  replace (Z.to_nat (Z.min (Z.of_nat (length chars)) 0)) with 0%nat by lia.
  by destruct chars.
Qed.

(** ** Marks: C7 and C9 *)

Lemma erase_if_filter {A} (pred : A -> bool) (P : A -> Prop) `{!forall a, Decision (P a)}
    (l : list A) :
  (forall a, pred a = false <-> P a) -> erase_if pred l = filter P l.
Proof.
  intros Hp. induction l as [|a l IH]; [done|]. simpl.
  rewrite filter_cons. destruct (pred a) eqn:E.
  - rewrite decide_False; [done|]. rewrite <- Hp. congruence.
  - rewrite decide_True by (by apply Hp). by rewrite IH.
Qed.

(** C7: [ScrollMarks delta] adds [delta] (the 32-bit addition) to the y
    coordinate of every mark's start, of its commandEnd when present and of
    its outputEnd when present, leaves the rest of the mark alone, and then
    removes exactly the marks whose start row is outside [0, height), keeping
    all others in their order.  For two marks starting at (0,0) and (0,2) in a
    buffer of more than one row, [ScrollMarks (-1)] leaves exactly one mark,
    and it starts at (0,1); in a buffer of one row it leaves no mark. *)
Theorem ScrollMarks_shift_and_trim (tb : TextBuffer) (delta : Z) :
  (forall m,
      let m' := scrollMark delta m in
      mark_start m' = mkPoint (x (mark_start m)) (add32 (y (mark_start m)) delta) /\
      (in_int32 (y (mark_start m) + delta) ->
         y (mark_start m') = y (mark_start m) + delta) /\
      commandEnd m' = (fun p => mkPoint (x p) (add32 (y p) delta)) <$> commandEnd m /\
      outputEnd m' = (fun p => mkPoint (x p) (add32 (y p) delta)) <$> outputEnd m /\
      mark_end m' = mark_end m /\ category m' = category m) /\
  _marks (ScrollMarks delta tb)
    = filter (startsInside (_height tb)) (map (scrollMark delta) (_marks tb)) /\
  (forall m, m ∈ _marks (ScrollMarks delta tb) <->
             exists m0, m0 ∈ _marks tb /\ m = scrollMark delta m0 /\
                        0 <= y (mark_start m) < _height tb) /\
  (forall m1 m2,
      1 < _height tb -> _marks tb = [m1; m2] ->
      mark_start m1 = mkPoint 0 0 -> mark_start m2 = mkPoint 0 2 ->
      exists m, _marks (ScrollMarks (-1) tb) = [m] /\ mark_start m = mkPoint 0 1) /\
  (forall m1 m2,
      _height tb <= 1 -> _marks tb = [m1; m2] ->
      mark_start m1 = mkPoint 0 0 -> mark_start m2 = mkPoint 0 2 ->
      _marks (ScrollMarks (-1) tb) = []).
Proof.
  assert (Hshape : forall d t, _marks (ScrollMarks d t)
            = filter (startsInside (_height t)) (map (scrollMark d) (_marks t))).
  { intros d t. unfold ScrollMarks, _trimMarksOutsideBuffer. simpl.
    apply erase_if_filter. intros m. unfold startsInside.
    rewrite orb_false_iff, Z.ltb_ge, Z.leb_gt. lia. }
  split; [|split; [apply Hshape|split; [|split]]].
  - intros m m'. subst m'. unfold scrollMark, moveY. simpl.
    split; [done|]. split; [intros Hr; by apply wrap32_id|].
    split; [by destruct (commandEnd m)|]. split; [by destruct (outputEnd m)|done].
  - intros m. rewrite Hshape, list_elem_of_filter, list_elem_of_fmap.
    unfold startsInside. split.
    + intros [Hin (m0 & -> & H0)]. by exists m0.
    + intros (m0 & H0 & -> & Hin). split; [done|]. by exists m0.
  - intros m1 m2 Hh Hm E1 E2. rewrite Hshape, Hm.
    exists (scrollMark (-1) m2). cbn [map].
    rewrite filter_cons, decide_False, filter_cons, decide_True, filter_nil.
    + split; [done|]. unfold scrollMark, moveY. simpl. by rewrite E2.
    + unfold startsInside, scrollMark, moveY. simpl. rewrite E2. simpl.
      change (add32 2 (-1)) with 1. lia.
    + unfold startsInside, scrollMark, moveY. simpl. rewrite E1. simpl.
      change (add32 0 (-1)) with (-1). lia.
  - intros m1 m2 Hh Hm E1 E2. rewrite Hshape, Hm. cbn [map].
    rewrite filter_cons, decide_False, filter_cons, decide_False, filter_nil.
    + done.
    + unfold startsInside, scrollMark, moveY. simpl. rewrite E2. simpl.
      change (add32 2 (-1)) with 1. lia.
    + unfold startsInside, scrollMark, moveY. simpl. rewrite E1. simpl.
      change (add32 0 (-1)) with (-1). lia.
Qed.

(** C9: on an empty marks list [SetCurrentPromptEnd], [SetCurrentCommandEnd]
    and [SetCurrentOutputEnd] return without touching the buffer: the list
    stays empty and every other field is as before. *)
Theorem SetCurrent_on_no_marks (tb : TextBuffer) (pos : point) (cat : Z) :
  _marks tb = [] ->
  SetCurrentPromptEnd pos tb = tb /\
  SetCurrentCommandEnd pos tb = tb /\
  SetCurrentOutputEnd pos cat tb = tb /\
  _marks (SetCurrentPromptEnd pos tb) = [] /\
  _marks (SetCurrentCommandEnd pos tb) = [] /\
  _marks (SetCurrentOutputEnd pos cat tb) = [].
Proof.
  intros H. unfold SetCurrentPromptEnd, SetCurrentCommandEnd, SetCurrentOutputEnd.
  rewrite H. by rewrite H.
Qed.

(** ** Search: C8 *)

Lemma allWhitespace_spaces (needle : wstring) :
  allWhitespace needle = true <-> Forall (fun ch => ch = SPACE) needle.
Proof.
  induction needle as [|ch tl IH]; simpl; [by split; [constructor|]|].
  destruct (Z.eqb_spec ch SPACE) as [->|Hne]; simpl.
  - rewrite IH. split; [by constructor|by inversion 1].
  - split; [done|]. by inversion 1.
Qed.

(** C8, as the code has it: for every needle made of U+0020 space characters
    only (the empty needle is one), every case-sensitivity flag, every row
    range and every search engine, [SearchText] returns the empty list; the
    engine is not consulted. *)
Theorem SearchText_rejects_spaces (needle : wstring) (caseInsensitive : bool)
    (rowBeg rowEnd : Z) (tb : TextBuffer) :
  Forall (fun ch => ch = SPACE) needle ->
  SearchText needle caseInsensitive rowBeg rowEnd tb = [] /\
  SearchTextAll needle caseInsensitive tb = [].
Proof.
  intros H. apply allWhitespace_spaces in H.
  unfold SearchTextAll, SearchText. by rewrite H.
Qed.

(** ** Ring rotation and the hyperlink registry: C5, C6 and X28 *)

Lemma bind_Some {S A B} (m : M S A) (k : A -> M S B) s a s' :
  m s = Some (a, s') -> bind m k s = k a s'.
Proof. unfold bind. by intros ->. Qed.

Lemma slotOf_commits tb tb' j : commits tb tb' -> slotOf tb' j = slotOf tb j.
Proof.
  intros H. apply commits_fields in H as (_ & Eh & Ef & _).
  unfold slotOf. by rewrite Eh, Ef.
Qed.

(** Reading the logical row [j] of a well-formed buffer. *)
Lemma read_row tb (j : Z) :
  wf tb -> 0 <= j < _height tb ->
  exists tb',
    (r <- GetRowByOffset j ;; deref r) tb = Some (peekRow tb (slotOf tb j), tb') /\
    commits tb tb' /\ wf tb'.
Proof.
  intros Hwf Hj.
  assert (Hsum : in_int32 (_firstRow tb + j)).
  { destruct Hwf. unfold in_int32, INT32_MIN, INT32_MAX, UINT16_MAX in *. lia. }
  destruct (getRow_ok tb j Hwf Hsum) as (tb' & E & Hc & Hwf' & Hs).
  exists tb'. split; [|done].
  unfold GetRowByOffset. rewrite (bind_Some _ _ _ _ _ E).
  apply deref_committed; [done|done|]. destruct Hwf'. lia.
Qed.

Lemma eraseRefs_spec (l : list Z) : forall (refs : gset Z) (id : Z),
  id ∈ eraseRefs refs l <-> id ∈ refs /\ id ∉ l.
Proof.
  unfold eraseRefs. induction l as [|a l IH]; intros refs id; simpl.
  - split; [intros H; split; [done|apply not_elem_of_nil]|by intros [H _]].
  - rewrite IH, not_elem_of_cons. case_decide as Ha.
    + rewrite elem_of_difference, elem_of_singleton.
      split; [by intros [[? ?] ?]|by intros [? [? ?]]].
    + split; [|by intros [? [? ?]]]. intros [Hid Hl]. repeat split; try done.
      by intros ->.
Qed.

Lemma pruneScan_spec (n : nat) : forall (i : Z) (refs : gset Z) (tb : TextBuffer),
  wf tb -> 0 <= i -> i + Z.of_nat n <= _height tb ->
  exists refs' tb',
    pruneScan n i refs tb = Some (refs', tb') /\ commits tb tb' /\ wf tb' /\
    forall id, id ∈ refs' <->
      id ∈ refs /\ forall j, i <= j < i + Z.of_nat n ->
                             id ∉ GetHyperlinks (peekRow tb (slotOf tb j)).
Proof.
  induction n as [|n IH]; intros i refs tb Hwf Hi Hn.
  { exists refs, tb. split; [done|]. split; [apply commits_refl|]. split; [done|].
    intros id. split; [intros H; split; [done|lia]|by intros [H _]]. }
  destruct (read_row tb i Hwf ltac:(lia)) as (tb1 & E & Hc & Hwf1).
  cbn [pruneScan].
  unfold bind in E |- *.
  destruct (GetRowByOffset i tb) as [[r tbr]|] eqn:Er; [|done].
  rewrite E.
  set (refs1 := eraseRefs refs (GetHyperlinks (peekRow tb (slotOf tb i)))).
  assert (Hrefs1 : forall id, id ∈ refs1 <->
            id ∈ refs /\ id ∉ GetHyperlinks (peekRow tb (slotOf tb i)))
    by (intros id; apply eraseRefs_spec).
  case_decide as Hempty.
  - exists refs1, tb1. split; [done|]. split; [done|]. split; [done|].
    intros id. rewrite Hempty. split; [set_solver|].
    intros [Hid Hj]. rewrite <- Hempty. apply Hrefs1. split; [done|]. apply Hj. lia.
  - destruct (IH (i + 1) refs1 tb1 Hwf1 ltac:(lia)) as (refs' & tb' & E' & Hc' & Hwf' & Hspec).
    { apply commits_fields in Hc as (_ & -> & _). lia. }
    exists refs', tb'. split; [done|].
    split; [by eapply commits_trans|]. split; [done|].
    intros id. rewrite Hspec, Hrefs1. split.
    + intros [[Hid H0] Hj]. split; [done|]. intros j Hjr.
      destruct (Z.eq_dec j i) as [->|Hne]; [done|].
      specialize (Hj j ltac:(lia)).
      by rewrite (slotOf_commits _ _ _ Hc), (cm_peek _ _ Hc) in Hj.
    + intros [Hid Hj]. split; [split; [done|apply Hj; lia]|].
      intros j Hjr.
      rewrite (slotOf_commits _ _ _ Hc), (cm_peek _ _ Hc). apply Hj. lia.
Qed.

Lemma eraseFirstWithId_count (id' id : Z) (m : list (wstring * Z)) :
  countId id (eraseFirstWithId id' m)
  = if decide (id = id') then pred (countId id m) else countId id m.
Proof.
  unfold countId. induction m as [|[k v] m IH]; [by case_decide|].
  cbn [eraseFirstWithId snd]. rewrite filter_cons. cbn [snd].
  destruct (Z.eqb_spec v id') as [->|Hv].
  - destruct (decide (id' = id)) as [<-|E].
    + by rewrite decide_True.
    + by rewrite decide_False by congruence.
  - rewrite filter_cons. cbn [snd].
    destruct (decide (v = id)) as [->|E]; cbn [length]; rewrite IH.
    + by destruct (decide (id = id')).
    + done.
Qed.

Lemma with_hyperlinks_id tb :
  with_hyperlinks (_hyperlinkMap tb) (_hyperlinkCustomIdMap tb) (_currentHyperlinkId tb) tb = tb.
Proof. by destruct tb. Qed.

Lemma removeAll_spec (l : list Z) : forall tb,
  removeAll l tb
  = with_hyperlinks (foldl (fun m id => delete id m) (_hyperlinkMap tb) l)
                    (foldl (fun c id => eraseFirstWithId id c) (_hyperlinkCustomIdMap tb) l)
                    (_currentHyperlinkId tb) tb.
Proof.
  unfold removeAll. induction l as [|a l IH]; intros tb; simpl.
  - by rewrite with_hyperlinks_id.
  - by rewrite IH.
Qed.

Lemma fold_delete_lookup (l : list Z) : forall (m : gmap Z wstring) (id : Z),
  foldl (fun m id => delete id m) m l !! id
  = if decide (id ∈ l) then None else m !! id.
Proof.
  induction l as [|a l IH]; intros m id; cbn [foldl].
  - destruct (decide (id ∈ [])) as [H%elem_of_nil|]; done.
  - rewrite IH.
    destruct (decide (id ∈ l)) as [Hl|Hl], (decide (id ∈ a :: l)) as [Hal|Hal];
      try done.
    + exfalso. apply Hal. by right.
    + apply elem_of_cons in Hal as [->|?]; [|done]. apply lookup_delete_eq.
    + apply lookup_delete_ne. intros ->. apply Hal. left.
Qed.

Lemma fold_erase_count (l : list Z) : forall (c : list (wstring * Z)) (id : Z),
  NoDup l ->
  countId id (foldl (fun c id => eraseFirstWithId id c) c l)
  = if decide (id ∈ l) then pred (countId id c) else countId id c.
Proof.
  induction l as [|a l IH]; intros c id Hnd; cbn [foldl].
  - destruct (decide (id ∈ [])) as [H%elem_of_nil|]; done.
  - apply NoDup_cons in Hnd as [Ha Hnd]. rewrite IH by done.
    rewrite eraseFirstWithId_count.
    destruct (decide (id ∈ l)) as [Hl|Hl], (decide (id ∈ a :: l)) as [Hal|Hal],
             (decide (id = a)) as [->|Hne]; try done;
      try (exfalso; apply Hal; by right);
      try (exfalso; apply Hal; by left);
      try (apply elem_of_cons in Hal as [?|?]; done).
Qed.

Lemma removeAll_wf l tb : wf tb -> wf (removeAll l tb).
Proof. rewrite removeAll_spec. by intros []. Qed.

(** [_PruneHyperlinks] commits the rows it reads and then removes from the
    registry the ids found in the recycled row and in no other row. *)
Lemma PruneHyperlinks_spec tb :
  wf tb ->
  exists tbc l,
    _PruneHyperlinks tb = Some (tt, removeAll l tbc) /\
    commits tb tbc /\ wf tbc /\ NoDup l /\
    forall id, id ∈ l <-> onlyInRecycledRow tb id.
Proof.
  intros Hwf. pose proof Hwf as [Hh _ _ _ _].
  destruct (read_row tb 0 Hwf ltac:(lia)) as (tb1 & E & Hc & Hwf1).
  unfold _PruneHyperlinks. unfold bind in E |- *.
  destruct (GetRowByOffset 0 tb) as [[r tbr]|] eqn:Er; [|done].
  rewrite E.
  destruct (GetHyperlinks (peekRow tb (slotOf tb 0))) as [|h hs] eqn:El.
  - exists tb1, []. split; [done|]. split; [done|]. split; [done|].
    split; [constructor|]. intros id. unfold onlyInRecycledRow, referencedBy.
    rewrite El. split; [by intros ?%elem_of_nil|by intros [?%elem_of_nil _]].
  - unfold gets. 
    destruct (pruneScan_spec (Z.to_nat (TotalRowCount tb1 - 1)) 1
                (list_to_set (h :: hs)) tb1 Hwf1 ltac:(lia))
      as (refs' & tbc & Es & Hc' & Hwfc & Hspec).
    { unfold TotalRowCount. destruct Hwf1. lia. }
    rewrite Es. unfold modify.
    exists tbc, (elements refs'). split; [done|].
    split; [by eapply commits_trans|]. split; [done|].
    split; [apply NoDup_elements|].
    intros id. rewrite elem_of_elements, Hspec, elem_of_list_to_set.
    unfold onlyInRecycledRow, referencedBy. rewrite El.
    apply commits_fields in Hc as Hf. destruct Hf as (_ & Eh & _).
    unfold TotalRowCount. rewrite Eh.
    split; intros [Hid Hj]; (split; [done|]); intros j Hjr.
    + specialize (Hj j ltac:(lia)).
      by rewrite (slotOf_commits _ _ _ Hc), (cm_peek _ _ Hc) in Hj.
    + rewrite (slotOf_commits _ _ _ Hc), (cm_peek _ _ Hc). apply Hj. lia.
Qed.

Lemma onlyInRecycledRow_commits tb tb' id :
  commits tb tb' -> onlyInRecycledRow tb' id <-> onlyInRecycledRow tb id.
Proof.
  intros Hc. unfold onlyInRecycledRow, referencedBy.
  pose proof (commits_fields _ _ Hc) as (_ & Eh & _). rewrite Eh.
  rewrite (slotOf_commits _ _ _ Hc), (cm_peek _ _ Hc).
  split; intros [H0 Hj]; (split; [done|]); intros j Hjr; specialize (Hj j Hjr).
  - by rewrite (slotOf_commits _ _ _ Hc), (cm_peek _ _ Hc) in Hj.
  - by rewrite (slotOf_commits _ _ _ Hc), (cm_peek _ _ Hc).
Qed.

(** The four steps of one ring rotation and the state each of them leaves. *)
Lemma rotation_steps tb fill :
  wf tb ->
  let tb1 := if _isActiveBuffer tb
             then with_renderer (_renderer tb ++ [TriggerFlush true]) tb else tb in
  exists tbc l tbr,
    let tb2 := removeAll l tbc in
    let tb3 := with_buffer (alter (ROW_Reset fill) (slotOf tb 0) (_buffer tbr)) tbr in
    let tb4 := with_firstRow ((_firstRow tb + 1) mod _height tb) tb3 in
    rendererFlush tb = Some (tt, tb1) /\
    commits tb1 tbc /\ wf tbc /\ NoDup l /\
    (forall id, id ∈ l <-> onlyInRecycledRow tb id) /\
    _PruneHyperlinks tb1 = Some (tt, tb2) /\
    commits (with_lastMutationId (wrap64u (_lastMutationId tb2 + 1)) tb2) tbr /\
    wf tbr /\ (slotOf tb 0 < _commitWatermark tbr)%nat /\
    resetRecycledRow fill tb2 = Some (tt, tb3) /\
    advanceFirstRow tb3 = Some (tt, tb4) /\
    IncrementCircularBuffer fill tb = Some (tt, tb4).
Proof.
  intros Hwf tb1.
  assert (Hwf1 : wf tb1) by (subst tb1; destruct Hwf, (_isActiveBuffer tb); by split).
  assert (E1 : rendererFlush tb = Some (tt, tb1)).
  { unfold rendererFlush, bind, get. subst tb1. by destruct (_isActiveBuffer tb). }
  assert (Hsame : forall id, onlyInRecycledRow tb1 id <-> onlyInRecycledRow tb id).
  { subst tb1. by destruct (_isActiveBuffer tb). }
  destruct (PruneHyperlinks_spec tb1 Hwf1) as (tbc & l & E2 & Hc & Hwfc & Hnd & Hl).
  set (tb2 := removeAll l tbc) in *.
  assert (Hwf2 : wf tb2) by (by apply removeAll_wf).
  set (tb2m := with_lastMutationId (wrap64u (_lastMutationId tb2 + 1)) tb2).
  assert (Hwf2m : wf tb2m) by (destruct Hwf2; by split).
  assert (Hsum : in_int32 (_firstRow tb2m + 0)).
  { destruct Hwf2m. unfold in_int32, INT32_MIN, INT32_MAX, UINT16_MAX in *. lia. }
  destruct (getRow_ok tb2m 0 Hwf2m Hsum) as (tbr & E3 & Hcr & Hwfr & Hs).
  assert (Eslot : slotOf tb2m 0 = slotOf tb 0).
  { transitivity (slotOf tbc 0).
    - subst tb2m tb2. rewrite removeAll_spec. done.
    - rewrite (slotOf_commits _ _ _ Hc). subst tb1. by destruct (_isActiveBuffer tb). }
  rewrite Eslot in E3, Hs.
  exists tbc, l, tbr. cbv zeta. fold tb2.
  assert (E3' : resetRecycledRow fill tb2
    = Some (tt, with_buffer (alter (ROW_Reset fill) (slotOf tb 0) (_buffer tbr)) tbr)).
  { unfold resetRecycledRow, GetMutableRowByOffset, bind, modify. fold tb2m.
    by rewrite E3. }
  assert (E4 : advanceFirstRow
      (with_buffer (alter (ROW_Reset fill) (slotOf tb 0) (_buffer tbr)) tbr)
    = Some (tt, with_firstRow ((_firstRow tb + 1) mod _height tb)
        (with_buffer (alter (ROW_Reset fill) (slotOf tb 0) (_buffer tbr)) tbr))).
  { unfold advanceFirstRow, modify. do 2 f_equal. cbn.
    pose proof (commits_fields _ _ Hcr) as (_ & Ehr & Efr & _).
    pose proof (commits_fields _ _ Hc) as (_ & Ehc & Efc & _).
    assert (Eh : _height tbr = _height tb).
    { rewrite Ehr. subst tb2m tb2. rewrite removeAll_spec. cbn. rewrite Ehc.
      subst tb1. by destruct (_isActiveBuffer tb). }
    assert (Ef : _firstRow tbr = _firstRow tb).
    { rewrite Efr. subst tb2m tb2. rewrite removeAll_spec. cbn. rewrite Efc.
      subst tb1. by destruct (_isActiveBuffer tb). }
    destruct Hwf as [Hh _ Hf _ _].
    unfold Height, GetSize, Viewport_FromDimensions. cbn. rewrite Eh, Ef.
    unfold add32. rewrite wrap32_id
      by (unfold in_int32, INT32_MIN, INT32_MAX, UINT16_MAX in *; lia).
    f_equal.
    destruct (Z.leb_spec (_height tb - 1 - 0 + 1) (_firstRow tb + 1)).
    - replace (_firstRow tb + 1) with (_height tb) by lia.
      by rewrite Z_mod_same_full.
    - by rewrite Z.mod_small by lia. }
  split_and!; try done.
  - intros id. by rewrite Hl, Hsame.
  - unfold IncrementCircularBuffer.
    rewrite (bind_Some _ _ _ _ _ E1), (bind_Some _ _ _ _ _ E2), (bind_Some _ _ _ _ _ E3').
    exact E4.
Qed.

Lemma lookup_committed tb s :
  (s < _commitWatermark tb)%nat -> (s < length (_buffer tb))%nat ->
  _buffer tb !! s = Some (peekRow tb s).
Proof.
  intros Hs Hl. unfold peekRow.
  destruct (Nat.ltb_spec s (_commitWatermark tb)); [|lia].
  destruct (lookup_lt_is_Some_2 (_buffer tb) s Hl) as [r ->]. done.
Qed.

Lemma countId_zero (id : Z) (m : list (wstring * Z)) :
  countId id m = 0%nat -> forall customId, (customId, id) ∉ m.
Proof.
  unfold countId. intros H customId Hin.
  assert (Hf : (customId, id) ∈ filter (fun p : wstring * Z => snd p = id) m)
    by (by apply list_elem_of_filter).
  destruct (filter _ m); [by apply elem_of_nil in Hf|done].
Qed.

(** The registry before and after one rotation. *)
Lemma rotation_registry tb fill :
  wf tb ->
  exists tb' l,
    IncrementCircularBuffer fill tb = Some (tt, tb') /\
    NoDup l /\ (forall id, id ∈ l <-> onlyInRecycledRow tb id) /\
    (forall id, _hyperlinkMap tb' !! id
                = if decide (id ∈ l) then None else _hyperlinkMap tb !! id) /\
    (forall id, countId id (_hyperlinkCustomIdMap tb')
                = if decide (id ∈ l) then pred (countId id (_hyperlinkCustomIdMap tb))
                  else countId id (_hyperlinkCustomIdMap tb)).
Proof.
  intros Hwf.
  destruct (rotation_steps tb fill Hwf)
    as (tbc & l & tbr & E1 & Hc & Hwfc & Hnd & Hl & E2 & Hcr & Hwfr & Hs & E3 & E4 & E).
  eexists _, l. split; [exact E|]. split; [done|]. split; [done|].
  pose proof (commits_registry _ _ Hcr) as (Em & Ec & _).
  pose proof (commits_registry _ _ Hc) as (Em1 & Ec1 & _).
  cbn. rewrite Em, Ec. rewrite removeAll_spec. cbn. rewrite Em1, Ec1.
  replace (_hyperlinkMap (if _isActiveBuffer tb
             then with_renderer (_renderer tb ++ [TriggerFlush true]) tb else tb))
    with (_hyperlinkMap tb) by (by destruct (_isActiveBuffer tb)).
  replace (_hyperlinkCustomIdMap (if _isActiveBuffer tb
             then with_renderer (_renderer tb ++ [TriggerFlush true]) tb else tb))
    with (_hyperlinkCustomIdMap tb) by (by destruct (_isActiveBuffer tb)).
  split; intros id; [apply fold_delete_lookup|by apply fold_erase_count].
Qed.

Lemma eraseFirstWithId_pairs (id' id : Z) (m : list (wstring * Z)) :
  pairsWithId id (eraseFirstWithId id' m)
  = if decide (id = id') then drop 1 (pairsWithId id m) else pairsWithId id m.
Proof.
  unfold pairsWithId. induction m as [|[k v] m IH]; [by case_decide|].
  cbn [eraseFirstWithId snd]. rewrite filter_cons. cbn [snd].
  destruct (Z.eqb_spec v id') as [->|Hv].
  - destruct (decide (id' = id)) as [<-|E].
    + rewrite decide_True by done. by rewrite skipn_cons, drop_0.
    + by rewrite decide_False by congruence.
  - rewrite filter_cons. cbn [snd].
    destruct (decide (v = id)) as [->|E]; rewrite IH.
    + destruct (decide (id = id')); [congruence|done].
    + done.
Qed.

Lemma fold_erase_pairs (l : list Z) : forall (c : list (wstring * Z)) (id : Z),
  NoDup l ->
  pairsWithId id (foldl (fun c id => eraseFirstWithId id c) c l)
  = if decide (id ∈ l) then drop 1 (pairsWithId id c) else pairsWithId id c.
Proof.
  induction l as [|a l IH]; intros c id Hnd; cbn [foldl].
  - destruct (decide (id ∈ [])) as [H%elem_of_nil|]; done.
  - apply NoDup_cons in Hnd as [Ha Hnd]. rewrite IH by done.
    rewrite eraseFirstWithId_pairs.
    destruct (decide (id ∈ l)) as [Hl|Hl], (decide (id ∈ a :: l)) as [Hal|Hal],
             (decide (id = a)) as [->|Hne]; try done;
      try (exfalso; apply Hal; by right);
      try (exfalso; apply Hal; by left);
      try (apply elem_of_cons in Hal as [?|?]; done).
Qed.

Lemma eraseFirstWithId_sublist (id : Z) (m : list (wstring * Z)) :
  sublist (eraseFirstWithId id m) m.
Proof.
  induction m as [|[k v] m IH]; [done|]. cbn [eraseFirstWithId snd].
  destruct (v =? id); [by apply sublist_cons|by apply sublist_skip].
Qed.

Lemma fold_erase_sublist (l : list Z) : forall (c : list (wstring * Z)),
  sublist (foldl (fun c id => eraseFirstWithId id c) c l) c.
Proof.
  induction l as [|a l IH]; intros c; cbn [foldl]; [done|].
  etrans; [apply IH|apply eraseFirstWithId_sublist].
Qed.

(** C5: [NewlineCursor] sets the cursor column to 0 and advances the cursor
    row by one; when that passes the last row, the row is clamped to the last
    row and the ring is rotated by [IncrementCircularBuffer], which does, in
    this order: the renderer flush (only for the active buffer), the pruning
    of the hyperlink ids referenced by the recycled row only, the reset of
    that row to the fill attributes, and the advance of [firstRow] by one
    modulo the height.  The pruning takes such an id out of the id-to-URI
    map and takes the first custom id that maps to it out of the custom-id
    map; it leaves the entries of every other id, and the order of the
    custom-id map, as they are, and the later steps touch neither map. *)
Theorem NewlineCursor_rotates_ring (tb : TextBuffer) (fill : TextAttribute) :
  wf tb -> in_int32 (y (GetPosition (_cursor tb)) + 1) ->
  let cy := y (GetPosition (_cursor tb)) in
  let home := SetXPosition 0 (_cursor tb) in
  (cy + 1 <= _height tb - 1 ->
     NewlineCursor tb = Some (tt, with_cursor (SetYPosition (cy + 1) home) tb)) /\
  (_height tb - 1 < cy + 1 ->
     NewlineCursor tb
     = IncrementCircularBuffer defaultTextAttribute
         (with_cursor (SetYPosition (_height tb - 1) home) tb)) /\
  exists tb1 tb2 tb3 tb4,
    rendererFlush tb = Some (tt, tb1) /\
    _PruneHyperlinks tb1 = Some (tt, tb2) /\
    resetRecycledRow fill tb2 = Some (tt, tb3) /\
    advanceFirstRow tb3 = Some (tt, tb4) /\
    IncrementCircularBuffer fill tb = Some (tt, tb4) /\
    _renderer tb1
      = _renderer tb ++ (if _isActiveBuffer tb then [TriggerFlush true] else []) /\
    (forall id, onlyInRecycledRow tb id -> _hyperlinkMap tb2 !! id = None) /\
    (forall id, ~ onlyInRecycledRow tb id ->
                _hyperlinkMap tb2 !! id = _hyperlinkMap tb !! id) /\
    _buffer tb3 !! slotOf tb 0 = Some (ROW_Reset fill (peekRow tb (slotOf tb 0))) /\
    _firstRow tb3 = _firstRow tb /\
    _firstRow tb4 = (_firstRow tb + 1) mod _height tb /\
    _renderer tb4 = _renderer tb1 /\
    _hyperlinkMap tb4 = _hyperlinkMap tb2 /\
    _buffer tb4 = _buffer tb3 /\
    _cursor tb4 = _cursor tb /\
    (forall id, onlyInRecycledRow tb id ->
                pairsWithId id (_hyperlinkCustomIdMap tb2)
                = drop 1 (pairsWithId id (_hyperlinkCustomIdMap tb))) /\
    (forall id, ~ onlyInRecycledRow tb id ->
                pairsWithId id (_hyperlinkCustomIdMap tb2)
                = pairsWithId id (_hyperlinkCustomIdMap tb)) /\
    sublist (_hyperlinkCustomIdMap tb2) (_hyperlinkCustomIdMap tb) /\
    _hyperlinkCustomIdMap tb4 = _hyperlinkCustomIdMap tb2.
Proof.
  intros Hwf Hy cy home. subst cy home. unfold GetPosition in *.
  assert (Ey : add32 (y (cPosition (_cursor tb))) 1 = y (cPosition (_cursor tb)) + 1)
    by (by apply add32_small).
  split; [|split].
  - intros Hin. unfold NewlineCursor, bind, get, onCursor, modify, IncrementYPosition.
    cbn. rewrite Ey.
    destruct (Z.ltb_spec (_height tb - 1) (y (cPosition (_cursor tb)) + 1)); [lia|]. done.
  - intros Hout. unfold NewlineCursor, bind, get, onCursor, modify, IncrementYPosition.
    cbn. rewrite Ey.
    destruct (Z.ltb_spec (_height tb - 1) (y (cPosition (_cursor tb)) + 1)); [|lia]. done.
  - destruct (rotation_steps tb fill Hwf)
      as (tbc & l & tbr & E1 & Hc & Hwfc & Hnd & Hl & E2 & Hcr & Hwfr & Hs & E3 & E4 & E).
    set (tb1 := if _isActiveBuffer tb
                then with_renderer (_renderer tb ++ [TriggerFlush true]) tb else tb) in *.
    pose proof (commits_registry _ _ Hcr) as (Em & Ec & _ & Er & Ecur & _).
    pose proof (commits_registry _ _ Hc) as (Em1 & Ec1 & _ & Er1 & Ecur1 & _).
    pose proof (commits_fields _ _ Hcr) as (_ & _ & Ef & _).
    pose proof (commits_fields _ _ Hc) as (_ & _ & Ef1 & _).
    assert (Etb1 : _hyperlinkMap tb1 = _hyperlinkMap tb /\ _firstRow tb1 = _firstRow tb /\
                   _cursor tb1 = _cursor tb /\ forall s, peekRow tb1 s = peekRow tb s)
      by (subst tb1; by destruct (_isActiveBuffer tb)).
    destruct Etb1 as (Em0 & Ef0 & Ecur0 & Ep0).
    eexists _, _, _, _.
    split; [exact E1|]. split; [exact E2|]. split; [exact E3|].
    split; [exact E4|]. split; [exact E|].
    split; [subst tb1; destruct (_isActiveBuffer tb); [done|by rewrite app_nil_r]|].
    assert (Hmap : forall id, _hyperlinkMap (removeAll l tbc) !! id
                   = if decide (id ∈ l) then None else _hyperlinkMap tb !! id).
    { intros id. rewrite removeAll_spec. cbn. rewrite Em1, Em0. apply fold_delete_lookup. }
    split; [intros id Hid; rewrite Hmap; by rewrite decide_True by (by apply Hl)|].
    split; [intros id Hid; rewrite Hmap; by rewrite decide_False by (by rewrite Hl)|].
    split.
    { assert (Hpeek : peekRow tbr (slotOf tb 0) = peekRow tb (slotOf tb 0)).
      { rewrite (cm_peek _ _ Hcr).
        transitivity (peekRow tbc (slotOf tb 0)); [by rewrite removeAll_spec|].
        by rewrite (cm_peek _ _ Hc). }
      cbn. rewrite list_lookup_alter.
      rewrite lookup_committed by (destruct Hwfr; lia).
      rewrite decide_True by done. by rewrite Hpeek. }
    split.
    { cbn. rewrite Ef. rewrite removeAll_spec. cbn. by rewrite Ef1. }
    split; [done|].
    split.
    { cbn. rewrite Er. rewrite removeAll_spec. cbn. done. }
    split.
    { cbn. rewrite Em. done. }
    split; [done|].
    split.
    { cbn. rewrite Ecur. rewrite removeAll_spec. cbn. by rewrite Ecur1. }
    assert (Ec0 : _hyperlinkCustomIdMap tb1 = _hyperlinkCustomIdMap tb)
      by (subst tb1; by destruct (_isActiveBuffer tb)).
    assert (Hcmap : _hyperlinkCustomIdMap (removeAll l tbc)
                    = foldl (fun c id => eraseFirstWithId id c)
                            (_hyperlinkCustomIdMap tb) l).
    { rewrite removeAll_spec. cbn. by rewrite Ec1, Ec0. }
    split.
    { intros id Hid. rewrite Hcmap, fold_erase_pairs by done.
      by rewrite decide_True by (by apply Hl). }
    split.
    { intros id Hid. rewrite Hcmap, fold_erase_pairs by done.
      by rewrite decide_False by (by rewrite Hl). }
    split; [rewrite Hcmap; apply fold_erase_sublist|].
    cbn. by rewrite Ec.
Qed.

(** X28: what one ring rotation does to the hyperlink registry.  After
    [IncrementCircularBuffer], every hyperlink id referenced by a row other
    than the recycled one keeps its entry in the id-to-URI map; every id
    referenced by the recycled row and by no other row is erased from the
    id-to-URI map, and the number of custom ids that map to it goes down by
    one.  When at most one custom id maps to it, no custom id maps to it
    afterwards. *)
Theorem IncrementCircularBuffer_prunes_registry (tb : TextBuffer) (fill : TextAttribute) :
  wf tb ->
  exists tb',
    IncrementCircularBuffer fill tb = Some (tt, tb') /\
    (forall id j, 1 <= j < _height tb -> referencedBy tb j id ->
        _hyperlinkMap tb' !! id = _hyperlinkMap tb !! id) /\
    (forall id, onlyInRecycledRow tb id ->
        _hyperlinkMap tb' !! id = None /\
        countId id (_hyperlinkCustomIdMap tb')
          = pred (countId id (_hyperlinkCustomIdMap tb)) /\
        ((countId id (_hyperlinkCustomIdMap tb) <= 1)%nat ->
           forall customId, (customId, id) ∉ _hyperlinkCustomIdMap tb')).
Proof.
  intros Hwf.
  destruct (rotation_registry tb fill Hwf) as (tb' & l & E & Hnd & Hl & Hm & Hc).
  exists tb'. split; [exact E|]. split.
  - intros id j Hj Href. rewrite Hm. rewrite decide_False; [done|].
    rewrite Hl. intros [_ Hno]. by apply (Hno j).
  - intros id Hid. apply Hl in Hid.
    split; [by rewrite Hm, decide_True|].
    assert (Hcount : countId id (_hyperlinkCustomIdMap tb')
                     = pred (countId id (_hyperlinkCustomIdMap tb)))
      by (by rewrite Hc, decide_True).
    split; [done|]. intros Hone. apply countId_zero. lia.
Qed.


(** ** The current prompt among the marks *)

Lemma onBack_snoc (f : ScrollMark -> ScrollMark) (l : list ScrollMark) (m : ScrollMark) :
  onBack f (l ++ [m]) = l ++ [f m].
Proof.
  unfold onBack. rewrite length_app. simpl.
  replace (length l + 1 - 1)%nat with (length l + 0)%nat by lia.
  by rewrite alter_app_r.
Qed.

Lemma onBack_cons (f : ScrollMark -> ScrollMark) (a b : ScrollMark) (l : list ScrollMark) :
  onBack f (a :: b :: l) = a :: onBack f (b :: l).
Proof. unfold onBack. simpl. by rewrite Nat.sub_0_r. Qed.

(** X1: the mark [StartPromptMark] appends is the current prompt: of the
    three setters that follow, each changes that mark only, and of it only its
    own fields ([end]; [commandEnd]; [outputEnd] and [category]).  The marks
    that were there before, and everything else of the buffer, stay as they
    were. *)
Theorem StartPromptMark_is_current_prompt (tb : TextBuffer) (m : ScrollMark)
    (pos : point) (cat : Z) :
  SetCurrentPromptEnd pos (StartPromptMark m tb)
  = with_marks (_marks tb ++ [mkMark (mark_start m) pos (commandEnd m) (outputEnd m)
                                     (category m)]) tb /\
  SetCurrentCommandEnd pos (StartPromptMark m tb)
  = with_marks (_marks tb ++ [mkMark (mark_start m) (mark_end m) (Some pos) (outputEnd m)
                                     (category m)]) tb /\
  SetCurrentOutputEnd pos cat (StartPromptMark m tb)
  = with_marks (_marks tb ++ [mkMark (mark_start m) (mark_end m) (commandEnd m) (Some pos)
                                     cat]) tb.
Proof.
  unfold SetCurrentPromptEnd, SetCurrentCommandEnd, SetCurrentOutputEnd, StartPromptMark.
  cbn [_marks with_marks].
  destruct (_marks tb ++ [m]) as [|a l] eqn:E.
  { by destruct (_marks tb). }
  rewrite <- E, !onBack_snoc. done.
Qed.

(** X2: a mark that [AddMark] puts in front is not the current prompt as
    long as the list holds another mark: the setters commute with [AddMark].
    When the list was empty the mark of [AddMark] is the last one as well, and
    each of the three setters writes into it. *)
Theorem AddMark_and_current_prompt (tb : TextBuffer) (m : ScrollMark)
    (pos : point) (cat : Z) :
  (_marks tb <> [] ->
     SetCurrentPromptEnd pos (AddMark m tb) = AddMark m (SetCurrentPromptEnd pos tb) /\
     SetCurrentCommandEnd pos (AddMark m tb) = AddMark m (SetCurrentCommandEnd pos tb) /\
     SetCurrentOutputEnd pos cat (AddMark m tb)
     = AddMark m (SetCurrentOutputEnd pos cat tb)) /\
  (_marks tb = [] ->
     _marks (SetCurrentPromptEnd pos (AddMark m tb))
     = [mkMark (mark_start m) pos (commandEnd m) (outputEnd m) (category m)] /\
     _marks (SetCurrentOutputEnd pos cat (AddMark m tb))
     = [mkMark (mark_start m) (mark_end m) (commandEnd m) (Some pos) cat] /\
     _marks (SetCurrentCommandEnd pos (AddMark m tb))
     = [mkMark (mark_start m) (mark_end m) (Some pos) (outputEnd m) (category m)]).
Proof.
  unfold SetCurrentPromptEnd, SetCurrentCommandEnd, SetCurrentOutputEnd, AddMark.
  cbn [_marks with_marks]. split.
  - intros Hne. destruct (_marks tb) as [|b l]; [done|].
    rewrite !onBack_cons. done.
  - intros ->. done.
Qed.

(** ** Scrolling marks twice *)

Lemma add32_add32 (a b c : Z) : add32 (add32 a b) c = add32 a (add32 b c).
Proof.
  unfold add32, wrap32. f_equal.
  replace ((a + b + 2 ^ 31) mod 2 ^ 32 - 2 ^ 31 + c + 2 ^ 31)
    with ((a + b + 2 ^ 31) mod 2 ^ 32 + c) by lia.
  replace (a + ((b + c + 2 ^ 31) mod 2 ^ 32 - 2 ^ 31) + 2 ^ 31)
    with (a + (b + c + 2 ^ 31) mod 2 ^ 32) by lia.
  rewrite Zplus_mod_idemp_l, Zplus_mod_idemp_r. f_equal. lia.
Qed.

Lemma scrollMark_scrollMark (a b : Z) (m : ScrollMark) :
  scrollMark b (scrollMark a m) = scrollMark (add32 a b) m.
Proof.
  unfold scrollMark, moveY. simpl.
  rewrite !add32_add32.
  destruct (commandEnd m), (outputEnd m); simpl; by rewrite ?add32_add32.
Qed.

Lemma filter_map_comm {A B} (f : A -> B) (P : B -> Prop) `{!forall b, Decision (P b)}
    (l : list A) :
  filter P (map f l) = map f (filter (fun a => P (f a)) l).
Proof.
  induction l as [|a l IH]; [done|]. simpl.
  rewrite !filter_cons. destruct (decide (P (f a))); simpl; by rewrite IH.
Qed.

Lemma trimMarks_filter (tb : TextBuffer) :
  _trimMarksOutsideBuffer tb
  = with_marks (filter (startsInside (_height tb)) (_marks tb)) tb.
Proof.
  unfold _trimMarksOutsideBuffer. f_equal.
  apply erase_if_filter. intros m. unfold startsInside.
  destruct (Z.ltb_spec (y (mark_start m)) 0), (Z.leb_spec (_height tb) (y (mark_start m)));
    simpl; split; intros; (done || lia).
Qed.

(** X3: two scrolls of the marks are one scroll by the 32-bit sum of the two
    distances, but for the marks that the first scroll moved out of the
    buffer: those are gone, also when the second scroll would have brought
    them back.  The mark that stays is the one whose start row is a row of
    the buffer after the first scroll and after both. *)
Theorem ScrollMarks_twice (tb : TextBuffer) (a b : Z) :
  ScrollMarks b (ScrollMarks a tb)
  = with_marks
      (map (scrollMark (add32 a b))
         (filter (fun m => startsInside (_height tb) (scrollMark a m) /\
                           startsInside (_height tb) (scrollMark (add32 a b) m))
                 (_marks tb))) tb.
Proof.
  unfold ScrollMarks. rewrite !trimMarks_filter. cbn [_marks _height with_marks].
  unfold with_marks at 1. cbn [_width _height _firstRow _buffer _commitWatermark
    _initialAttributes _currentAttributes _lastMutationId _cursor _isActiveBuffer
    _hyperlinkMap _hyperlinkCustomIdMap _currentHyperlinkId _marks _renderer with_marks].
  unfold with_marks. f_equal.
  rewrite (filter_map_comm (scrollMark a)), map_map.
  rewrite (filter_map_comm (fun m => scrollMark b (scrollMark a m))).
  rewrite list_filter_filter.
  rewrite (map_ext _ (scrollMark (add32 a b))) by (intros; apply scrollMark_scrollMark).
  f_equal. apply list_filter_iff. intros m. rewrite scrollMark_scrollMark.
  split; intros [H1 H2]; by split.
Qed.

(** ** The hyperlink registry *)

Lemma customIdLookup_Forall (P : Z -> Prop) key (m : list (wstring * Z)) n :
  Forall (fun customIdPair => P (snd customIdPair)) m ->
  customIdLookup key m = Some n -> P n.
Proof.
  induction 1 as [|p m Hp _ IH]; simpl; [done|].
  destruct (decide (p.1 = key)); [|done]. by intros [= <-].
Qed.

Lemma customIdLookup_snoc key (m : list (wstring * Z)) n :
  customIdLookup key m = None -> customIdLookup key (m ++ [(key, n)]) = Some n.
Proof.
  induction m as [|p m IH]; simpl.
  - by rewrite decide_True.
  - destruct (decide (p.1 = key)); [done|]. done.
Qed.

(** X4: [GetHyperlinkId] never hands out the id 0 and never leaves the
    counter at 0: in a registry whose counter and custom ids are in 1..65535
    the call returns, its result is in 1..65535 and the registry is again
    such a registry; the id-to-URI map is not touched.  Without a custom id
    the result is the counter, and the counter moves on by one, from 65535 to
    1. *)
Theorem GetHyperlinkId_never_zero (uri id : wstring) (tb : TextBuffer) :
  registry_ok tb ->
  exists n tb',
    GetHyperlinkId uri id tb = Some (n, tb') /\
    validId n /\ registry_ok tb' /\
    _hyperlinkMap tb' = _hyperlinkMap tb /\
    (id = [] ->
       n = _currentHyperlinkId tb /\
       tb' = with_hyperlinks (_hyperlinkMap tb) (_hyperlinkCustomIdMap tb)
               (if _currentHyperlinkId tb =? 65535 then 1 else _currentHyperlinkId tb + 1)
               tb).
Proof.
  intros [Hc Hm]. unfold validId, UINT16_MAX in *.
  assert (Hnext : (_currentHyperlinkId tb + 1) mod 65536
                  = if _currentHyperlinkId tb =? 65535 then 0
                    else _currentHyperlinkId tb + 1).
  { destruct (Z.eqb_spec (_currentHyperlinkId tb) 65535) as [->|Hne]; [done|].
    apply Z.mod_small. lia. }
  unfold GetHyperlinkId, bind, get, modify, ret, nextHyperlinkId.
  destruct id as [|c id].
  - cbn [_currentHyperlinkId with_hyperlinks _hyperlinkMap _hyperlinkCustomIdMap].
    rewrite Hnext.
    destruct (Z.eqb_spec (_currentHyperlinkId tb) 65535) as [E|Hne]; simpl.
    + eexists _, _. split; [reflexivity|]. unfold registry_ok, validId, UINT16_MAX. simpl.
      split_and!; try done; lia.
    + destruct (Z.eqb_spec (_currentHyperlinkId tb + 1) 0) as [E0|_]; [lia|].
      eexists _, _. split; [reflexivity|]. unfold registry_ok, validId, UINT16_MAX. simpl.
      split_and!; try done; lia.
  - destruct (customIdLookup _ _) as [existing|] eqn:El.
    + pose proof (customIdLookup_Forall (fun n => 1 <= n <= 65535) _ _ _ Hm El) as He.
      destruct (Z.eqb_spec (_currentHyperlinkId tb) 0) as [E0|_]; [lia|].
      simpl in He.
      eexists _, _. split; [reflexivity|]. unfold registry_ok, validId, UINT16_MAX.
      split_and!; try done; lia.
    + cbn [_currentHyperlinkId with_hyperlinks _hyperlinkMap _hyperlinkCustomIdMap].
      rewrite Hnext.
      assert (Hm' : Forall (fun customIdPair : wstring * Z => 1 <= customIdPair.2 <= 65535)
                      (_hyperlinkCustomIdMap tb
                       ++ [((c :: id) ++ [37] ++ hashText uri, _currentHyperlinkId tb)])).
      { apply Forall_app. split; [done|]. by constructor. }
      destruct (Z.eqb_spec (_currentHyperlinkId tb) 65535) as [E|Hne]; simpl.
      * eexists _, _. split; [reflexivity|]. unfold registry_ok, validId, UINT16_MAX. simpl.
        split_and!; try done; lia.
      * destruct (Z.eqb_spec (_currentHyperlinkId tb + 1) 0) as [E0|_]; [lia|].
        eexists _, _. split; [reflexivity|]. unfold registry_ok, validId, UINT16_MAX. simpl.
        split_and!; try done; lia.
Qed.

Lemma GetHyperlinkId_existing (uri id : wstring) (c : wchar) (tb : TextBuffer) (n : Z) :
  customIdLookup ((c :: id) ++ [37] ++ hashText uri) (_hyperlinkCustomIdMap tb) = Some n ->
  _currentHyperlinkId tb <> 0 ->
  GetHyperlinkId uri (c :: id) tb = Some (n, tb).
Proof.
  intros El Hne. unfold GetHyperlinkId, bind, get, modify, ret.
  rewrite El. by destruct (Z.eqb_spec (_currentHyperlinkId tb) 0).
Qed.

(** X5: asking for the id of the same custom id and URI a second time gives
    the numeric id of the first call and changes nothing: the pair the first
    call stored (or found) is found again, and the counter stays where it
    is. *)
Theorem GetHyperlinkId_custom_id_reused (uri id : wstring) (tb tb' : TextBuffer) (n : Z) :
  id <> [] ->
  GetHyperlinkId uri id tb = Some (n, tb') ->
  GetHyperlinkId uri id tb' = Some (n, tb').
Proof.
  intros Hid. destruct id as [|c id]; [done|]. clear Hid.
  intros H. apply GetHyperlinkId_existing; revert H;
    unfold GetHyperlinkId, bind, get, modify, ret, nextHyperlinkId;
    destruct (customIdLookup _ (_hyperlinkCustomIdMap tb)) as [existing|] eqn:El.
  - destruct (Z.eqb_spec (_currentHyperlinkId tb) 0); by intros [= <- <-].
  - cbn [_currentHyperlinkId with_hyperlinks _hyperlinkMap _hyperlinkCustomIdMap].
    destruct (Z.eqb_spec ((_currentHyperlinkId tb + 1) mod 65536) 0);
      intros [= <- <-]; simpl; by apply customIdLookup_snoc.
  - destruct (Z.eqb_spec (_currentHyperlinkId tb) 0) as [E0|Hne];
      intros [= <- <-]; simpl; [by rewrite E0|done].
  - cbn [_currentHyperlinkId with_hyperlinks _hyperlinkMap _hyperlinkCustomIdMap].
    destruct (Z.eqb_spec ((_currentHyperlinkId tb + 1) mod 65536) 0) as [E0|Hne];
      intros [= <- <-]; simpl; [by rewrite E0|done].
Qed.

(** X6: the id-to-URI map answers with what was put in last.  After
    [AddHyperlinkToMap uri id] the id reads [uri], whatever it read before,
    and every other id reads as before; an id never added, and an id after
    [RemoveHyperlinkFromMap], make [GetHyperlinkUriFromId] throw; the
    removal changes the answer for no other id. *)
Theorem HyperlinkMap_round_trip (uri : wstring) (id id' : Z) (tb : TextBuffer) :
  GetHyperlinkUriFromId id (AddHyperlinkToMap uri id tb)
  = Some (uri, AddHyperlinkToMap uri id tb) /\
  GetHyperlinkUriFromId id (RemoveHyperlinkFromMap id tb) = None /\
  (_hyperlinkMap tb !! id = None -> GetHyperlinkUriFromId id tb = None) /\
  (id' <> id ->
     fst <$> GetHyperlinkUriFromId id' (AddHyperlinkToMap uri id tb)
     = fst <$> GetHyperlinkUriFromId id' tb /\
     fst <$> GetHyperlinkUriFromId id' (RemoveHyperlinkFromMap id tb)
     = fst <$> GetHyperlinkUriFromId id' tb).
Proof.
  unfold GetHyperlinkUriFromId, AddHyperlinkToMap, RemoveHyperlinkFromMap, bind, get, ret,
    throw.
  cbn [_hyperlinkMap with_hyperlinks]. split_and!.
  - by rewrite lookup_insert_eq.
  - by rewrite lookup_delete_eq.
  - by intros ->.
  - intros Hne. rewrite lookup_insert_ne, lookup_delete_ne by done.
    by destruct (_hyperlinkMap tb !! id').
Qed.

Lemma firstCustomId_absent (id : Z) (m : list (wstring * Z)) :
  countId id m = 0%nat -> firstCustomId id m = [].
Proof.
  unfold countId. induction m as [|p m IH]; [done|]. simpl.
  rewrite filter_cons. destruct (Z.eqb_spec p.2 id) as [E|Hne].
  - rewrite decide_True by done. done.
  - rewrite decide_False by done. done.
Qed.

Lemma firstCustomId_snoc (id : Z) (key : wstring) (m : list (wstring * Z)) :
  countId id m = 0%nat -> firstCustomId id (m ++ [(key, id)]) = key.
Proof.
  unfold countId. induction m as [|p m IH]; simpl.
  - by rewrite Z.eqb_refl.
  - rewrite filter_cons. destruct (Z.eqb_spec p.2 id) as [E|Hne].
    + rewrite decide_True by done. done.
    + rewrite decide_False by done. done.
Qed.

Lemma eraseFirstWithId_snoc (id : Z) (key : wstring) (m : list (wstring * Z)) :
  countId id m = 0%nat -> eraseFirstWithId id (m ++ [(key, id)]) = m.
Proof.
  unfold countId. induction m as [|p m IH]; simpl.
  - by rewrite Z.eqb_refl.
  - rewrite filter_cons. destruct (Z.eqb_spec p.2 id) as [E|Hne].
    + rewrite decide_True by done. done.
    + rewrite decide_False by done. intros H. by rewrite IH.
Qed.

(** X7: a custom id can be read back.  When [GetHyperlinkId] registers a new
    custom id under a counter value that no custom id uses yet,
    [GetCustomIdFromId] of the numeric id returned is the key stored: the
    custom id, a percent sign, and the hash of the URI.  Removing the
    hyperlink restores the custom-id map of before, and the numeric id then
    has no custom id: the empty string is returned. *)
Theorem GetCustomIdFromId_round_trip (uri id : wstring) (tb : TextBuffer) :
  id <> [] ->
  customIdLookup (customKey uri id) (_hyperlinkCustomIdMap tb) = None ->
  countId (_currentHyperlinkId tb) (_hyperlinkCustomIdMap tb) = 0%nat ->
  exists tb',
    GetHyperlinkId uri id tb = Some (_currentHyperlinkId tb, tb') /\
    GetCustomIdFromId (_currentHyperlinkId tb) tb' = customKey uri id /\
    _hyperlinkCustomIdMap (RemoveHyperlinkFromMap (_currentHyperlinkId tb) tb')
    = _hyperlinkCustomIdMap tb /\
    GetCustomIdFromId (_currentHyperlinkId tb)
      (RemoveHyperlinkFromMap (_currentHyperlinkId tb) tb') = [].
Proof.
  intros Hid El Hc. destruct id as [|c id]; [done|]. clear Hid.
  unfold customKey in *.
  unfold GetHyperlinkId, bind, get, modify, ret, nextHyperlinkId.
  rewrite El.
  cbn [_currentHyperlinkId with_hyperlinks _hyperlinkMap _hyperlinkCustomIdMap].
  unfold GetCustomIdFromId, RemoveHyperlinkFromMap.
  destruct (Z.eqb_spec ((_currentHyperlinkId tb + 1) mod 65536) 0) as [E0|Hne];
    (eexists; split; [reflexivity|]);
    cbn [_currentHyperlinkId with_hyperlinks _hyperlinkMap _hyperlinkCustomIdMap];
    rewrite eraseFirstWithId_snoc by done;
    (split_and!; [by apply firstCustomId_snoc|done|by apply firstCustomId_absent]).
Qed.

(** ** Member functions as state transformers *)

Lemma hoare_ret {A} (Q : A -> TextBuffer -> Prop) (a : A) : hoare (Q a) (ret a) Q.
Proof. intros tb H. by exists a, tb. Qed.

Lemma hoare_bind {A B} (P : TextBuffer -> Prop) (Q : A -> TextBuffer -> Prop)
    (R : B -> TextBuffer -> Prop) (m : TB A) (k : A -> TB B) :
  hoare P m Q -> (forall a, hoare (Q a) (k a) R) -> hoare P (bind m k) R.
Proof.
  intros Hm Hk tb HP. destruct (Hm tb HP) as (a & tb1 & E & HQ).
  destruct (Hk a tb1 HQ) as (b & tb2 & E2 & HR).
  exists b, tb2. split; [|done]. by rewrite (bind_Some _ _ _ _ _ E).
Qed.

Lemma hoare_conseq {A} (P P' : TextBuffer -> Prop) (Q Q' : A -> TextBuffer -> Prop)
    (m : TB A) :
  hoare P' m Q' -> (forall tb, P tb -> P' tb) -> (forall a tb, Q' a tb -> Q a tb) ->
  hoare P m Q.
Proof.
  intros Hm HP HQ tb H. destruct (Hm tb (HP tb H)) as (a & tb' & E & Hq).
  exists a, tb'. split; [done|]. by apply HQ.
Qed.

Lemma hoare_post {A} (P : TextBuffer -> Prop) (Q Q' : A -> TextBuffer -> Prop) (m : TB A) :
  hoare P m Q' -> (forall a tb, Q' a tb -> Q a tb) -> hoare P m Q.
Proof. intros Hm HQ. by apply (hoare_conseq P P Q Q'). Qed.

Lemma hoare_get (P : TextBuffer -> Prop) :
  hoare P get (fun a tb => a = tb /\ P tb).
Proof. intros tb H. by exists tb, tb. Qed.

Lemma hoare_modify (P Q : TextBuffer -> Prop) (f : TextBuffer -> TextBuffer) :
  (forall tb, P tb -> Q (f tb)) -> hoare P (modify f) (fun _ => Q).
Proof. intros H tb HP. exists tt, (f tb). split; [done|]. by apply H. Qed.

Lemma header_fields tb h :
  header tb = header h ->
  _width tb = _width h /\ _height tb = _height h /\ _firstRow tb = _firstRow h /\
  _cursor tb = _cursor h /\ _lastMutationId tb = _lastMutationId h /\
  _isActiveBuffer tb = _isActiveBuffer h /\ _renderer tb = _renderer h /\
  _initialAttributes tb = _initialAttributes h /\
  _currentAttributes tb = _currentAttributes h /\ _marks tb = _marks h.
Proof.
  intros H.
  header_field H _width. header_field H _height. header_field H _firstRow.
  header_field H _cursor. header_field H _lastMutationId.
  header_field H _isActiveBuffer. header_field H _renderer.
  header_field H _initialAttributes. header_field H _currentAttributes.
  header_field H _marks. by split_and!.
Qed.

Lemma St_self tb : wf tb -> St tb (peekRow tb) 0 tb.
Proof. intros H. split; [|lia]. by split_and!. Qed.

Lemma St_weaken h rows c c' tb : (c' <= c)%nat -> St h rows c tb -> St h rows c' tb.
Proof. intros Hc [Ha Hw]. split; [done|lia]. Qed.

Lemma St_commits h rows c tb tb' :
  St h rows c tb -> commits tb tb' -> wf tb' -> St h rows c tb'.
Proof.
  intros [(Hwf & Hh & Hp) Hc] Hcm Hwf'. destruct Hcm as [Eh El Em Ep].
  split; [|lia]. split_and!; [done|congruence|]. intros s. by rewrite Ep.
Qed.

Lemma St_slotOf h rows c tb j : St h rows c tb -> slotOf tb j = slotOf h j.
Proof.
  intros [(_ & Hh & _) _]. apply header_fields in Hh as (_ & Eh & Ef & _).
  unfold slotOf. by rewrite Eh, Ef.
Qed.

Lemma hoare_getRow h rows c (y0 : Z) :
  in_int32 (_firstRow h + y0) ->
  hoare (St h rows c) (_getRow y0)
        (fun r tb => r = slotOf h y0 /\ St h rows (Nat.max c (S r)) tb).
Proof.
  intros Hy tb HS.
  pose proof HS as [(Hwf & Hh & Hp) Hc].
  pose proof (header_fields _ _ Hh) as (_ & Eh & Ef & _).
  rewrite <- Ef in Hy.
  destruct (getRow_ok tb y0 Hwf Hy) as (tb' & E & Hcm & Hwf' & Hs).
  rewrite (St_slotOf _ _ _ _ _ HS) in E, Hs.
  exists (slotOf h y0), tb'. split; [done|]. split; [done|].
  pose proof (St_commits _ _ _ _ _ HS Hcm Hwf') as [Ha Hw]. split; [done|lia].
Qed.

Lemma hoare_deref h rows c (r : nat) :
  (r < c)%nat ->
  hoare (St h rows c) (deref r) (fun row tb => row = rows r /\ St h rows c tb).
Proof.
  intros Hr tb HS. pose proof HS as [(Hwf & Hh & Hp) Hc].
  exists (rows r), tb. split; [|done].
  rewrite <- Hp. apply (deref_committed tb tb); [apply commits_refl|lia|].
  destruct Hwf. lia.
Qed.

Lemma peekRow_alter tb (r : nat) (f : ROW -> ROW) (s : nat) :
  (r < _commitWatermark tb)%nat -> (r < length (_buffer tb))%nat ->
  peekRow (with_buffer (alter f r (_buffer tb)) tb) s = upd r f (peekRow tb) s.
Proof.
  intros Hr Hl. unfold upd, peekRow. cbn [_commitWatermark _buffer with_buffer _width
    _initialAttributes].
  destruct (decide (s = r)) as [->|Hne].
  - destruct (Nat.ltb_spec r (_commitWatermark tb)); [|lia].
    rewrite list_lookup_alter. rewrite decide_True by done.
    destruct (lookup_lt_is_Some_2 (_buffer tb) r Hl) as [row ->]. done.
  - destruct (Nat.ltb_spec s (_commitWatermark tb)); [|done].
    rewrite list_lookup_alter. by rewrite decide_False by done.
Qed.

Lemma hoare_assign h rows c (r : nat) (f : ROW -> ROW) :
  (r < c)%nat ->
  hoare (St h rows c) (assign r f) (fun _ tb => St h (upd r f rows) c tb).
Proof.
  intros Hr. apply hoare_modify. intros tb [(Hwf & Hh & Hp) Hc].
  split; [|done]. split_and!.
  - destruct Hwf. split; try done. cbn. by rewrite length_alter.
  - done.
  - intros s. rewrite peekRow_alter by (destruct Hwf; lia).
    unfold upd. by rewrite !Hp.
Qed.

(** A change of the members that leaves the row storage alone and looks at
    nothing of it. *)
Lemma St_modify (g : TextBuffer -> TextBuffer) h rows c tb :
  (forall t, _buffer (g t) = _buffer t /\ _commitWatermark (g t) = _commitWatermark t /\
             _width (g t) = _width t /\ _height (g t) = _height t /\
             _firstRow (g t) = _firstRow t /\
             _initialAttributes (g t) = _initialAttributes t) ->
  (forall t, header (g t) = header (g (header t))) ->
  St h rows c tb -> St (g h) rows c (g tb).
Proof.
  intros Hk Hg [(Hwf & Hh & Hp) Hc].
  destruct (Hk tb) as (Eb & Ew & Ewi & Ehe & Ef & Ei).
  split; [|lia]. split_and!.
  - destruct Hwf as [H1 H2 H3 H4 H5]. unfold reservedRows in *.
    split; unfold reservedRows; rewrite ?Ewi, ?Ehe, ?Ef, ?Eb, ?Ew; done.
  - rewrite Hg, Hh, <- Hg. done.
  - intros s. rewrite <- Hp. unfold peekRow. by rewrite Eb, Ew, Ewi, Ei.
Qed.

Lemma hoare_onCursor h rows c (f : Cursor -> Cursor) :
  hoare (St h rows c) (onCursor f)
        (fun _ tb => St (with_cursor (f (_cursor h)) h) rows c tb).
Proof.
  apply hoare_modify. intros tb HS.
  apply (St_modify (fun t => with_cursor (f (_cursor t)) t)); [|done|done].
  intros t. by split_and!.
Qed.

Lemma hoare_GetMutableRowByOffset h rows c (y0 : Z) :
  in_int32 (_firstRow h + y0) ->
  hoare (St h rows c) (GetMutableRowByOffset y0)
        (fun r tb => r = slotOf h y0 /\ St (bumpMutationId h) rows (Nat.max c (S r)) tb).
Proof.
  intros Hy. unfold GetMutableRowByOffset.
  eapply hoare_bind.
  - apply (hoare_modify _ (St (bumpMutationId h) rows c)). intros tb HS.
    apply (St_modify bumpMutationId); [|done|done]. intros t. by split_and!.
  - intros u. apply (hoare_getRow (bumpMutationId h)). done.
Qed.

Lemma Width_GetSize tb : Width (GetSize tb) = _width tb.
Proof. unfold Width, GetSize, Viewport_FromDimensions. cbn. lia. Qed.

Lemma Height_GetSize tb : Height (GetSize tb) = _height tb.
Proof. unfold Height, GetSize, Viewport_FromDimensions. cbn. lia. Qed.

Lemma BottomInclusive_GetSize tb : BottomInclusive (GetSize tb) = _height tb - 1.
Proof. unfold BottomInclusive, GetSize, Viewport_FromDimensions. cbn. lia. Qed.

Lemma hoare_IsDoubleWidthLine h rows c (row : Z) :
  in_int32 (_firstRow h + row) ->
  hoare (St h rows c) (IsDoubleWidthLine row)
        (fun dw tb => dw = negb (LineRendition_eqb (lineRenditionAt h rows row) SingleWidth) /\
                      St h rows c tb).
Proof.
  intros Hy. unfold IsDoubleWidthLine, GetRowByOffset.
  eapply hoare_bind; [by apply hoare_getRow|]. intros r. cbv beta.
  intros tb [-> HS].
  destruct (hoare_deref h rows (Nat.max c (S (slotOf h row))) (slotOf h row) ltac:(lia) tb HS)
    as (line & tb' & E & -> & HS').
  eexists _, tb'. unfold bind. rewrite E. split; [reflexivity|].
  split; [done|]. apply (St_weaken _ _ _ c) in HS'; [done|lia].
Qed.

Lemma hoare_GetLineWidth h rows c (row : Z) :
  in_int32 (_firstRow h + row) ->
  hoare (St h rows c) (GetLineWidth row)
        (fun w tb => w = lineWidthAt h rows row /\ St h rows c tb).
Proof.
  intros Hy. unfold GetLineWidth.
  eapply hoare_bind; [by apply hoare_IsDoubleWidthLine|]. intros dw. cbv beta.
  intros tb [-> HS]. eexists _, tb. split; [reflexivity|]. split; [|done].
  rewrite Width_GetSize. destruct HS as [(_ & Hh & _) _].
  apply header_fields in Hh as (-> & _). unfold lineWidthAt.
  by destruct (LineRendition_eqb _ _).
Qed.

Lemma St_firstRow h rows c tb (v : Z) :
  0 <= v < _height h -> St h rows c tb -> St (with_firstRow v h) rows c (with_firstRow v tb).
Proof.
  intros Hv [(Hwf & Hh & Hp) Hc].
  pose proof (header_fields _ _ Hh) as (_ & Eh & _).
  split; [|done]. split_and!.
  - destruct Hwf. split; try done. cbn. lia.
  - change (header (with_firstRow v tb)) with (with_firstRow v (header tb)).
    by rewrite Hh.
  - done.
Qed.

Lemma rotated_fields l h :
  _height (rotated l h) = _height h /\ _width (rotated l h) = _width h /\
  _firstRow (rotated l h) = (_firstRow h + 1) mod _height h /\
  _cursor (rotated l h) = _cursor h /\ _marks (rotated l h) = _marks h /\
  _lastMutationId (rotated l h) = wrap64u (_lastMutationId h + 1) /\
  _isActiveBuffer (rotated l h) = _isActiveBuffer h /\
  _renderer (rotated l h) = _renderer (flushed h) /\
  _initialAttributes (rotated l h) = _initialAttributes h /\
  _currentAttributes (rotated l h) = _currentAttributes h.
Proof.
  unfold rotated, bumpMutationId, flushed. rewrite removeAll_spec.
  destruct (_isActiveBuffer h) eqn:E; cbn; rewrite ?E; by split_and!.
Qed.

(** One rotation of the ring, as a step on the members and the rows. *)
Lemma hoare_IncrementCircularBuffer h rows c (fill : TextAttribute) :
  hoare (St h rows c) (IncrementCircularBuffer fill)
        (fun _ tb => exists l,
           St (rotated l h) (upd (slotOf h 0) (ROW_Reset fill) rows) c tb).
Proof.
  intros tb HS. pose proof HS as [(Hwf & Hh & Hp) Hc].
  pose proof (header_fields _ _ Hh) as (_ & Eh & Ef & _).
  destruct (rotation_steps tb fill Hwf)
    as (tbc & l & tbr & _ & Hc1 & Hwfc & _ & _ & _ & Hcr & Hwfr & Hs & _ & _ & E).
  cbv zeta in E. eexists tt, _. split; [exact E|]. exists l.
  assert (HS1 : St (flushed h) rows c (flushed tb)).
  { apply (St_modify flushed); [| |done].
    - intros t. unfold flushed. destruct (_isActiveBuffer t); by split_and!.
    - intros t. unfold flushed. cbn. by destruct (_isActiveBuffer t). }
  apply (fun H => St_commits _ _ _ _ tbc H Hc1 Hwfc) in HS1.
  assert (HS2 : St (removeAll l (flushed h)) rows c (removeAll l tbc)).
  { apply (St_modify (removeAll l)); [| |done].
    - intros t. rewrite removeAll_spec. by split_and!.
    - intros t. by rewrite !removeAll_spec. }
  assert (HS2m : St (bumpMutationId (removeAll l (flushed h))) rows c
                    (bumpMutationId (removeAll l tbc))).
  { apply (St_modify bumpMutationId); [| |done]; [intros t; by split_and!|done]. }
  apply (fun H => St_commits _ _ _ _ tbr H Hcr Hwfr) in HS2m.
  rewrite (St_slotOf _ _ _ _ _ HS) in *.
  assert (HSr : St (bumpMutationId (removeAll l (flushed h))) rows
                   (Nat.max c (S (slotOf h 0))) tbr).
  { destruct HS2m as [Ha Hw]. split; [done|lia]. }
  assert (Hlt : (slotOf h 0 < Nat.max c (S (slotOf h 0)))%nat) by lia.
  destruct (hoare_assign _ _ _ _ (ROW_Reset fill) Hlt tbr HSr) as (u & tb3 & E3 & HS3).
  unfold assign, modify in E3. injection E3 as E3. subst tb3.
  apply (St_weaken _ _ _ c) in HS3; [|lia].
  rewrite Eh, Ef. unfold rotated.
  apply St_firstRow; [|done].
  assert (Hhh : _height (bumpMutationId (removeAll l (flushed h))) = _height h).
  { unfold bumpMutationId, flushed. rewrite removeAll_spec.
    by destruct (_isActiveBuffer h). }
  rewrite Hhh. apply Z.mod_pos_bound. destruct Hwf. lia.
Qed.

Lemma slotOf_pos tb (j : Z) : 1 <= _height tb -> (1 <= slotOf tb j)%nat.
Proof.
  intros H. unfold slotOf.
  pose proof (Z.mod_pos_bound (_firstRow tb + j) (_height tb)). lia.
Qed.

(** X8: the scratchpad row is not a row of the screen.  [GetScratchpadRow]
    returns slot 0, reset to the given attributes; every logical row reads
    afterwards what it read before, and no member changes, the mutation
    counter included. *)
Theorem GetScratchpadRow_leaves_rows (tb : TextBuffer) (attributes : TextAttribute) :
  wf tb ->
  exists tb',
    GetScratchpadRow attributes tb = Some (0%nat, tb') /\
    wf tb' /\ header tb' = header tb /\
    peekRow tb' 0 = ROW_Reset attributes (peekRow tb 0) /\
    forall row : Z, peekRow tb' (slotOf tb' row) = peekRow tb (slotOf tb row).
Proof.
  intros Hwf.
  destruct (getRowByOffsetDirect_ok tb 0 Hwf) as (tb1 & E1 & Hc1 & Hwf1 & Hs1).
  { unfold reservedRows. destruct Hwf. lia. }
  pose proof (St_commits _ _ _ _ _ (St_self tb Hwf) Hc1 Hwf1) as [Ha _].
  assert (HS1 : St tb (peekRow tb) 1 tb1) by (split; [done|lia]).
  destruct (hoare_assign tb (peekRow tb) 1 0%nat (ROW_Reset attributes) ltac:(lia) tb1 HS1)
    as (u & tb2 & E2 & [(Hwf2 & Hh2 & Hp2) _]).
  exists tb2. split.
  { unfold GetScratchpadRow. rewrite (bind_Some _ _ _ _ _ E1), (bind_Some _ _ _ _ _ E2).
    done. }
  split; [done|]. split; [done|]. split; [by rewrite Hp2|].
  intros row. rewrite Hp2.
  pose proof (header_fields _ _ Hh2) as (_ & Eh & Ef & _).
  replace (slotOf tb2 row) with (slotOf tb row) by (unfold slotOf; by rewrite Eh, Ef).
  unfold upd. rewrite decide_False; [done|].
  pose proof (slotOf_pos tb row). destruct Hwf. lia.
Qed.

Lemma slot_shift (f h j : Z) :
  0 < h -> ((f + 1) mod h + j) mod h = (f + (j + 1)) mod h.
Proof.
  intros Hh. rewrite Zplus_mod_idemp_l. f_equal. lia.
Qed.

Lemma slot_distinct (f h d : Z) :
  0 <= f < h -> 0 < d < h -> (f + d) mod h <> f mod h.
Proof.
  intros Hf Hd. rewrite (Z.mod_small f h) by lia.
  destruct (Z_lt_dec (f + d) h) as [Hlt|Hge].
  - rewrite Z.mod_small by lia. lia.
  - replace (f + d) with ((f + d - h) + 1 * h) by lia.
    rewrite Z_mod_plus_full, Z.mod_small by lia. lia.
Qed.

(** X9: a rotation of the ring scrolls the screen up by one row.  After
    [IncrementCircularBuffer], logical row [y] is what logical row [y + 1]
    was, for every row but the last, and the last row is the former top row
    reset to the fill attributes.  The size, the cursor and the marks are as
    before: the caller moves them.  The mutation counter has advanced by
    one. *)
Theorem IncrementCircularBuffer_scrolls_rows (tb : TextBuffer) (fill : TextAttribute) :
  wf tb ->
  exists tb',
    IncrementCircularBuffer fill tb = Some (tt, tb') /\ wf tb' /\
    (forall row, 0 <= row < _height tb - 1 ->
       peekRow tb' (slotOf tb' row) = peekRow tb (slotOf tb (row + 1))) /\
    peekRow tb' (slotOf tb' (_height tb - 1)) = ROW_Reset fill (peekRow tb (slotOf tb 0)) /\
    _width tb' = _width tb /\ _height tb' = _height tb /\
    _cursor tb' = _cursor tb /\ _marks tb' = _marks tb /\
    _lastMutationId tb' = wrap64u (_lastMutationId tb + 1).
Proof.
  intros Hwf.
  destruct (hoare_IncrementCircularBuffer tb (peekRow tb) 0 fill tb (St_self tb Hwf))
    as ([] & tb' & E & l & [(Hwf' & Hh & Hp) _]).
  exists tb'. split; [done|]. split; [done|].
  pose proof (header_fields _ _ Hh) as (Ew & Eh & Ef & Ec & Em & _ & _ & _ & _ & Emk).
  pose proof (rotated_fields l tb) as (Rh & Rw & Rf & Rc & Rmk & Rm & _).
  rewrite Rh in Eh. rewrite Rf in Ef.
  destruct Hwf as [Hh1 Hw1 Hf1 _ _].
  assert (Hslot : forall row, slotOf tb' row = slotOf tb (row + 1)).
  { intros row. unfold slotOf. rewrite Eh, Ef, slot_shift by lia. done. }
  split_and!; try congruence.
  - intros row Hrow. rewrite Hp, Hslot. unfold upd.
    rewrite decide_False; [done|]. unfold slotOf.
    pose proof (slot_distinct (_firstRow tb) (_height tb) (row + 1) ltac:(lia) ltac:(lia)).
    pose proof (Z.mod_pos_bound (_firstRow tb + (row + 1)) (_height tb)).
    pose proof (Z.mod_pos_bound (_firstRow tb + 0) (_height tb)).
    rewrite Z.add_0_r in *. lia.
  - rewrite Hp, Hslot. unfold upd.
    assert (Es : slotOf tb (_height tb - 1 + 1) = slotOf tb 0).
    { unfold slotOf. replace (_firstRow tb + (_height tb - 1 + 1))
        with (_firstRow tb + 0 + 1 * _height tb) by lia.
      by rewrite Z_mod_plus_full. }
    rewrite Es. by rewrite decide_True.
Qed.

(** ** The cursor coordinator *)

Lemma hoare_read {A} (P : TextBuffer -> Prop) (k : TextBuffer -> TB A)
    (R : A -> TextBuffer -> Prop) :
  (forall tb0, P tb0 -> hoare (fun tb => tb = tb0 /\ P tb) (k tb0) R) ->
  hoare P (bind get k) R.
Proof.
  intros H tb HP. destruct (H tb HP tb (conj eq_refl HP)) as (a & tb' & E & HR).
  by exists a, tb'.
Qed.

Lemma hoare_drop {A} (P : TextBuffer -> Prop) (tb0 : TextBuffer) (m : TB A)
    (R : A -> TextBuffer -> Prop) :
  hoare P m R -> hoare (fun tb => tb = tb0 /\ P tb) m R.
Proof. intros H tb [_ HP]. by apply H. Qed.

Lemma St_bounds h rows c tb :
  St h rows c tb ->
  1 <= _height h <= UINT16_MAX /\ 1 <= _width h <= UINT16_MAX /\
  0 <= _firstRow h < _height h.
Proof.
  intros [(Hwf & Hh & _) _]. apply header_fields in Hh as (Ew & Eh & Ef & _).
  destruct Hwf. rewrite <- Ew, <- Eh, <- Ef. done.
Qed.

Lemma St_cursor h rows c tb : St h rows c tb -> _cursor tb = _cursor h.
Proof. intros [(_ & Hh & _) _]. by apply header_fields in Hh as (_ & _ & _ & -> & _). Qed.

Lemma cursor_steps (cur : Cursor) (nx ny : Z) :
  SetYPosition ny (SetXPosition nx cur) = SetPosition (mkPoint nx ny) cur.
Proof. done. Qed.

Lemma hoare_NewlineCursor h rows c :
  0 <= cursorY h < _height h ->
  hoare (St h rows c) NewlineCursor (fun _ tb => afterNewline h rows c tb).
Proof.
  intros Hy. unfold NewlineCursor. apply hoare_read. intros tb0 HS0.
  pose proof (St_bounds _ _ _ _ HS0) as (Hh & Hw & Hf).
  rewrite BottomInclusive_GetSize.
  replace (_height tb0) with (_height h)
    by (destruct HS0 as [(_ & H0 & _) _]; by apply header_fields in H0 as (_ & -> & _)).
  apply hoare_drop.
  eapply hoare_bind; [apply hoare_onCursor|]. intros u1.
  eapply hoare_bind; [apply hoare_onCursor|]. intros u2.
  apply hoare_read. intros tb1 HS1.
  rewrite (St_cursor _ _ _ _ HS1). cbn [_cursor with_cursor].
  unfold IncrementYPosition, SetXPosition, SetYPosition, GetPosition. cbn [cPosition y x].
  unfold cursorY, GetPosition in Hy.
  rewrite add32_small
    by (unfold in_int32, INT32_MIN, INT32_MAX, UINT16_MAX in *; lia).
  apply hoare_drop.
  destruct (Z.ltb_spec (_height h - 1) (y (cPosition (_cursor h)) + 1)) as [Hlast|Hnext].
  - eapply hoare_bind; [apply hoare_onCursor|]. intros u3. cbn [_cursor with_cursor].
    eapply hoare_post; [apply hoare_IncrementCircularBuffer|].
    intros u tb (l & HS). right. unfold cursorY, GetPosition. split; [lia|].
    exists l. exact HS.
  - intros tb HS. exists tt, tb. split; [done|].
    left. unfold cursorY, GetPosition. split; [lia|exact HS].
Qed.

Lemma hoare_SetWrapOnCurrentRow h rows c :
  in_int32 (_firstRow h + cursorY h) ->
  hoare (St h rows c) _SetWrapOnCurrentRow
        (fun _ tb => St (bumpMutationId h)
                        (upd (slotOf h (cursorY h)) (SetWrapForced true) rows) c tb).
Proof.
  intros Hy. unfold _SetWrapOnCurrentRow, _AdjustWrapOnCurrentRow.
  apply hoare_read. intros tb0 HS0. rewrite (St_cursor _ _ _ _ HS0).
  apply hoare_drop.
  eapply hoare_bind; [by apply hoare_GetMutableRowByOffset|]. intros r. cbv beta.
  intros tb [-> HS].
  assert (Hlt : (slotOf h (cursorY h) < Nat.max c (S (slotOf h (cursorY h))))%nat) by lia.
  destruct (hoare_assign _ _ _ _ (SetWrapForced true) Hlt tb HS) as (u & tb' & E & HS').
  exists u, tb'. split; [exact E|]. apply (St_weaken _ _ _ c) in HS'; [done|lia].
Qed.

Lemma hoare_IncrementCursor h rows c :
  0 <= cursorY h < _height h -> 0 <= cursorX h < _width h ->
  hoare (St h rows c) IncrementCursor (fun _ tb => afterIncrement h rows c tb).
Proof.
  intros Hy Hx. unfold IncrementCursor. apply hoare_read. intros tb0 HS0.
  pose proof (St_bounds _ _ _ _ HS0) as (Hh & Hw & Hf).
  rewrite (St_cursor _ _ _ _ HS0). apply hoare_drop.
  assert (Hsum : in_int32 (_firstRow h + cursorY h))
    by (unfold in_int32, INT32_MIN, INT32_MAX, UINT16_MAX in *; lia).
  eapply hoare_bind; [by apply hoare_GetLineWidth|]. intros lineWidth. cbv beta.
  intros tb1 [-> HS1]. revert tb1 HS1.
  change (hoare (St h rows c)
    (onCursor (IncrementXPosition 1) ;;;
     tb <- get ;;
     if lineWidthAt h rows (y (GetPosition (_cursor h))) - 1 <? x (GetPosition (_cursor tb))
     then _SetWrapOnCurrentRow ;;; NewlineCursor else ret tt)
    (fun _ tb => afterIncrement h rows c tb)).
  eapply hoare_bind; [apply hoare_onCursor|]. intros u1.
  apply hoare_read. intros tb2 HS2.
  rewrite (St_cursor _ _ _ _ HS2). cbn [_cursor with_cursor].
  unfold IncrementXPosition, SetXPosition, GetPosition. cbn [cPosition y x].
  unfold cursorY, cursorX, GetPosition in Hy, Hx, Hsum.
  rewrite add32_small
    by (unfold in_int32, INT32_MIN, INT32_MAX, UINT16_MAX in *; lia).
  apply hoare_drop.
  destruct (Z.ltb_spec (lineWidthAt h rows (y (cPosition (_cursor h))) - 1)
                       (x (cPosition (_cursor h)) + 1)) as [Hwrap|Hfit].
  - eapply hoare_bind; [by apply hoare_SetWrapOnCurrentRow|]. intros u2. cbv beta.
    eapply hoare_post; [apply hoare_NewlineCursor; exact Hy|].
    intros u tb HS. right. split; [exact Hwrap|exact HS].
  - intros tb HS. exists tt, tb. split; [done|]. left. split; [exact Hfit|exact HS].
Qed.

Lemma St_frame h rows c tb : St h rows c tb -> wf tb /\ sameFrame h tb.
Proof.
  intros [(Hwf & Hh & _) _]. split; [done|].
  apply header_fields in Hh as (E1 & E2 & _ & _ & _ & E3 & E4 & _ & E5 & E6).
  unfold sameFrame. by split_and!.
Qed.

Lemma sameFrame_trans a b c' : sameFrame a b -> sameFrame b c' -> sameFrame a c'.
Proof.
  unfold sameFrame. intros (A1 & A2 & A3 & A4 & A5 & A6) (B1 & B2 & B3 & B4 & B5 & B6).
  split_and!; try congruence. intros H. rewrite B6 by congruence. by apply A6.
Qed.

Lemma sameFrame_rotated l h : sameFrame h (rotated l h).
Proof.
  pose proof (rotated_fields l h) as (R1 & R2 & _ & _ & R3 & _ & R4 & R5 & _ & R6).
  unfold sameFrame. split_and!; try done.
  intros H. rewrite R5. unfold flushed. by rewrite H.
Qed.

Lemma afterNewline_facts h rows c tb :
  1 <= _width h -> 0 <= cursorY h < _height h ->
  afterNewline h rows c tb ->
  wf tb /\ sameFrame h tb /\ cursorInside tb /\
  cursorX tb = 0 /\ cursorY tb = Z.min (cursorY h + 1) (_height h - 1).
Proof.
  intros Hw Hy [[Hlt HS]|[Hlast (l & HS)]].
  - pose proof (St_frame _ _ _ _ HS) as (Hwf & Hfr).
    pose proof (St_cursor _ _ _ _ HS) as Ec.
    destruct Hfr as (F1 & F2 & F3 & F4 & F5 & F6).
    unfold cursorInside, cursorX, cursorY in *. rewrite Ec, F1, F2. cbn.
    split_and!; try done; try lia.
  - pose proof (St_frame _ _ _ _ HS) as (Hwf & Hfr).
    pose proof (St_cursor _ _ _ _ HS) as Ec.
    pose proof (sameFrame_trans _ _ _ (sameFrame_rotated l _) Hfr)
      as (F1 & F2 & F3 & F4 & F5 & F6).
    pose proof (rotated_fields l (cursorAt 0 (_height h - 1) h)) as (_ & _ & _ & Rc & _).
    unfold cursorInside, cursorX, cursorY in *. rewrite Ec, Rc, F1, F2. cbn.
    split_and!; try done; try lia.
Qed.

Lemma lineWidthAt_le h rows (row : Z) : 0 <= _width h -> lineWidthAt h rows row <= _width h.
Proof.
  intros Hw. unfold lineWidthAt. destruct (LineRendition_eqb _ _).
  - by rewrite Z.shiftr_0_r.
  - rewrite Z.shiftr_div_pow2 by lia. change (2 ^ 1) with 2.
    pose proof (Z.div_le_upper_bound (_width h) 2 (_width h)). lia.
Qed.

Lemma afterIncrement_facts h rows c tb :
  0 <= cursorX h < _width h -> 0 <= cursorY h < _height h ->
  afterIncrement h rows c tb ->
  wf tb /\ sameFrame h tb /\ cursorInside tb.
Proof.
  intros Hx Hy [[Hfit HS]|[Hwrap HN]].
  - pose proof (St_frame _ _ _ _ HS) as (Hwf & Hfr).
    pose proof (St_cursor _ _ _ _ HS) as Ec.
    pose proof (lineWidthAt_le h rows (cursorY h) ltac:(lia)).
    destruct Hfr as (F1 & F2 & F3 & F4 & F5 & F6).
    unfold cursorInside, cursorX, cursorY in *. rewrite Ec, F1, F2. cbn.
    split_and!; try done; try lia.
  - apply afterNewline_facts in HN as (Hwf & Hfr & Hin & _); [|cbn; lia|exact Hy].
    split_and!; try done.
Qed.

Lemma slotOf_header tb h (j : Z) : header tb = header h -> slotOf tb j = slotOf h j.
Proof.
  intros Hh. apply header_fields in Hh as (_ & Eh & Ef & _).
  unfold slotOf. by rewrite Eh, Ef.
Qed.

Lemma slotOf_rotated l h (j : Z) :
  0 < _height h -> slotOf (rotated l h) j = slotOf h (j + 1).
Proof.
  intros Hh. pose proof (rotated_fields l h) as (Rh & _ & Rf & _).
  unfold slotOf. rewrite Rh, Rf, slot_shift by done. done.
Qed.

Lemma slotOf_ne tb (a b : Z) :
  0 <= _firstRow tb < _height tb -> 0 <= a < _height tb -> 0 <= b < _height tb ->
  a <> b -> slotOf tb a <> slotOf tb b.
Proof.
  intros Hf Ha Hb Hab. unfold slotOf.
  pose proof (Z.mod_pos_bound (_firstRow tb + a) (_height tb) ltac:(lia)).
  pose proof (Z.mod_pos_bound (_firstRow tb + b) (_height tb) ltac:(lia)).
  intros E. assert (E' : (_firstRow tb + a) mod _height tb = (_firstRow tb + b) mod _height tb)
    by lia.
  clear E.
  assert (Hm : forall u, 0 <= u < 2 * _height tb ->
    u mod _height tb = if u <? _height tb then u else u - _height tb).
  { intros u Hu. destruct (Z.ltb_spec u (_height tb)).
    - apply Z.mod_small. lia.
    - replace u with ((u - _height tb) + 1 * _height tb) at 1 by lia.
      rewrite Z_mod_plus_full. apply Z.mod_small. lia. }
  rewrite !Hm in E' by lia.
  destruct (Z.ltb_spec (_firstRow tb + a) (_height tb)),
           (Z.ltb_spec (_firstRow tb + b) (_height tb)); lia.
Qed.

Lemma St_committed tb : wf tb -> St tb (peekRow tb) (_commitWatermark tb) tb.
Proof. intros H. split; [|lia]. by split_and!. Qed.

Lemma afterNewline_watermark h rows c tb :
  afterNewline h rows c tb -> (c <= _commitWatermark tb)%nat.
Proof. by intros [[_ [_ Hc]]|[_ (l & [_ Hc])]]. Qed.

Lemma afterIncrement_watermark h rows c tb :
  afterIncrement h rows c tb -> (c <= _commitWatermark tb)%nat.
Proof. intros [[_ [_ Hc]]|[_ HN]]; [done|by apply afterNewline_watermark in HN]. Qed.

(** A call that keeps the height has nothing to commit in a buffer whose
    rows are all committed. *)
Lemma fullyCommitted_stays tb tb' :
  fullyCommitted tb -> wf tb' -> _height tb' = _height tb ->
  (_commitWatermark tb <= _commitWatermark tb')%nat ->
  _commitWatermark tb' = _commitWatermark tb.
Proof.
  unfold fullyCommitted, reservedRows. intros Hfull [_ _ _ _ Hw] Eh Hle.
  unfold reservedRows in Hw. rewrite Eh in Hw. lia.
Qed.

(** X10: what [IncrementCursor] does to a cursor that is on a cell of the
    buffer.  The model leaves out one failure of the call: a memory commit
    that fails for a row the call is the first to touch.  The effect is
    therefore stated for a call that returns.
    Whenever the call returns, the cursor is again on a cell of the buffer.
    Inside the line only the cursor changes: it is one column to the right.
    From the last column of the line (half the width on a double-width line)
    the cursor goes to column 0 of the next row, or stays on the last row
    while the ring rotates, and in a buffer of at least two rows the row the
    cursor has left, now the row above it, is that row marked as wrapped.
    The size, the marks and the attributes are never touched, nor is the
    renderer called for a buffer that is not the active one.  In a buffer
    whose rows are all committed the call commits nothing, and returns. *)
Theorem IncrementCursor_advances_or_wraps (tb : TextBuffer) :
  wf tb -> cursorInside tb ->
  (forall tb',
     IncrementCursor tb = Some (tt, tb') ->
     wf tb' /\ sameFrame tb tb' /\ cursorInside tb' /\
     (cursorX tb + 1 < lineWidthAt tb (peekRow tb) (cursorY tb) ->
        agrees (cursorAt (cursorX tb + 1) (cursorY tb) tb) (peekRow tb) tb') /\
     (lineWidthAt tb (peekRow tb) (cursorY tb) <= cursorX tb + 1 ->
        cursorX tb' = 0 /\
        cursorY tb' = Z.min (cursorY tb + 1) (_height tb - 1) /\
        (2 <= _height tb ->
           peekRow tb' (slotOf tb' (cursorY tb' - 1))
           = SetWrapForced true (peekRow tb (slotOf tb (cursorY tb)))))) /\
  (fullyCommitted tb ->
   exists tb',
     IncrementCursor tb = Some (tt, tb') /\
     _commitWatermark tb' = _commitWatermark tb).
Proof.
  intros Hwf [Hx Hy].
  destruct (hoare_IncrementCursor tb (peekRow tb) (_commitWatermark tb) Hy Hx tb
              (St_committed tb Hwf)) as ([] & tb' & E & Hpost).
  pose proof (afterIncrement_facts _ _ _ _ Hx Hy Hpost) as (Hwf' & Hfr & Hin).
  split.
  2:{ intros Hfull. exists tb'. split; [exact E|].
      apply fullyCommitted_stays; [done|done|by destruct Hfr as (_ & ? & _)|].
      by apply afterIncrement_watermark in Hpost. }
  intros tb'' E''. rewrite E in E''. injection E'' as <-.
  split; [done|]. split; [done|]. split; [done|].
  destruct Hwf as [Hh Hw Hf _ _].
  destruct Hpost as [[Hfit HS]|[Hwrap HN]].
  - split; [intros _; by destruct HS|]. intros Hc. lia.
  - split; [intros Hc; lia|]. intros _.
    set (h1 := bumpMutationId (cursorAt (cursorX tb + 1) (cursorY tb) tb)) in *.
    set (rows1 := upd (slotOf tb (cursorY tb)) (SetWrapForced true) (peekRow tb)) in *.
    pose proof (afterNewline_facts h1 rows1 (_commitWatermark tb) tb' ltac:(cbn; lia) Hy HN)
      as (_ & _ & _ & HX & HY).
    split; [exact HX|]. split; [exact HY|].
    intros H2. change (cursorY h1) with (cursorY tb) in HY.
    change (_height h1) with (_height tb) in HY.
    destruct HN as [[Hlt HS]|[Hlast (l & HS)]].
    + change (cursorY h1) with (cursorY tb) in Hlt.
      change (_height h1) with (_height tb) in Hlt.
      destruct HS as [(_ & Hh' & Hp') _].
      rewrite Hp', (slotOf_header _ _ _ Hh').
      replace (cursorY tb' - 1) with (cursorY tb) by lia.
      change (slotOf (cursorAt 0 (cursorY h1 + 1) h1) (cursorY tb))
        with (slotOf tb (cursorY tb)).
      unfold rows1, upd. by rewrite decide_True.
    + change (cursorY h1) with (cursorY tb) in Hlast.
      change (_height h1) with (_height tb) in Hlast.
      destruct HS as [(_ & Hh' & Hp') _].
      rewrite Hp', (slotOf_header _ _ _ Hh').
      rewrite slotOf_rotated by (cbn; lia).
      replace (cursorY tb' - 1 + 1) with (cursorY tb) by lia.
      change (slotOf (cursorAt 0 (_height h1 - 1) h1) (cursorY tb))
        with (slotOf tb (cursorY tb)).
      change (slotOf h1 0) with (slotOf tb 0).
      unfold upd at 1. rewrite decide_False by (apply slotOf_ne; lia).
      unfold rows1, upd. by rewrite decide_True.
Qed.

Lemma upd_upd (s : nat) (f g : ROW -> ROW) (rows : nat -> ROW) (t : nat) :
  upd s g (upd s f rows) t = upd s (fun r => g (f r)) rows t.
Proof. unfold upd. by destruct (decide (t = s)). Qed.

Lemma St_ext h rows rows' c tb :
  (forall s, rows s = rows' s) -> St h rows c tb -> St h rows' c tb.
Proof.
  intros He [(Hwf & Hh & Hp) Hc]. split; [|done]. split_and!; try done.
  intros s. by rewrite Hp.
Qed.

Lemma lineWidthAt_upd h rows (s : nat) (f : ROW -> ROW) (row : Z) :
  (forall r, GetLineRendition (f r) = GetLineRendition r) ->
  lineWidthAt h (upd s f rows) row = lineWidthAt h rows row.
Proof.
  intros Hf. unfold lineWidthAt, lineRenditionAt, upd.
  destruct (decide (slotOf h row = s)); by rewrite ?Hf.
Qed.

Lemma storeGlyph_rendition chars dbcs attr iCol r :
  GetLineRendition (storeGlyph chars dbcs attr iCol r) = GetLineRendition r.
Proof.
  unfold storeGlyph, SetAttrToEnd, ReplaceCharacters, GetLineRendition.
  destruct dbcs; cbn;
    repeat match goal with |- context [if ?b then _ else _] => destruct b end; done.
Qed.

(** The store of [InsertCharacter], after [_PrepareForDoubleByteSequence]. *)
Lemma hoare_store h rows c (chars : wstring) (dbcsAttribute : DbcsAttribute)
    (attr : TextAttribute) :
  cursorInside h ->
  hoare (St h rows c)
    (tb <- get ;;
     Row <- GetMutableRowByOffset (y (GetPosition (_cursor tb))) ;;
     assign Row (match dbcsAttribute with
                 | Leading => ReplaceCharacters (x (GetPosition (_cursor tb))) 2 chars
                 | Trailing => ReplaceCharacters (x (GetPosition (_cursor tb)) - 1) 2 chars
                 | Single => ReplaceCharacters (x (GetPosition (_cursor tb))) 1 chars
                 end) ;;;
     assign Row (SetAttrToEnd (x (GetPosition (_cursor tb))) attr) ;;;
     IncrementCursor)
    (fun _ tb =>
       afterIncrement (bumpMutationId h)
         (upd (slotOf h (cursorY h)) (storeGlyph chars dbcsAttribute attr (cursorX h)) rows)
         c tb).
Proof.
  intros [Hx Hy]. apply hoare_read. intros tb0 HS0.
  pose proof (St_bounds _ _ _ _ HS0) as (Hh & Hw & Hf).
  rewrite (St_cursor _ _ _ _ HS0). apply hoare_drop.
  assert (Hsum : in_int32 (_firstRow h + cursorY h))
    by (unfold in_int32, INT32_MIN, INT32_MAX, UINT16_MAX in *; lia).
  eapply hoare_bind; [by apply hoare_GetMutableRowByOffset|]. intros r. cbv beta.
  intros tb1 [-> HS1].
  assert (Hlt : (slotOf h (cursorY h) < Nat.max c (S (slotOf h (cursorY h))))%nat) by lia.
  fold (cursorY h). fold (cursorX h).
  destruct (hoare_assign _ _ _ _
              (match dbcsAttribute with
               | Leading => ReplaceCharacters (cursorX h) 2 chars
               | Trailing => ReplaceCharacters (cursorX h - 1) 2 chars
               | Single => ReplaceCharacters (cursorX h) 1 chars
               end) Hlt tb1 HS1) as (u2 & tb2 & E2 & HS2).
  destruct (hoare_assign _ _ _ _ (SetAttrToEnd (cursorX h) attr) Hlt tb2 HS2)
    as (u3 & tb3 & E3 & HS3).
  apply (St_weaken _ _ _ c) in HS3; [|lia].
  apply (St_ext _ _ (upd (slotOf h (cursorY h))
           (storeGlyph chars dbcsAttribute attr (cursorX h)) rows)) in HS3.
  2:{ intros s. rewrite upd_upd. unfold upd, storeGlyph.
      destruct (decide (s = slotOf h (cursorY h))); [|done]. by destruct dbcsAttribute. }
  destruct (hoare_IncrementCursor (bumpMutationId h) _ c Hy Hx tb3 HS3)
    as (u4 & tb4 & E4 & HS4).
  exists u4, tb4. split; [|exact HS4].
  rewrite (bind_Some _ _ _ _ _ E2), (bind_Some _ _ _ _ _ E3). exact E4.
Qed.

Lemma sameFrame_refl h : sameFrame h h.
Proof. unfold sameFrame. by split_and!. Qed.

Lemma Inv_of_St h0 h rows c tb :
  sameFrame h0 h -> cursorInside h -> St h rows c tb -> Inv h0 tb.
Proof.
  intros Hfr [Hx Hy] HS. pose proof (St_frame _ _ _ _ HS) as (Hwf & Hfr').
  pose proof (St_cursor _ _ _ _ HS) as Ec.
  split; [done|]. split; [by apply (sameFrame_trans _ h)|].
  destruct Hfr' as (F1 & F2 & _). unfold cursorInside, cursorX, cursorY in *.
  by rewrite Ec, F1, F2.
Qed.

Lemma Inv_of_afterIncrement h0 h rows c tb :
  sameFrame h0 h -> cursorInside h -> afterIncrement h rows c tb -> Inv h0 tb.
Proof.
  intros Hfr [Hx Hy] HA.
  pose proof (afterIncrement_facts _ _ _ _ Hx Hy HA) as (Hwf & Hfr' & Hin).
  split; [done|]. split; [by apply (sameFrame_trans _ h)|done].
Qed.

(** [_PrepareForDoubleByteSequence] with the count of the committed rows. *)
Lemma hoare_Prepare_watermark h rows c (dbcsAttribute : DbcsAttribute) :
  cursorInside h ->
  hoare (St h rows c) (_PrepareForDoubleByteSequence dbcsAttribute)
        (fun _ tb => Inv h tb /\ (c <= _commitWatermark tb)%nat).
Proof.
  intros Hin. pose proof Hin as [Hx Hy].
  assert (Hret : hoare (St h rows c) (ret tt)
                   (fun _ tb => Inv h tb /\ (c <= _commitWatermark tb)%nat)).
  { intros tb HS. exists tt, tb. split; [done|]. split; [|by destruct HS].
    by apply (Inv_of_St h h rows c); [apply sameFrame_refl|..]. }
  unfold _PrepareForDoubleByteSequence.
  destruct dbcsAttribute; cbn [DbcsAttribute_eqb]; try exact Hret.
  apply hoare_read. intros tb0 HS0.
  pose proof (St_bounds _ _ _ _ HS0) as (Hh & Hw & Hf).
  rewrite (St_cursor _ _ _ _ HS0). apply hoare_drop.
  assert (Hsum : in_int32 (_firstRow h + cursorY h))
    by (unfold in_int32, INT32_MIN, INT32_MAX, UINT16_MAX in *; lia).
  eapply hoare_bind; [by apply hoare_GetLineWidth|]. intros lineWidth. cbv beta.
  intros tb1 [-> HS1].
  destruct (x (GetPosition (_cursor h)) =? lineWidthAt h rows (y (GetPosition (_cursor h))) - 1);
    [|by apply Hret].
  destruct (hoare_GetMutableRowByOffset h rows c (cursorY h) Hsum tb1 HS1)
    as (r & tb2 & E2 & -> & HS2).
  assert (Hlt : (slotOf h (cursorY h) < Nat.max c (S (slotOf h (cursorY h))))%nat) by lia.
  destruct (hoare_assign _ _ _ _ (SetDoubleBytePadded true) Hlt tb2 HS2)
    as (u3 & tb3 & E3 & HS3).
  destruct (hoare_IncrementCursor (bumpMutationId h) _ _ Hy Hx tb3 HS3)
    as (u4 & tb4 & E4 & HS4).
  exists u4, tb4. split.
  { fold (cursorY h). rewrite (bind_Some _ _ _ _ _ E2), (bind_Some _ _ _ _ _ E3). exact E4. }
  split.
  - eapply (Inv_of_afterIncrement h (bumpMutationId h)); [|done|exact HS4].
    unfold sameFrame. by split_and!.
  - apply afterIncrement_watermark in HS4. lia.
Qed.

(** X11: [InsertCharacter] keeps the cursor on the buffer.  The model leaves
    out one failure of the call: a memory commit that fails for a row the
    call is the first to touch.  The effect is therefore stated for a call
    that returns.  Whatever the glyph, its
    width attribute and the colours, on a well-formed buffer whose cursor is
    on one of its cells, whenever the call returns the buffer is well formed
    again and the cursor is again on one of its cells; the size, the marks
    and the current attributes are as before, and a buffer that is not the
    active one has not called the renderer.  In a buffer whose rows are all
    committed the call commits nothing, and returns. *)
Theorem InsertCharacter_keeps_cursor_inside (chars : wstring) (dbcsAttribute : DbcsAttribute)
    (attr : TextAttribute) (tb : TextBuffer) :
  wf tb -> cursorInside tb ->
  (forall tb',
     InsertCharacter chars dbcsAttribute attr tb = Some (tt, tb') ->
     wf tb' /\ sameFrame tb tb' /\ cursorInside tb') /\
  (fullyCommitted tb ->
   exists tb',
     InsertCharacter chars dbcsAttribute attr tb = Some (tt, tb') /\
     _commitWatermark tb' = _commitWatermark tb).
Proof.
  intros Hwf Hin.
  destruct (hoare_Prepare_watermark tb (peekRow tb) (_commitWatermark tb) dbcsAttribute Hin tb
              (St_committed tb Hwf)) as (u1 & tb1 & E1 & (Hwf1 & Hfr1 & Hin1) & Hc1).
  destruct (hoare_store tb1 (peekRow tb1) (_commitWatermark tb1) chars dbcsAttribute attr
              Hin1 tb1 (St_committed tb1 Hwf1)) as ([] & tb2 & E2 & HA).
  assert (E : InsertCharacter chars dbcsAttribute attr tb = Some (tt, tb2)).
  { unfold InsertCharacter. rewrite (bind_Some _ _ _ _ _ E1). exact E2. }
  pose proof (afterIncrement_watermark _ _ _ _ HA) as Hc2.
  assert (HI : Inv tb tb2).
  { eapply (Inv_of_afterIncrement tb (bumpMutationId tb1)) in HA; [done| |done].
    apply (sameFrame_trans _ tb1); [done|]. unfold sameFrame. by split_and!. }
  split.
  - intros tb'' E''. rewrite E in E''. by injection E'' as <-.
  - intros Hfull. exists tb2. split; [exact E|].
    destruct HI as (Hwf2 & (_ & Eh2 & _) & _). destruct Hfr1 as (_ & Eh1 & _).
    assert (E1w : _commitWatermark tb1 = _commitWatermark tb)
      by (by apply fullyCommitted_stays).
    apply fullyCommitted_stays; [done|done|done|lia].
Qed.

Lemma afterIncrement_wrapped_row h rows c tb :
  0 <= _firstRow h < _height h -> cursorInside h -> 2 <= _height h ->
  lineWidthAt h rows (cursorY h) <= cursorX h + 1 ->
  afterIncrement h rows c tb ->
  peekRow tb (slotOf tb (cursorY tb - 1)) = SetWrapForced true (rows (slotOf h (cursorY h))).
Proof.
  intros Hf [Hx Hy] H2 Hwrap [[Hfit HS]|[_ HN]]; [lia|].
  set (h1 := bumpMutationId (cursorAt (cursorX h + 1) (cursorY h) h)) in *.
  set (rows1 := upd (slotOf h (cursorY h)) (SetWrapForced true) rows) in *.
  pose proof (afterNewline_facts h1 rows1 c tb ltac:(cbn; lia) Hy HN)
    as (_ & _ & _ & HX & HY).
  change (cursorY h1) with (cursorY h) in HY.
  change (_height h1) with (_height h) in HY.
  destruct HN as [[Hlt HS]|[Hlast (l & HS)]].
  - change (cursorY h1) with (cursorY h) in Hlt.
    change (_height h1) with (_height h) in Hlt.
    destruct HS as [(_ & Hh' & Hp') _].
    rewrite Hp', (slotOf_header _ _ _ Hh').
    replace (cursorY tb - 1) with (cursorY h) by lia.
    change (slotOf (cursorAt 0 (cursorY h1 + 1) h1) (cursorY h))
      with (slotOf h (cursorY h)).
    unfold rows1, upd. by rewrite decide_True.
  - change (cursorY h1) with (cursorY h) in Hlast.
    change (_height h1) with (_height h) in Hlast.
    destruct HS as [(_ & Hh' & Hp') _].
    rewrite Hp', (slotOf_header _ _ _ Hh').
    rewrite slotOf_rotated by (cbn; lia).
    replace (cursorY tb - 1 + 1) with (cursorY h) by lia.
    change (slotOf (cursorAt 0 (_height h1 - 1) h1) (cursorY h))
      with (slotOf h (cursorY h)).
    change (slotOf h1 0) with (slotOf h 0).
    unfold upd at 1. rewrite decide_False by (apply slotOf_ne; lia).
    unfold rows1, upd. by rewrite decide_True.
Qed.

Lemma hoare_Prepare_noop h rows c (dbcsAttribute : DbcsAttribute) :
  cursorInside h ->
  (dbcsAttribute = Leading -> cursorX h <> lineWidthAt h rows (cursorY h) - 1) ->
  hoare (St h rows c) (_PrepareForDoubleByteSequence dbcsAttribute) (fun _ tb => St h rows c tb).
Proof.
  intros [Hx Hy] Hpad.
  assert (Hret : hoare (St h rows c) (ret tt) (fun _ tb => St h rows c tb)).
  { intros tb HS. by exists tt, tb. }
  unfold _PrepareForDoubleByteSequence.
  destruct dbcsAttribute; cbn [DbcsAttribute_eqb]; try exact Hret.
  apply hoare_read. intros tb0 HS0.
  pose proof (St_bounds _ _ _ _ HS0) as (Hh & Hw & Hf).
  rewrite (St_cursor _ _ _ _ HS0). apply hoare_drop.
  assert (Hsum : in_int32 (_firstRow h + cursorY h))
    by (unfold in_int32, INT32_MIN, INT32_MAX, UINT16_MAX in *; lia).
  eapply hoare_bind; [by apply hoare_GetLineWidth|]. intros lineWidth. cbv beta.
  intros tb1 [-> HS1].
  destruct (Z.eqb_spec (x (GetPosition (_cursor h)))
              (lineWidthAt h rows (y (GetPosition (_cursor h))) - 1)) as [E|_].
  - by destruct (Hpad eq_refl).
  - by apply Hret.
Qed.

(** X12: what [InsertCharacter] stores.  When no padding is due (the glyph is
    not the leading half of a wide glyph with the cursor on the last column
    of the line), the row of the cursor receives the glyph at the cursor (one
    column for [Single], two for [Leading], the two columns that end at the
    cursor for [Trailing]) and the attribute from the cursor column to the end
    of the row.  Inside the line no other row changes, the mutation
    counter is one higher, the cursor one column to the right, and no member
    changes otherwise.  From the last column, in a buffer of at least two
    rows, the row written is marked as wrapped and is the row above the
    cursor afterwards. *)
Theorem InsertCharacter_stores_glyph (chars : wstring) (dbcsAttribute : DbcsAttribute)
    (attr : TextAttribute) (tb : TextBuffer) :
  wf tb -> cursorInside tb ->
  (dbcsAttribute = Leading ->
   cursorX tb <> lineWidthAt tb (peekRow tb) (cursorY tb) - 1) ->
  exists tb',
    InsertCharacter chars dbcsAttribute attr tb = Some (tt, tb') /\
    (cursorX tb + 1 < lineWidthAt tb (peekRow tb) (cursorY tb) ->
       agrees (bumpMutationId (cursorAt (cursorX tb + 1) (cursorY tb) tb))
              (upd (slotOf tb (cursorY tb))
                   (storeGlyph chars dbcsAttribute attr (cursorX tb)) (peekRow tb))
              tb') /\
    (lineWidthAt tb (peekRow tb) (cursorY tb) <= cursorX tb + 1 -> 2 <= _height tb ->
       peekRow tb' (slotOf tb' (cursorY tb' - 1))
       = SetWrapForced true
           (storeGlyph chars dbcsAttribute attr (cursorX tb)
              (peekRow tb (slotOf tb (cursorY tb))))).
Proof.
  intros Hwf Hin Hpad.
  destruct (hoare_Prepare_noop tb (peekRow tb) 0 dbcsAttribute Hin Hpad tb
              (St_self tb Hwf)) as (u1 & tb1 & E1 & HS1).
  destruct (hoare_store tb (peekRow tb) 0 chars dbcsAttribute attr Hin tb1 HS1)
    as ([] & tb2 & E2 & HA).
  exists tb2. split.
  { unfold InsertCharacter. rewrite (bind_Some _ _ _ _ _ E1). exact E2. }
  assert (Elw : lineWidthAt (bumpMutationId tb)
                  (upd (slotOf tb (cursorY tb))
                       (storeGlyph chars dbcsAttribute attr (cursorX tb)) (peekRow tb))
                  (cursorY tb)
                = lineWidthAt tb (peekRow tb) (cursorY tb)).
  { change (lineWidthAt (bumpMutationId tb)) with (lineWidthAt tb).
    apply lineWidthAt_upd. intros r. apply storeGlyph_rendition. }
  split.
  - intros Hfit. destruct HA as [[_ HS]|[Hwrap _]].
    + by destruct HS.
    + change (cursorY (bumpMutationId tb)) with (cursorY tb) in Hwrap.
      change (cursorX (bumpMutationId tb)) with (cursorX tb) in Hwrap.
      rewrite Elw in Hwrap. lia.
  - intros Hwrap H2. rewrite <- Elw in Hwrap.
    assert (Hf : 0 <= _firstRow tb < _height tb) by (by destruct Hwf).
    rewrite (afterIncrement_wrapped_row (bumpMutationId tb) _ 0 tb2 Hf Hin H2 Hwrap HA).
    change (slotOf (bumpMutationId tb) (cursorY (bumpMutationId tb)))
      with (slotOf tb (cursorY tb)).
    unfold upd. by rewrite decide_True.
Qed.

(** ** Clearing, and the rows that were never committed *)

Lemma measureRight_blank (n : nat) : measureRight_cells (replicate n blankCell) = 0%nat.
Proof. induction n as [|n IH]; [done|]. simpl. by rewrite IH. Qed.

Lemma MeasureRight_construct (w : Z) (a : TextAttribute) :
  MeasureRight (ROW_construct w a) = 0.
Proof. unfold MeasureRight, ROW_construct. cbn. by rewrite measureRight_blank. Qed.

(** X13: [Reset] clears the text and nothing else.  Afterwards every row
    reads as a freshly constructed row of the buffer's width, filled with the
    attributes that were current, and no row counts as committed: the
    estimate of the last committed row is 0.  The ring position, the cursor,
    the marks, the hyperlink registry and the mutation counter are as
    before. *)
Theorem Reset_clears_only_text (tb : TextBuffer) :
  wf tb ->
  wf (Reset tb) /\
  (forall s, peekRow (Reset tb) s = ROW_construct (_width tb) (_currentAttributes tb)) /\
  (forall row, 0 <= row < _height tb ->
     exists tb', (r <- GetRowByOffset row ;; deref r) (Reset tb)
                 = Some (ROW_construct (_width tb) (_currentAttributes tb), tb')) /\
  _estimateOffsetOfLastCommittedRow (Reset tb) = 0 /\
  header (Reset tb) = header (with_initialAttributes (_currentAttributes tb) tb).
Proof.
  intros Hwf.
  assert (Hwf' : wf (Reset tb)).
  { destruct Hwf. split; try done. unfold Reset, _decommit, _destroy. cbn. lia. }
  assert (Hp : forall s, peekRow (Reset tb) s
                         = ROW_construct (_width tb) (_currentAttributes tb)).
  { intros s. unfold peekRow, Reset, _decommit, _destroy. cbn.
    by destruct (Nat.ltb_spec s 0); [lia|]. }
  split_and!; try done.
  intros row Hrow.
  destruct (read_row (Reset tb) row Hwf' Hrow) as (tb' & E & _).
  exists tb'. by rewrite E, Hp.
Qed.

Lemma past_estimate_blank (tb : TextBuffer) (row : Z) :
  wf tb -> _firstRow tb = 0 ->
  _estimateOffsetOfLastCommittedRow tb < row < _height tb ->
  peekRow tb (slotOf tb row) = ROW_construct (_width tb) (_initialAttributes tb).
Proof.
  intros Hwf Hf Hrow. unfold _estimateOffsetOfLastCommittedRow in Hrow.
  assert (Es : slotOf tb row = Z.to_nat (row + 1)).
  { unfold slotOf. rewrite Hf, Z.add_0_l, Z.mod_small by lia. done. }
  unfold peekRow. rewrite Es.
  by destruct (Nat.ltb_spec (Z.to_nat (row + 1)) (_commitWatermark tb)); [lia|].
Qed.

(** X14: in a buffer whose ring has not rotated, the rows below the estimate
    of the last committed row hold no text: a logical row past
    [_estimateOffsetOfLastCommittedRow] reads as a freshly constructed row,
    in which [MeasureRight] finds nothing.  This is what lets [SearchText]
    stop at the estimate. *)
Theorem rows_past_estimate_are_blank (tb : TextBuffer) (row : Z) :
  wf tb -> _firstRow tb = 0 ->
  _estimateOffsetOfLastCommittedRow tb < row < _height tb ->
  peekRow tb (slotOf tb row) = ROW_construct (_width tb) (_initialAttributes tb) /\
  rowIsEmpty tb (peekRow tb) row.
Proof.
  intros Hwf Hf Hrow. pose proof (past_estimate_blank tb row Hwf Hf Hrow) as Hp.
  split; [done|]. unfold rowIsEmpty. rewrite Hp. apply MeasureRight_construct.
Qed.




(** ** Positions on double-width rows *)

Lemma hoare_apply {A} (P : TextBuffer -> Prop) (Q : A -> TextBuffer -> Prop) (m : TB A) tb :
  hoare P m Q -> P tb -> exists a tb', m tb = Some (a, tb') /\ Q a tb'.
Proof. intros H. apply H. Qed.

Lemma row_in_int32 tb (row : Z) : wf tb -> 0 <= row < _height tb ->
  in_int32 (_firstRow tb + row).
Proof.
  intros [] H. unfold in_int32, INT32_MIN, INT32_MAX, UINT16_MAX in *. lia.
Qed.

Lemma hoare_BufferToScreenPosition h rows c (p : point) :
  in_int32 (_firstRow h + y p) ->
  hoare (St h rows c) (BufferToScreenPosition p)
    (fun q tb => q = mkPoint (wrap32 (x p * lineScale h rows (y p))) (y p) /\ St h rows c tb).
Proof.
  intros Hsum tb HS.
  destruct (hoare_IsDoubleWidthLine h rows c (y p) Hsum tb HS) as (dw & tb1 & E1 & -> & HS1).
  eexists _, tb1. unfold BufferToScreenPosition. rewrite (bind_Some _ _ _ _ _ E1).
  split; [reflexivity|]. split; [|done]. unfold lineScale.
  destruct (LineRendition_eqb _ _); cbn [negb].
  - by rewrite Z.shiftl_0_r, Z.mul_1_r.
  - by rewrite Z.shiftl_mul_pow2 by lia.
Qed.

Lemma hoare_ScreenToBufferPosition h rows c (p : point) :
  in_int32 (_firstRow h + y p) ->
  hoare (St h rows c) (ScreenToBufferPosition p)
    (fun q tb => q = mkPoint (x p / lineScale h rows (y p)) (y p) /\ St h rows c tb).
Proof.
  intros Hsum tb HS.
  destruct (hoare_IsDoubleWidthLine h rows c (y p) Hsum tb HS) as (dw & tb1 & E1 & -> & HS1).
  eexists _, tb1. unfold ScreenToBufferPosition. rewrite (bind_Some _ _ _ _ _ E1).
  split; [reflexivity|]. split; [|done]. unfold lineScale.
  destruct (LineRendition_eqb _ _); cbn [negb].
  - by rewrite Z.shiftr_0_r, Z.div_1_r.
  - by rewrite Z.shiftr_div_pow2 by lia.
Qed.

(** X16: a buffer position survives the way to the screen and back.  On a
    single-width row the screen column is the buffer column; on a
    double-width row [BufferToScreenPosition] doubles the column and
    [ScreenToBufferPosition] halves it again.  The other way round the
    column of a double-width row loses its lowest bit.  Neither function
    changes what the buffer holds.  The column is taken below 2^30, where
    the doubling stays inside the 32-bit coordinate. *)
Theorem BufferToScreenPosition_round_trip (tb : TextBuffer) (p : point) :
  wf tb -> 0 <= y p < _height tb -> 0 <= x p < 2 ^ 30 ->
  exists tb1 tb2 q' tb3 tb4,
    BufferToScreenPosition p tb
    = Some (mkPoint (x p * lineScale tb (peekRow tb) (y p)) (y p), tb1) /\
    ScreenToBufferPosition (mkPoint (x p * lineScale tb (peekRow tb) (y p)) (y p)) tb1
    = Some (p, tb2) /\
    agrees tb (peekRow tb) tb2 /\
    ScreenToBufferPosition p tb = Some (q', tb3) /\
    BufferToScreenPosition q' tb3
    = Some (mkPoint (x p - x p mod lineScale tb (peekRow tb) (y p)) (y p), tb4).
Proof.
  intros Hwf Hy Hx. pose proof (row_in_int32 tb (y p) Hwf Hy) as Hsum.
  pose proof (St_self tb Hwf) as HS.
  assert (Hw2 : forall v, 0 <= v < 2 ^ 31 -> wrap32 v = v).
  { intros v Hv. apply wrap32_id. unfold in_int32, INT32_MIN, INT32_MAX. lia. }
  assert (Hsc : lineScale tb (peekRow tb) (y p) = 1 \/ lineScale tb (peekRow tb) (y p) = 2).
  { unfold lineScale. destruct (LineRendition_eqb _ _); auto. }
  destruct (hoare_BufferToScreenPosition tb (peekRow tb) 0 p Hsum tb HS)
    as (q & tb1 & E1 & -> & HS1).
  rewrite Hw2 in * by (destruct Hsc as [-> | ->]; lia).
  destruct (hoare_ScreenToBufferPosition tb (peekRow tb) 0
              (mkPoint (x p * lineScale tb (peekRow tb) (y p)) (y p)) Hsum tb1 HS1)
    as (p' & tb2 & E2 & -> & HS2).
  cbn [x y] in E2. rewrite Z.div_mul in E2 by (destruct Hsc as [-> | ->]; lia).
  destruct (hoare_ScreenToBufferPosition tb (peekRow tb) 0 p Hsum tb HS)
    as (q' & tb3 & E3 & -> & HS3).
  destruct (hoare_BufferToScreenPosition tb (peekRow tb) 0
              (mkPoint (x p / lineScale tb (peekRow tb) (y p)) (y p)) Hsum tb3 HS3)
    as (p'' & tb4 & E4 & -> & HS4).
  cbn [x y] in E4.
  assert (Eback : x p / lineScale tb (peekRow tb) (y p) * lineScale tb (peekRow tb) (y p)
                  = x p - x p mod lineScale tb (peekRow tb) (y p)).
  { pose proof (Z.div_mod (x p) (lineScale tb (peekRow tb) (y p))
                  ltac:(destruct Hsc as [-> | ->]; lia)). lia. }
  rewrite Eback in E4.
  rewrite Hw2 in E4.
  2:{ pose proof (Z.mod_pos_bound (x p) (lineScale tb (peekRow tb) (y p))
                    ltac:(destruct Hsc as [-> | ->]; lia)). lia. }
  exists tb1, tb2, (mkPoint (x p / lineScale tb (peekRow tb) (y p)) (y p)), tb3, tb4.
  split_and!; try done.
  - by destruct p.
  - by destruct HS2.
Qed.

Lemma lineWidthAt_pos h rows (row : Z) : 2 <= _width h -> 1 <= lineWidthAt h rows row.
Proof.
  intros Hw. unfold lineWidthAt. destruct (LineRendition_eqb _ _).
  - rewrite Z.shiftr_0_r. lia.
  - rewrite Z.shiftr_div_pow2 by lia. change (2 ^ 1) with 2.
    apply Z.div_le_lower_bound; lia.
Qed.

(** X17: [ClampPositionWithinLine] clamps on the right only.  The row is
    kept, the column becomes the smaller of the column and the last column of
    the line (the line width being halved on a double-width row); a column
    inside the line, and a negative column, are returned as they are, and
    clamping twice is clamping once.  In a buffer of at least two columns a
    column that is not negative stays so.  The buffer is not changed. *)
Theorem ClampPositionWithinLine_clamps_right (tb : TextBuffer) (p : point) :
  wf tb -> 0 <= y p < _height tb ->
  exists q tb' tb'',
    ClampPositionWithinLine p tb = Some (q, tb') /\
    agrees tb (peekRow tb) tb' /\
    q = mkPoint (Z.min (x p) (lineWidthAt tb (peekRow tb) (y p) - 1)) (y p) /\
    ClampPositionWithinLine q tb' = Some (q, tb'') /\
    (x p < lineWidthAt tb (peekRow tb) (y p) -> q = p) /\
    (2 <= _width tb -> 0 <= x p -> 0 <= x q).
Proof.
  intros Hwf Hy. pose proof (row_in_int32 tb (y p) Hwf Hy) as Hsum.
  pose proof (St_self tb Hwf) as HS.
  destruct (hoare_GetLineWidth tb (peekRow tb) 0 (y p) Hsum tb HS)
    as (w & tb1 & E1 & -> & HS1).
  destruct (hoare_GetLineWidth tb (peekRow tb) 0 (y p) Hsum tb1 HS1)
    as (w & tb2 & E2 & -> & HS2).
  exists (mkPoint (Z.min (x p) (lineWidthAt tb (peekRow tb) (y p) - 1)) (y p)), tb1, tb2.
  unfold ClampPositionWithinLine. rewrite (bind_Some _ _ _ _ _ E1). cbn [x y].
  rewrite (bind_Some _ _ _ _ _ E2).
  split_and!; try done.
  - by destruct HS1.
  - unfold ret. do 3 f_equal. lia.
  - intros Hin. destruct p as [px py]. cbn [x y] in *. f_equal. lia.
  - intros Hw Hx. pose proof (lineWidthAt_pos tb (peekRow tb) (y p) Hw). lia.
Qed.

Lemma hoare_GetPreviousFromCursor h rows c :
  0 <= cursorY h < _height h ->
  hoare (St h rows c) _GetPreviousFromCursor
    (fun q tb =>
       St h rows c tb /\
       q = if 0 <? cursorX h then mkPoint (cursorX h - 1) (cursorY h)
           else if 0 <? cursorY h
                then mkPoint (lineWidthAt h rows (cursorY h - 1) - 1) (cursorY h - 1)
                else GetPosition (_cursor h)).
Proof.
  intros Hy. unfold _GetPreviousFromCursor. apply hoare_read. intros tb0 HS0.
  pose proof (St_bounds _ _ _ _ HS0) as (Hh & Hw & Hf).
  rewrite (St_cursor _ _ _ _ HS0). apply hoare_drop.
  fold (cursorX h). fold (cursorY h).
  destruct (0 <? cursorX h).
  { intros tb HS. by eexists _, tb. }
  destruct (Z.ltb_spec 0 (cursorY h)).
  - assert (Hsum : in_int32 (_firstRow h + (cursorY h - 1)))
      by (unfold in_int32, INT32_MIN, INT32_MAX, UINT16_MAX in *; lia).
    intros tb HS.
    destruct (hoare_GetLineWidth h rows c (cursorY h - 1) Hsum tb HS)
      as (w & tb1 & E1 & -> & HS1).
    eexists _, tb1. rewrite (bind_Some _ _ _ _ _ E1). by split.
  - intros tb HS. by eexists _, tb.
Qed.

(** X18: the position before the cursor is the cell the cursor came from.
    After [IncrementCursor] from a cell inside its line, in a buffer of at
    least two rows, [_GetPreviousFromCursor] returns the column the cursor
    had, in the row that holds the cells the cursor's row held: the same row
    when the cursor stayed in the line, the row above the cursor when it
    wrapped, whether the ring rotated or not. *)
Theorem GetPreviousFromCursor_after_IncrementCursor (tb : TextBuffer) :
  wf tb -> cursorInside tb -> 2 <= _height tb ->
  cursorX tb < lineWidthAt tb (peekRow tb) (cursorY tb) ->
  exists tb1 q tb2,
    IncrementCursor tb = Some (tt, tb1) /\
    _GetPreviousFromCursor tb1 = Some (q, tb2) /\
    x q = cursorX tb /\
    row_cells (peekRow tb1 (slotOf tb1 (y q)))
    = row_cells (peekRow tb (slotOf tb (cursorY tb))) /\
    (cursorX tb + 1 < lineWidthAt tb (peekRow tb) (cursorY tb) -> y q = cursorY tb1) /\
    (lineWidthAt tb (peekRow tb) (cursorY tb) <= cursorX tb + 1 -> y q = cursorY tb1 - 1).
Proof.
  intros Hwf Hin H2 Hline. pose proof Hin as [Hx Hy].
  pose proof Hwf as [Hh Hw Hf _ _].
  destruct (hoare_IncrementCursor tb (peekRow tb) 0 Hy Hx tb (St_self tb Hwf))
    as ([] & tb1 & E1 & HA).
  pose proof (afterIncrement_facts _ _ _ _ Hx Hy HA) as (Hwf1 & Hfr1 & Hin1).
  destruct (hoare_GetPreviousFromCursor tb1 (peekRow tb1) 0 (proj2 Hin1) tb1
              (St_self tb1 Hwf1)) as (q & tb2 & E2 & HS2 & Eq).
  exists tb1, q, tb2. split; [done|]. split; [done|].
  destruct (Z_lt_dec (cursorX tb + 1) (lineWidthAt tb (peekRow tb) (cursorY tb)))
    as [Hfit|Hwrap].
  - destruct HA as [[_ HS]|[Hc _]]; [|lia].
    pose proof (St_cursor _ _ _ _ HS) as Ec. cbn in Ec.
    assert (Ex : cursorX tb1 = cursorX tb + 1) by (unfold cursorX; by rewrite Ec).
    assert (Ey : cursorY tb1 = cursorY tb) by (unfold cursorY; by rewrite Ec).
    rewrite Ex, Ey in Eq.
    destruct (Z.ltb_spec 0 (cursorX tb + 1)); [|lia]. subst q. cbn [x y].
    destruct HS as [(_ & Hh' & Hp') _].
    rewrite Hp', (slotOf_header _ _ _ Hh').
    split_and!; try done; lia.
  - pose proof (afterIncrement_wrapped_row tb (peekRow tb) 0 tb1 Hf Hin H2 ltac:(lia) HA)
      as Hrow.
    destruct HA as [[Hc _]|[_ HN]]; [lia|].
    assert (Hw1 : 1 <= _width (bumpMutationId (cursorAt (cursorX tb + 1) (cursorY tb) tb)))
      by (cbn; lia).
    pose proof (afterNewline_facts _ _ _ _ Hw1 Hy HN) as (_ & _ & _ & HX & HY).
    change (cursorY (bumpMutationId (cursorAt (cursorX tb + 1) (cursorY tb) tb)))
      with (cursorY tb) in HY.
    change (_height (bumpMutationId (cursorAt (cursorX tb + 1) (cursorY tb) tb)))
      with (_height tb) in HY.
    rewrite HX in Eq. change (0 <? 0) with false in Eq. cbv iota in Eq.
    destruct (Z.ltb_spec 0 (cursorY tb1)); [|lia]. subst q. cbn [x y].
    rewrite Hrow. split_and!; try done; try lia.
    unfold lineWidthAt, lineRenditionAt. rewrite Hrow.
    change (GetLineRendition (SetWrapForced true (peekRow tb (slotOf tb (cursorY tb)))))
      with (GetLineRendition (peekRow tb (slotOf tb (cursorY tb)))).
    destruct Hfr1 as (-> & _).
    unfold lineWidthAt, lineRenditionAt in Hline, Hwrap. lia.
Qed.

(** ** Moving rows *)

Lemma bumpMutationIdBy_fields n : forall h,
  header (bumpMutationIdBy n h)
  = header (with_lastMutationId (_lastMutationId (bumpMutationIdBy n h)) h) /\
  (0 < n -> _lastMutationId (bumpMutationIdBy n h)
            = wrap64u (_lastMutationId h + Z.of_nat n))%nat.
Proof.
  induction n as [|n IH]; intros h.
  - split; [by destruct h|]. intros H. lia.
  - cbn [bumpMutationIdBy]. destruct (IH (bumpMutationId h)) as [IH1 IH2]. split.
    + rewrite IH1. done.
    + intros _. destruct n as [|n].
      * cbn. f_equal.
      * rewrite IH2 by lia. cbn [bumpMutationId _lastMutationId with_lastMutationId].
        unfold wrap64u. rewrite Zplus_mod_idemp_l. f_equal. lia.
Qed.

Lemma slotOf_bumpBy n : forall h j, slotOf (bumpMutationIdBy n h) j = slotOf h j.
Proof. induction n as [|n IH]; intros h j; [done|]. cbn. by rewrite IH. Qed.

Lemma scrolled_slots h h' (step delta : Z) (n : nat) : forall (y0 : Z) rows,
  (forall j, slotOf h' j = slotOf h j) ->
  scrolled h' n y0 step delta rows = scrolled h n y0 step delta rows.
Proof.
  induction n as [|n IH]; intros y0 rows Hs; [done|].
  cbn [scrolled]. rewrite !Hs. by apply IH.
Qed.

Lemma hoare_scrollLoop c (step delta : Z) :
  (step = 1 \/ step = -1) ->
  forall (n : nat) (y0 : Z) h rows,
    (forall i, 0 <= i < Z.of_nat n ->
       0 <= y0 + i * step < _height h /\ 0 <= y0 + i * step + delta < _height h) ->
    -65536 <= y0 <= 65536 ->
    hoare (St h rows c) (scrollLoop n y0 (y0 + Z.of_nat n * step) step delta)
          (fun _ tb => St (bumpMutationIdBy n h) (scrolled h n y0 step delta rows) c tb).
Proof.
  intros Hstep. induction n as [|n IH]; intros y0 h rows Hrange Hy0 tb HS.
  - cbn [scrollLoop]. replace (y0 + Z.of_nat 0 * step) with y0 by lia.
    rewrite Z.eqb_refl. by exists tt, tb.
  - cbn [scrollLoop].
    destruct (Z.eqb_spec y0 (y0 + Z.of_nat (S n) * step)) as [E|_]; [lia|].
    pose proof (St_bounds _ _ _ _ HS) as (Hh & Hw & Hf).
    destruct (Hrange 0 ltac:(lia)) as [Hy Hd]. rewrite Z.mul_0_l, Z.add_0_r in Hy, Hd.
    rewrite !add32_small
      by (unfold in_int32, INT32_MIN, INT32_MAX, UINT16_MAX in *; lia).
    assert (Hs1 : in_int32 (_firstRow h + (y0 + delta)))
      by (unfold in_int32, INT32_MIN, INT32_MAX, UINT16_MAX in *; lia).
    assert (Hs2 : in_int32 (_firstRow h + y0))
      by (unfold in_int32, INT32_MIN, INT32_MAX, UINT16_MAX in *; lia).
    destruct (hoare_GetMutableRowByOffset h rows c (y0 + delta) Hs1 tb HS)
      as (dst & tb1 & E1 & -> & HS1).
    destruct (hoare_getRow (bumpMutationId h) rows (Nat.max c (S (slotOf h (y0 + delta)))) y0
                Hs2 tb1 HS1) as (src & tb2 & E2 & -> & HS2).
    change (slotOf (bumpMutationId h) y0) with (slotOf h y0) in *.
    set (c2 := Nat.max (Nat.max c (S (slotOf h (y0 + delta)))) (S (slotOf h y0))) in *.
    destruct (hoare_deref (bumpMutationId h) rows c2 (slotOf h y0) ltac:(lia) tb2 HS2)
      as (source & tb3 & E3 & -> & HS3).
    destruct (hoare_assign (bumpMutationId h) rows c2 (slotOf h (y0 + delta))
                (CopyFrom (rows (slotOf h y0))) ltac:(lia) tb3 HS3)
      as (u & tb4 & E4 & HS4).
    apply (St_weaken _ _ _ c) in HS4; [|lia].
    destruct (IH (y0 + step) (bumpMutationId h)
                (upd (slotOf h (y0 + delta)) (CopyFrom (rows (slotOf h y0))) rows))
      with (tb := tb4) as (u' & tb5 & E5 & HS5); try done.
    + intros i Hi. cbn [_height bumpMutationId with_lastMutationId].
      specialize (Hrange (i + 1) ltac:(lia)).
      replace (y0 + step + i * step) with (y0 + (i + 1) * step) by lia. done.
    + destruct Hstep as [-> | ->]; unfold UINT16_MAX in *; lia.
    + exists u', tb5. split.
      2:{ cbn [bumpMutationIdBy scrolled].
          by rewrite <- (scrolled_slots h (bumpMutationId h)). }
      unfold GetRowByOffset.
      rewrite (bind_Some _ _ _ _ _ E1), (bind_Some _ _ _ _ _ E2),
        (bind_Some _ _ _ _ _ E3), (bind_Some _ _ _ _ _ E4).
      replace (y0 + Z.of_nat (S n) * step) with (y0 + step + Z.of_nat n * step) by lia.
      exact E5.
Qed.

Lemma scrolled_spec h (step delta : Z) :
  (step = 1 /\ delta < 0 \/ step = -1 /\ 0 < delta) ->
  0 <= _firstRow h < _height h ->
  forall (n : nat) (y0 : Z) rows,
    (forall i, 0 <= i < Z.of_nat n ->
       0 <= y0 + i * step < _height h /\ 0 <= y0 + i * step + delta < _height h) ->
    (forall i, 0 <= i < Z.of_nat n ->
       scrolled h n y0 step delta rows (slotOf h (y0 + i * step + delta))
       = CopyFrom (rows (slotOf h (y0 + i * step))) (rows (slotOf h (y0 + i * step + delta)))) /\
    (forall s, (forall i, 0 <= i < Z.of_nat n -> s <> slotOf h (y0 + i * step + delta)) ->
       scrolled h n y0 step delta rows s = rows s).
Proof.
  intros Hdir Hf. induction n as [|n IH]; intros y0 rows Hrange.
  { split; [intros i Hi; lia|done]. }
  cbn [scrolled].
  set (rows1 := upd (slotOf h (y0 + delta)) (CopyFrom (rows (slotOf h y0))) rows).
  assert (Hrange' : forall i, 0 <= i < Z.of_nat n ->
            0 <= y0 + step + i * step < _height h /\
            0 <= y0 + step + i * step + delta < _height h).
  { intros i Hi. specialize (Hrange (i + 1) ltac:(lia)).
    replace (y0 + step + i * step) with (y0 + (i + 1) * step) by lia. done. }
  destruct (IH (y0 + step) rows1 Hrange') as [IH1 IH2].
  destruct (Hrange 0 ltac:(lia)) as [Hy Hd]. rewrite Z.mul_0_l, Z.add_0_r in Hy, Hd.
  assert (Hothers : forall s,
            (forall i, 0 <= i < Z.of_nat (S n) -> s <> slotOf h (y0 + i * step + delta)) ->
            scrolled h n (y0 + step) step delta rows1 s = rows s).
  { intros s Hs. rewrite IH2.
    - unfold rows1, upd. rewrite decide_False; [done|].
      specialize (Hs 0 ltac:(lia)). by rewrite Z.mul_0_l, Z.add_0_r in Hs.
    - intros i Hi. specialize (Hs (i + 1) ltac:(lia)).
      by replace (y0 + step + i * step) with (y0 + (i + 1) * step) by lia. }
  split; [|exact Hothers].
  intros i Hi. destruct (Z.eq_dec i 0) as [->|Hne].
  - rewrite Z.mul_0_l, Z.add_0_r. rewrite IH2.
    + unfold rows1, upd. by rewrite decide_True.
    + intros j Hj. destruct (Hrange' j Hj) as [_ Hd'].
      apply slotOf_ne; try done. destruct Hdir as [[-> _]|[-> _]]; lia.
  - specialize (IH1 (i - 1) ltac:(lia)).
    replace (y0 + step + (i - 1) * step) with (y0 + i * step) in IH1 by lia.
    rewrite IH1. destruct (Hrange i Hi) as [Hyi Hdi].
    unfold rows1, upd.
    rewrite !decide_False; [done|..]; apply slotOf_ne; try done;
      destruct Hdir as [[-> ?]|[-> ?]]; lia.
Qed.

(** X19: [ScrollRows] moves a block of rows like [memmove].  For a block of
    [size] rows from [firstRow] on that lies in the buffer together with its
    destination, every row of the block is copied, with [ROW::CopyFrom], onto
    the row [delta] rows further, from the content it had before the call,
    also where the block and its destination overlap; the rows outside the
    destination are untouched.  The mutation counter advances once per row;
    no other member changes. *)
Theorem ScrollRows_moves_block (tb : TextBuffer) (firstRow size delta : Z) :
  wf tb -> delta <> 0 -> 0 <= size ->
  0 <= firstRow -> firstRow + size <= _height tb ->
  0 <= firstRow + delta -> firstRow + size + delta <= _height tb ->
  exists tb',
    ScrollRows firstRow size delta tb = Some (tt, tb') /\ wf tb' /\
    (forall row, firstRow <= row < firstRow + size ->
       peekRow tb' (slotOf tb' (row + delta))
       = CopyFrom (peekRow tb (slotOf tb row)) (peekRow tb (slotOf tb (row + delta)))) /\
    (forall row, 0 <= row < _height tb ->
       ~ (firstRow + delta <= row < firstRow + size + delta) ->
       peekRow tb' (slotOf tb' row) = peekRow tb (slotOf tb row)) /\
    header tb' = header (with_lastMutationId (_lastMutationId tb') tb) /\
    (0 < size -> _lastMutationId tb' = wrap64u (_lastMutationId tb + size)).
Proof.
  intros Hwf Hdelta Hsize H1 H2 H3 H4.
  pose proof Hwf as [Hh Hw Hf _ _].
  set (n := Z.to_nat size).
  set (step := if delta <? 0 then 1 else -1).
  set (y0 := if delta <? 0 then firstRow else firstRow + size - 1).
  assert (Hdir : step = 1 /\ delta < 0 \/ step = -1 /\ 0 < delta).
  { unfold step. destruct (Z.ltb_spec delta 0); [left|right]; split; lia. }
  assert (Hrange : forall i, 0 <= i < Z.of_nat n ->
            0 <= y0 + i * step < _height tb /\ 0 <= y0 + i * step + delta < _height tb).
  { intros i Hi. unfold y0, step. destruct (Z.ltb_spec delta 0); lia. }
  assert (Hloop : ScrollRows firstRow size delta tb
                  = scrollLoop n y0 (y0 + Z.of_nat n * step) step delta tb).
  { unfold ScrollRows. destruct (Z.eqb_spec delta 0) as [?|_]; [done|].
    rewrite Z.max_r by lia. fold n. unfold y0, step.
    destruct (Z.ltb_spec delta 0);
      rewrite ?(add32_small firstRow size)
        by (unfold in_int32, INT32_MIN, INT32_MAX, UINT16_MAX in *; lia);
      rewrite ?add32_small
        by (unfold in_int32, INT32_MIN, INT32_MAX, UINT16_MAX in *; lia);
      (f_equal; lia). }
  destruct (hoare_scrollLoop 0 step delta ltac:(destruct Hdir as [[? _]|[? _]]; auto)
              n y0 tb (peekRow tb) Hrange
              ltac:(unfold y0, UINT16_MAX in *; destruct (delta <? 0); lia)
              tb (St_self tb Hwf))
    as ([] & tb' & E & [(Hwf' & Hh' & Hp') _]).
  exists tb'. rewrite Hloop. split; [exact E|]. split; [exact Hwf'|].
  destruct (scrolled_spec tb step delta Hdir Hf n y0 (peekRow tb) Hrange) as [Hs1 Hs2].
  pose proof (bumpMutationIdBy_fields n tb) as [Hb1 Hb2].
  assert (Hslot : forall j, slotOf tb' j = slotOf tb j).
  { intros j. rewrite (slotOf_header _ _ _ Hh'). apply slotOf_bumpBy. }
  assert (Eid : _lastMutationId tb' = _lastMutationId (bumpMutationIdBy n tb)).
  { by apply header_fields in Hh' as (_ & _ & _ & _ & -> & _). }
  split_and!.
  - intros row Hrow. rewrite Hp', Hslot.
    assert (Hi : exists i, 0 <= i < Z.of_nat n /\ row = y0 + i * step).
    { exists (if delta <? 0 then row - firstRow else firstRow + size - 1 - row).
      unfold y0, step, n. destruct (Z.ltb_spec delta 0); lia. }
    destruct Hi as (i & Hi & ->). by apply Hs1.
  - intros row Hrow Hout. rewrite Hp', Hslot. apply Hs2.
    intros i Hi. destruct (Hrange i Hi) as [_ Hd]. apply slotOf_ne; try done.
    unfold y0, step, n in *. destruct (Z.ltb_spec delta 0); lia.
  - rewrite Hh', Eid. exact Hb1.
  - intros Hpos. rewrite Eid, Hb2 by lia. f_equal. unfold n. lia.
Qed.

(** ** Resizing without reflow *)






(** ** Measuring text: bounds *)

Lemma glyphs_positive (n : nat) : forall text : wstring,
  (length text <= n)%nat -> Forall (fun g => 1 <= fst g /\ 1 <= snd g) (glyphs text).
Proof.
  induction n as [|n IH]; intros [|wch tl] Hn; simpl in Hn; try lia; try by constructor.
  pose proof glyphColumns_bounds as Hb.
  cbn [glyphs]. destruct (wch <? 128).
  { constructor; [simpl; lia|apply IH; lia]. }
  destruct (is_surrogate wch).
  - destruct tl as [|wch2 tl2].
    + constructor; [|constructor]. simpl. specialize (Hb [UNICODE_REPLACEMENT]). lia.
    + destruct (is_leading_surrogate wch && is_trailing_surrogate wch2).
      * constructor; [simpl; specialize (Hb [wch; wch2]); lia|apply IH; simpl in *; lia].
      * constructor; [simpl; specialize (Hb [UNICODE_REPLACEMENT]); lia|apply IH; lia].
  - constructor; [simpl; specialize (Hb [wch]); lia|apply IH; lia].
Qed.

Lemma fitGlyphs_bounds (limit : Z) (gs : list (Z * Z)) :
  Forall (fun g => 1 <= fst g /\ 1 <= snd g) gs ->
  forall chars cols, cols <= limit ->
    chars <= fst (fitGlyphs limit gs chars cols) <= chars + sumChars gs /\
    cols <= snd (fitGlyphs limit gs chars cols) <= limit /\
    (snd (fitGlyphs limit gs chars cols) < limit ->
       fitGlyphs limit gs chars cols = (chars + sumChars gs, cols + sumColumns gs)) /\
    (fst (fitGlyphs limit gs chars cols) < chars + sumChars gs ->
       snd (fitGlyphs limit gs chars cols) = limit).
Proof.
  induction 1 as [|[len w] gs [Hl Hw] Hgs IH]; intros chars cols Hc.
  { unfold sumChars, sumColumns. simpl. split_and!; try lia. intros _. f_equal; lia. }
  assert (Hsum : sumChars ((len, w) :: gs) = len + sumChars gs) by done.
  assert (Hcol : sumColumns ((len, w) :: gs) = w + sumColumns gs) by done.
  assert (Hnn : 0 <= sumChars gs).
  { clear -Hgs. induction Hgs as [|g gs [Hg _] _ IHg]; unfold sumChars in *; simpl; lia. }
  rewrite Hsum, Hcol. cbn [fitGlyphs fst snd] in *.
  destruct (Z.leb_spec (cols + w) limit) as [Hfit|Hno].
  - destruct (IH (chars + len) (cols + w) Hfit) as (B1 & B2 & B3 & B4).
    split_and!; try lia; intros Hlt;
      first [rewrite B3 by done; f_equal; lia | apply B4; lia].
  - cbn [fst snd]. split_and!; try lia.
Qed.

Lemma fitGlyphs_mono (limit limit' : Z) (gs : list (Z * Z)) :
  Forall (fun g => 1 <= fst g /\ 1 <= snd g) gs -> limit <= limit' ->
  forall chars cols, cols <= limit ->
    fst (fitGlyphs limit gs chars cols) <= fst (fitGlyphs limit' gs chars cols).
Proof.
  intros Hgs Hll. induction Hgs as [|[len w] gs [Hl Hw] Hgs IH]; intros chars cols Hc.
  { done. }
  cbn [fitGlyphs]. cbn [fst snd] in Hl, Hw.
  destruct (Z.leb_spec (cols + w) limit) as [Hfit|Hno].
  - destruct (Z.leb_spec (cols + w) limit'); [|lia]. apply IH. lia.
  - cbn [fst]. destruct (Z.leb_spec (cols + w) limit') as [Hfit'|_]; [|done].
    pose proof (fitGlyphs_bounds limit' gs Hgs (chars + len) (cols + w) Hfit'). lia.
Qed.

(** X21: the result of [FitTextIntoColumns] stays inside the text and the
    budget, and a larger budget never fits less.  The number of characters
    is between 0 and the length of the text, the number of columns between 0
    and the budget; when fewer columns than the budget are reported the whole
    text was measured, and when not all of the text fits the columns reported
    are the whole budget.  The budget is taken where the 32-bit column
    counter cannot overflow. *)
Theorem FitTextIntoColumns_bounds (chars : wstring) (smaller columnLimit : Z) :
  smaller <= columnLimit <= INT32_MAX ->
  (columnLimit <= INT32_MAX - 2 \/ Z.of_nat (length chars) < 2 ^ 30) ->
  0 <= fst (FitTextIntoColumns chars columnLimit) <= Z.of_nat (length chars) /\
  0 <= snd (FitTextIntoColumns chars columnLimit) <= Z.max 0 columnLimit /\
  (snd (FitTextIntoColumns chars columnLimit) < columnLimit ->
     FitTextIntoColumns chars columnLimit = (Z.of_nat (length chars), textColumns chars)) /\
  (fst (FitTextIntoColumns chars columnLimit) < Z.of_nat (length chars) ->
     snd (FitTextIntoColumns chars columnLimit) = Z.max 0 columnLimit) /\
  fst (FitTextIntoColumns chars smaller) <= fst (FitTextIntoColumns chars columnLimit).
Proof.
  intros Hlim Hlen.
  rewrite (FitTextIntoColumns_fitSpec chars columnLimit) by (lia || done).
  rewrite (FitTextIntoColumns_fitSpec chars smaller)
    by (lia || (destruct Hlen; [left; lia|by right])).
  unfold fitSpec, textColumns.
  pose proof (glyphs_positive (length chars) chars ltac:(lia)) as Hpos.
  pose proof (sumChars_glyphs (length chars) chars ltac:(lia)) as Hsum.
  destruct (fitGlyphs_bounds (Z.max 0 columnLimit) (glyphs chars) Hpos 0 0 ltac:(lia))
    as (B1 & B2 & B3 & B4).
  rewrite Hsum, !Z.add_0_l in *.
  split_and!; try lia.
  - intros Hlt. apply B3. lia.
  - apply fitGlyphs_mono; [done|lia|lia].
Qed.

(** ** Clipboard formats: RTF text *)



Lemma foldl_digits_from (ds : list Z) : forall acc,
  foldl (fun a d => a * 10 + (d - 48)) acc ds
  = acc * 10 ^ Z.of_nat (length ds) + foldl (fun a d => a * 10 + (d - 48)) 0 ds.
Proof.
  induction ds as [|d ds IH]; intros acc.
  { cbn. lia. }
  cbn [foldl length]. rewrite IH, (IH (0 * 10 + (d - 48))).
  replace (Z.of_nat (S (length ds))) with (1 + Z.of_nat (length ds)) by lia.
  rewrite Z.pow_add_r by lia. lia.
Qed.






(** ** Clipboard formats: HTML *)

Lemma length_decimalDigits (fuel : nat) : forall (k : nat) (n : Z),
  0 <= n < 10 ^ Z.of_nat k -> (length (decimalDigits fuel n) <= Nat.max k 1)%nat.
Proof.
  induction fuel as [|fuel IH]; intros k n Hn; [simpl; lia|].
  cbn [decimalDigits]. rewrite length_app. cbn [length].
  destruct (Z.ltb_spec n 10) as [Hsmall|Hbig]; [simpl; lia|].
  destruct k as [|k]; [cbn in Hn; lia|].
  assert (Hq : 0 <= n / 10 < 10 ^ Z.of_nat k).
  { split; [apply Z.div_pos; lia|]. apply Z.div_lt_upper_bound; [lia|].
    replace (Z.of_nat (S k)) with (Z.of_nat k + 1) in Hn by lia.
    rewrite Z.pow_add_r in Hn by lia. lia. }
  specialize (IH k (n / 10) Hq).
  destruct k as [|k]; [cbn in Hq; assert (n / 10 = 0) by lia|lia].
  pose proof (Z.div_mod n 10 ltac:(lia)). pose proof (Z.mod_pos_bound n 10 ltac:(lia)). lia.
Qed.

Lemma length_setw10 (n : Z) :
  (10 <= length (setw10 n))%nat /\
  (0 <= n < 10 ^ 10 -> length (setw10 n) = 10%nat).
Proof.
  unfold setw10. rewrite length_app, length_replicate. split; [lia|].
  intros Hn. unfold to_string. destruct (Z.ltb_spec n 0); [lia|].
  pose proof (length_decimalDigits 20 10 n ltac:(lia)). lia.
Qed.

Lemma length_clipHeader (a b c d : Z) :
  (157 <= length (clipHeader a b c d))%nat /\
  (0 <= a < 10 ^ 10 -> 0 <= b < 10 ^ 10 -> 0 <= c < 10 ^ 10 -> 0 <= d < 10 ^ 10 ->
   length (clipHeader a b c d) = 157%nat).
Proof.
  unfold clipHeader. rewrite !length_app.
  change (length Literal.version) with 13%nat.
  change (length Literal.startHTML) with 10%nat.
  change (length Literal.endHTML) with 8%nat.
  change (length Literal.startFragmentKey) with 14%nat.
  change (length Literal.endFragmentKey) with 12%nat.
  change (length Literal.startSelection) with 15%nat.
  change (length Literal.endSelection) with 13%nat.
  change (length Literal.crlf) with 2%nat.
  pose proof (length_setw10 a) as [A1 A2]. pose proof (length_setw10 b) as [B1 B2].
  pose proof (length_setw10 c) as [C1 C2]. pose proof (length_setw10 d) as [D1 D2].
  split; [lia|]. intros Ha Hb Hc Hd.
  rewrite (A2 Ha), (B2 Hb), (C2 Hc), (D2 Hd). done.
Qed.

(** X23: the byte offsets in the header of the HTML clipboard format are
    right.  When [GenHTML] returns a document (the empty string stands for an
    exception) of less than 10^10 bytes, the document is the header, of
    exactly 157 bytes as [ClipboardHeaderSize] says, and the HTML text; the
    header gives 157 as the start of the HTML, the length of the document as
    its end, 157 + 35 as the start of the fragment, where the comment
    [<!--StartFragment -->] begins, and the length less 14 as its end, where
    [</BODY></HTML>] begins. *)
Theorem GenHTML_header_offsets (rows : TextAndColor) (fontHeightPoints : Z)
    (fontFaceName : wstring) (backgroundColor : Z) :
  let document := GenHTML rows fontHeightPoints fontFaceName backgroundColor in
  let n := Z.of_nat (length document) in
  document <> [] -> n < 10 ^ 10 ->
  exists fragment,
    document = clipHeader 157 n (157 + 35) (n - 14)
               ++ Literal.htmlHeader ++ Literal.startFragment ++ fragment
               ++ Literal.endFragment ++ Literal.HtmlFooter /\
    length (clipHeader 157 n (157 + 35) (n - 14)) = 157%nat /\
    length Literal.htmlHeader = 35%nat /\ length Literal.HtmlFooter = 14%nat.
Proof.
  intros document n. subst n document. unfold GenHTML.
  destruct (htmlFragment rows fontHeightPoints fontFaceName backgroundColor)
    as [fragment|]; [|done].
  cbv zeta. intros _ Hn. exists fragment.
  set (html := Literal.htmlHeader ++ Literal.startFragment ++ fragment
               ++ Literal.endFragment ++ Literal.HtmlFooter) in *.
  change (Z.of_nat (length Literal.htmlHeader)) with 35 in *.
  change (Z.of_nat (length Literal.HtmlFooter)) with 14 in *.
  unfold ClipboardHeaderSize in *.
  set (hdr := clipHeader 157 (157 + Z.of_nat (length html)) (157 + 35)
                (157 + Z.of_nat (length html) - 14)) in *.
  rewrite length_app in Hn.
  assert (Hlen : (14 <= length html)%nat).
  { unfold html. rewrite !length_app. change (length Literal.HtmlFooter) with 14%nat. lia. }
  destruct (length_clipHeader 157 (157 + Z.of_nat (length html)) (157 + 35)
              (157 + Z.of_nat (length html) - 14)) as [H1 H2]. fold hdr in H1, H2.
  assert (Ehdr : length hdr = 157%nat) by (apply H2; lia).
  rewrite length_app, Ehdr.
  replace (Z.of_nat (157 + length html)) with (157 + Z.of_nat (length html)) by lia.
  fold hdr. done.
Qed.

Lemma lineLength_step (rowText : list Z) : forall (col : nat) (ch : Z),
  (col <= lineLength rowText)%nat -> rowText !! col = Some ch ->
  (ch =? 13) || (ch =? 10) = false -> (S col <= lineLength rowText)%nat.
Proof.
  induction rowText as [|c tl IH]; intros col ch Hc Hl Hn; [done|].
  cbn [lineLength] in *. destruct col as [|col].
  - cbn in Hl. injection Hl as ->. rewrite Hn. lia.
  - destruct ((c =? 13) || (c =? 10)); [lia|].
    cbn in Hl. specialize (IH col ch ltac:(lia) Hl Hn). lia.
Qed.

Lemma htmlColumns_covered (rows : TextAndColor) (row : nat) (rowText : wstring)
    (fgRow bkRow : list Z) :
  FgAttr rows !! row = Some fgRow -> BkAttr rows !! row = Some bkRow ->
  (lineLength rowText <= length fgRow)%nat -> (lineLength rowText <= length bkRow)%nat ->
  forall (n col : nat) (st : HtmlLoop),
    (col + n <= length rowText)%nat -> (col <= lineLength rowText)%nat ->
    is_Some (htmlColumns n rows row rowText col st).
Proof.
  unfold wstring, wchar in *.
  intros Hfg Hbk Hlf Hlb. induction n as [|n IH]; intros col st Hn Hline; [by eexists|].
  cbn [htmlColumns]. unfold wstring, wchar in *.
  destruct (rowText !! col) as [ch|] eqn:Ech; [|apply lookup_ge_None_1 in Ech; lia].
  cbn [mbind option_bind].
  destruct ((ch =? 13) || (ch =? 10)) eqn:Enl; [by eexists|].
  pose proof (lineLength_step rowText col ch Hline Ech Enl) as Hnext.
  destruct (lookup_lt_is_Some_2 fgRow col ltac:(lia)) as [fg Efg].
  destruct (lookup_lt_is_Some_2 bkRow col ltac:(lia)) as [bk Ebk].
  rewrite Hfg. cbn [mbind option_bind]. rewrite Efg. cbn [mbind option_bind].
  rewrite Hbk. cbn [mbind option_bind]. rewrite Ebk. cbn [mbind option_bind].
  match goal with |- context [htmlColumns n rows row rowText (S col) ?s] =>
    destruct (IH (S col) s ltac:(lia) Hnext) as [r ->] end.
  by eexists.
Qed.

Lemma htmlRows_covered (rows : TextAndColor) : forall (texts : list wstring) (row : nat)
    (st : HtmlLoop),
  (forall i rowText, texts !! i = Some rowText ->
     exists fgRow bkRow,
       FgAttr rows !! (row + i)%nat = Some fgRow /\ BkAttr rows !! (row + i)%nat = Some bkRow /\
       (lineLength rowText <= length fgRow)%nat /\
       (lineLength rowText <= length bkRow)%nat) ->
  is_Some (htmlRows texts rows row st).
Proof.
  induction texts as [|rowText texts IH]; intros row st Hcov; [by eexists|].
  cbn [htmlRows].
  destruct (Hcov 0%nat rowText eq_refl) as (fgRow & bkRow & Hfg & Hbk & Hlf & Hlb).
  rewrite Nat.add_0_r in Hfg, Hbk.
  destruct (htmlColumns_covered rows row rowText fgRow bkRow Hfg Hbk Hlf Hlb
              (length rowText) 0 (mkHtmlLoop 0 (fgColor st) (bkColor st)
                                     (hasWrittenAnyText st)) ltac:(lia) ltac:(lia))
    as [cols ->].
  cbn [mbind option_bind].
  destruct (IH (S row) (snd cols)) as [rest ->]; [|by eexists].
  intros i t Hi. specialize (Hcov (S i) t Hi).
  by replace (S row + i)%nat with (row + S i)%nat by lia.
Qed.

(** X24: [GenHTML] fails only for want of a colour.  When every character of
    the text, up to the carriage return or line feed that ends its row, has
    its foreground and its background colour, the loops never throw and the
    result is a document, not the empty string; when the first
    row starts with a character, other than a carriage return or a line feed,
    that has no foreground colour, the [at ()] throws and the result is the
    empty string. *)
Theorem GenHTML_needs_the_colours (rows : TextAndColor) (fontHeightPoints : Z)
    (fontFaceName : wstring) (backgroundColor : Z) :
  (coloursCover rows ->
   GenHTML rows fontHeightPoints fontFaceName backgroundColor <> []) /\
  (forall ch rowText tl,
     tc_text rows = (ch :: rowText) :: tl -> ch <> 13 -> ch <> 10 -> FgAttr rows = [] ->
     GenHTML rows fontHeightPoints fontFaceName backgroundColor = []).
Proof.
  split.
  - intros Hcov. unfold GenHTML, htmlFragment.
    destruct (htmlRows_covered rows (tc_text rows) 0 (mkHtmlLoop 0 None None false))
      as [body ->]; [intros i t Hi; by apply Hcov|].
    cbn [mbind option_bind]. cbv zeta. intros E.
    apply (f_equal (@length Z)) in E. rewrite length_app in E.
    pose proof (length_clipHeader ClipboardHeaderSize
      (ClipboardHeaderSize + Z.of_nat (length (Literal.htmlHeader ++ Literal.startFragment
         ++ (divStyle fontHeightPoints fontFaceName backgroundColor ++ body.1
             ++ (if hasWrittenAnyText body.2 then Literal.spanClose else [])
             ++ Literal.divClose) ++ Literal.endFragment ++ Literal.HtmlFooter)))
      (ClipboardHeaderSize + Z.of_nat (length Literal.htmlHeader))
      (ClipboardHeaderSize + Z.of_nat (length (Literal.htmlHeader ++ Literal.startFragment
         ++ (divStyle fontHeightPoints fontFaceName backgroundColor ++ body.1
             ++ (if hasWrittenAnyText body.2 then Literal.spanClose else [])
             ++ Literal.divClose) ++ Literal.endFragment ++ Literal.HtmlFooter))
       - Z.of_nat (length Literal.HtmlFooter))) as [H1 _].
    cbn [length] in E. lia.
  - intros ch rowText tl Et H13 H10 Efg. unfold GenHTML, htmlFragment.
    rewrite Et. cbn [htmlRows length htmlColumns lookup list_lookup mbind option_bind].
    destruct (Z.eqb_spec ch 13); [done|]. destruct (Z.eqb_spec ch 10); [done|].
    cbn [orb]. rewrite Efg. done.
Qed.

(** ** Resetting line renditions *)






(** ** The colour table of RTF *)

Lemma getColorTableIndex_lookup (color : Z) (t : ColorTable) :
  colorMap (snd (getColorTableIndex color t)) !! color
  = Some (fst (getColorTableIndex color t)).
Proof.
  unfold getColorTableIndex. destruct (colorMap t !! color) as [index|] eqn:E; [done|].
  cbn [fst snd colorMap]. by rewrite lookup_insert_eq.
Qed.

Lemma tableLists_step (order : list Z) (color : Z) (t : ColorTable) :
  tableLists order t ->
  tableLists (if decide (color ∈ order) then order else order ++ [color])
             (snd (getColorTableIndex color t)).
Proof.
  intros (Hnd & Htab & Hsz & Hmap). unfold getColorTableIndex.
  destruct (colorMap t !! color) as [index|] eqn:E.
  - apply Hmap in E as [Hi Hl]. apply list_elem_of_lookup_2 in Hl.
    destruct (decide (color ∈ order)); [|done]. by split_and!.
  - assert (Hnew : color ∉ order).
    { intros Hin. apply list_elem_of_lookup_1 in Hin as [k Hk].
      assert (Hsome : colorMap t !! color = Some (S k)).
      { apply Hmap. split; [lia|]. by replace (S k - 1)%nat with k by lia. }
      congruence. }
    destruct (decide (color ∈ order)); [done|].
    unfold tableLists. cbn [snd colorMap colorTableBuilder]. split; [|split; [|split]].
    + apply NoDup_app. split; [done|]. split; [|apply NoDup_singleton].
      intros c Hc Hc1. apply list_elem_of_singleton in Hc1. by subst c.
    + rewrite Htab, flat_map_app. cbn [flat_map]. by rewrite app_nil_r, app_assoc.
    + rewrite map_size_insert_None by done. rewrite length_app. cbn [length]. lia.
    + intros c index. rewrite lookup_snoc_Some.
      destruct (decide (color = c)) as [->|Hne].
      * rewrite lookup_insert_eq. split.
        -- intros [= <-]. split; [lia|]. right. split; [lia|done].
        -- intros [Hi [[Hlt Hl]|[Hlen _]]].
           ++ apply list_elem_of_lookup_2 in Hl. done.
           ++ f_equal. lia.
      * rewrite lookup_insert_ne by done. rewrite Hmap. split.
        -- intros [Hi Hl]. split; [done|]. left. split; [|done].
           by apply lookup_lt_Some in Hl.
        -- intros [Hi [[Hlt Hl]|[_ Heq]]]; [done|]. done.
Qed.

Lemma tableLists_calls (colors : list Z) : forall (order : list Z) (t : ColorTable),
  tableLists order t ->
  tableLists
    (foldl (fun order color => if decide (color ∈ order) then order else order ++ [color])
           order colors)
    (foldl (fun t color => snd (getColorTableIndex color t)) t colors).
Proof.
  induction colors as [|color colors IH]; intros order t Ht; [done|].
  cbn [foldl]. apply IH. by apply tableLists_step.
Qed.

(** X27: the index [getColorTableIndex] returns for a colour is the place of
    the colour in the colour table.  After any calls of the lambda, from the
    empty map of [GenRTF] on, the table holds one entry for each colour asked
    for, in the order of their first use and none twice; a call returns,
    counted from 1, the place of the entry of its colour, so that the index 0
    stays with the default colour; and a second call for the same colour
    returns the same index and writes nothing. *)
Theorem getColorTableIndex_is_table_position (colors : list Z) (color : Z) :
  let call := getColorTableIndex color (colorTableAfter colors) in
  tableLists (firstUses (colors ++ [color])) (snd call) /\
  (1 <= fst call)%nat /\
  firstUses (colors ++ [color]) !! (fst call - 1)%nat = Some color /\
  getColorTableIndex color (snd call) = call.
Proof.
  intros call.
  assert (Ht : tableLists (firstUses (colors ++ [color])) (snd call)).
  { unfold call, firstUses, colorTableAfter. rewrite foldl_app. cbn [foldl].
    apply tableLists_step. apply tableLists_calls.
    split; [constructor|]. split; [by rewrite app_nil_r|]. split; [done|].
    intros c index. cbn [emptyColorTable colorMap]. rewrite lookup_empty.
    split; [done|]. by intros [_ ?]. }
  pose proof (getColorTableIndex_lookup color (colorTableAfter colors)) as Hl.
  fold call in Hl.
  destruct Ht as (Hnd & Htab & Hsz & Hmap).
  pose proof (proj1 (Hmap color (fst call)) Hl) as [Hi Hpos].
  split; [done|]. split; [exact Hi|]. split; [exact Hpos|].
  unfold getColorTableIndex at 1. rewrite Hl. by destruct call.
Qed.
End TextBufferModel.

(** * The properties on sample buffers *)

Lemma digitsBuffer_wf : wf digitsBuffer.
Proof. split; try reflexivity; cbn; unfold UINT16_MAX; lia. Qed.

Lemma GetRowByOffset_physical_slot_witness :
  wf digitsBuffer /\ in_int32 (-1) /\ in_int32 (_firstRow digitsBuffer + -1) /\
  exists tb', GetRowByOffset 128 (-1) digitsBuffer = Some (5%nat, tb') /\
              _lastMutationId tb' = _lastMutationId digitsBuffer.
Proof.
  assert (H1 : in_int32 (-1)) by (unfold in_int32, INT32_MIN, INT32_MAX; lia).
  assert (H2 : in_int32 (_firstRow digitsBuffer + -1))
    by (unfold in_int32, INT32_MIN, INT32_MAX; simpl; lia).
  split; [exact digitsBuffer_wf|]. split; [exact H1|]. split; [exact H2|].
  destruct (GetRowByOffset_physical_slot 128 digitsBuffer (-1) digitsBuffer_wf H1 H2)
    as (_ & (tb' & E & Hm & _) & _).
  exists tb'. split; [exact E|exact Hm].
Defined.

Lemma FitTextIntoColumns_characters_that_fit_witness :
  0 <= 2 <= INT32_MAX /\
  (2 <= INT32_MAX - 2 \/ Z.of_nat (length [97; 0x4E2D; 98]) < 2 ^ 30) /\
  exists taken left,
    glyphs cjkFullWidth [97; 0x4E2D; 98] = taken ++ left /\
    fst (FitTextIntoColumns cjkFullWidth [97; 0x4E2D; 98] 2) = sumChars taken.
Proof.
  assert (H1 : 0 <= 2 <= INT32_MAX) by (unfold INT32_MAX; lia).
  assert (H2 : 2 <= INT32_MAX - 2 \/ Z.of_nat (length [97; 0x4E2D; 98]) < 2 ^ 30)
    by (left; unfold INT32_MAX; lia).
  split; [exact H1|]. split; [exact H2|].
  destruct (proj1 (FitTextIntoColumns_characters_that_fit cjkFullWidth
                     [97; 0x4E2D; 98] 2 H1 H2))
    as (taken & left & E & _ & Hf & _).
  exists taken, left. split; [exact E|exact Hf].
Defined.

Lemma FitTextIntoColumns_nonpositive_budget_witness :
  -3 <= 0 /\ FitTextIntoColumns cjkFullWidth [97; 0x4E2D; 98] (-3) = (0, 0).
Proof.
  split; [lia|]. apply FitTextIntoColumns_nonpositive_budget. lia.
Defined.

Lemma linkedBuffer_wf : wf linkedBuffer.
Proof. split; try reflexivity; cbn; unfold UINT16_MAX; lia. Qed.

(** In [linkedBuffer] the hyperlink id 1 is referenced by the row the next
    rotation recycles and by no other row. *)
Lemma linkedBuffer_onlyInRecycledRow : onlyInRecycledRow linkedBuffer 1.
Proof.
  split.
  - unfold referencedBy. vm_compute. left.
  - intros j Hj. simpl in Hj. unfold referencedBy.
    assert (Hc : j = 1 \/ j = 2 \/ j = 3 \/ j = 4) by lia.
    destruct Hc as [-> | [-> | [-> | ->]]]; vm_compute; apply not_elem_of_nil.
Qed.

Lemma NewlineCursor_rotates_ring_witness :
  wf linkedBuffer /\ in_int32 (y (GetPosition (_cursor linkedBuffer)) + 1) /\
  NewlineCursor 128 linkedBuffer
  = IncrementCircularBuffer 128 defaultTextAttribute
      (with_cursor (SetYPosition 4 (SetXPosition 0 (_cursor linkedBuffer))) linkedBuffer) /\
  exists tb',
    IncrementCircularBuffer 128 defaultTextAttribute linkedBuffer = Some (tt, tb') /\
    _firstRow tb' = 1 /\
    _hyperlinkMap tb' !! 1 = None /\
    pairsWithId 1 (_hyperlinkCustomIdMap tb') = [].
Proof.
  assert (H1 : in_int32 (y (GetPosition (_cursor linkedBuffer)) + 1))
    by (unfold in_int32, INT32_MIN, INT32_MAX; simpl; lia).
  split; [exact linkedBuffer_wf|]. split; [exact H1|].
  destruct (NewlineCursor_rotates_ring 128 linkedBuffer defaultTextAttribute
              linkedBuffer_wf H1) as (_ & Hrot & Hsteps).
  split.
  { apply Hrot. simpl. lia. }
  destruct Hsteps as (tb1 & tb2 & tb3 & tb4 & _ & _ & _ & _ & E & _ & Hpruned & _ & _ & _
                      & Hfirst & _ & Hmap & _ & _ & Hpairs & _ & _ & Hcmap).
  exists tb4. split; [exact E|]. split; [exact Hfirst|]. split.
  - rewrite Hmap. exact (Hpruned 1 linkedBuffer_onlyInRecycledRow).
  - rewrite Hcmap. exact (Hpairs 1 linkedBuffer_onlyInRecycledRow).
Defined.

Lemma IncrementCircularBuffer_prunes_registry_witness :
  wf linkedBuffer /\
  exists tb',
    IncrementCircularBuffer 128 defaultTextAttribute linkedBuffer = Some (tt, tb') /\
    _hyperlinkMap tb' !! 1 = None /\
    forall customId, (customId, 1) ∉ _hyperlinkCustomIdMap tb'.
Proof.
  split; [exact linkedBuffer_wf|].
  destruct (IncrementCircularBuffer_prunes_registry 128 linkedBuffer defaultTextAttribute
              linkedBuffer_wf) as (tb' & E & _ & Hpruned).
  destruct (Hpruned 1 linkedBuffer_onlyInRecycledRow) as (Hmap & _ & Hnone).
  exists tb'. split; [exact E|]. split; [exact Hmap|].
  apply Hnone. vm_compute. apply le_n.
Defined.

Lemma ScrollMarks_shift_and_trim_witness :
  1 < _height markedBuffer /\
  exists m, _marks (ScrollMarks (-1) markedBuffer) = [m] /\ mark_start m = mkPoint 0 1.
Proof.
  assert (H1 : 1 < _height markedBuffer) by (simpl; lia).
  split; [exact H1|].
  exact (proj1 (proj2 (proj2 (proj2 (ScrollMarks_shift_and_trim markedBuffer (-1)))))
           _ _ H1 eq_refl eq_refl eq_refl).
Defined.

Lemma SearchText_rejects_spaces_witness :
  Forall (fun ch => ch = SPACE) [32; 32] /\
  SearchText literalFindAll [32; 32] false 0 CoordTypeMax digitsBuffer = [].
Proof.
  assert (H1 : Forall (fun ch => ch = SPACE) [32; 32]) by (repeat constructor).
  split; [exact H1|].
  exact (proj1 (SearchText_rejects_spaces literalFindAll [32; 32] false 0 CoordTypeMax
                  digitsBuffer H1)).
Defined.

Lemma SetCurrent_on_no_marks_witness :
  _marks digitsBuffer = [] /\
  SetCurrentPromptEnd (mkPoint 1 1) digitsBuffer = digitsBuffer.
Proof.
  split; [reflexivity|].
  exact (proj1 (SetCurrent_on_no_marks digitsBuffer (mkPoint 1 1) 0 eq_refl)).
Defined.

(** C2: a resize must leave the cursor inside the new buffer, as the two
    asserts at the end of [Reflow] say.  Here the old buffer has 2 columns
    and 3 rows, "abcd" was typed, wrapping the rows "ab" and "cd", and the
    cursor was put on the "d" at (1,1); the new buffer has 2 columns and 1 row.
    [Reflow] leaves the cursor of the new buffer at (1,1), one row below its
    only row: the walk ends with [newY] equal to the new height, which
    [if (newY > newHeight)] does not take for a rotation. *)
Theorem Reflow_cursor_below_last_row :
  exists old old' new' info,
    wrappedBuffer 128 = Some old /\
    wf old /\ _width old = 2 /\ _height old = 3 /\
    GetPosition (_cursor old) = mkPoint 1 1 /\
    runReflow 128 8 None None old (TextBuffer_new 2 1 defaultTextAttribute 25 true 1)
      = Some (old', new', info) /\
    _width new' = 2 /\ _height new' = 1 /\
    GetPosition (_cursor new') = mkPoint 1 1 /\
    ~ reflowAsserts new'.
Proof.
  eexists _, _, _, _.
  split; [vm_compute; reflexivity|].
  split; [split; try reflexivity; cbn; unfold UINT16_MAX; lia|].
  split; [reflexivity|]. split; [reflexivity|]. split; [reflexivity|].
  split; [vm_compute; reflexivity|].
  split; [reflexivity|]. split; [reflexivity|]. split; [reflexivity|].
  unfold reflowAsserts. simpl. lia.
Qed.

(** C4: the leading cell of a two-column glyph inserted on the last column
    must pad that column with a space.  In the specification's example (10
    columns, 5 rows, every row "0123456789", the cursor at (9,0)) the insertion
    of U+4E2D marks the first row as padded and stores the glyph at column 0
    of the next row, but column 9 of the first row still holds "9". *)
Theorem InsertCharacter_keeps_last_column :
  exists tb',
    InsertCharacter 128 [0x4E2D] Leading defaultTextAttribute digitsBuffer
      = Some (tt, tb') /\
    cellAt tb' 1 9 = Some (mkCell [57] Single) /\
    cellAt tb' 1 9 <> Some blankCell /\
    paddedAt tb' 1 = Some true /\
    cellAt tb' 2 0 = Some (mkCell [0x4E2D] Leading) /\
    cellAt tb' 2 1 = Some (mkCell [0x4E2D] Trailing) /\
    GetPosition (_cursor tb') = mkPoint 1 1.
Proof.
  eexists. split; [vm_compute; reflexivity|].
  repeat split; try reflexivity. discriminate.
Qed.

(** C7 as stated fails: the buffer [oneRowMarkedBuffer] has one row and the
    two marks of the example, starting at (0,0) and at (0,2);
    [ScrollMarks (-1)] moves them to the rows -1 and 1, which are both outside
    the buffer, and leaves no mark where the claim says it leaves one. *)
Lemma ScrollMarks_example_in_one_row :
  _height oneRowMarkedBuffer = 1 /\
  (exists m1 m2, _marks oneRowMarkedBuffer = [m1; m2] /\
                 mark_start m1 = mkPoint 0 0 /\ mark_start m2 = mkPoint 0 2) /\
  _marks (ScrollMarks (-1) oneRowMarkedBuffer) = [].
Proof.
  split; [reflexivity|]. split; [|vm_compute; reflexivity].
  eexists _, _. split; [reflexivity|]. split; reflexivity.
Qed.

(** C6: a hyperlink id that no row references any more stays in the
    custom-id map, which the claim and the comments of [_PruneHyperlinks] and
    [RemoveHyperlinkFromMap] say it leaves.  In a buffer where the custom ids
    "a" and "b" both map to the numeric id 1, which only the recycled row
    references, one rotation erases 1 from the id-to-URI map and the first of
    the two custom ids, and a custom id still maps to 1 afterwards. *)
Lemma IncrementCircularBuffer_leaves_custom_id :
  exists tb tb',
    sharedIdBuffer 128 constantHash = Some (1, 1, tb) /\
    wf tb /\ onlyInRecycledRow tb 1 /\
    IncrementCircularBuffer 128 defaultTextAttribute tb = Some (tt, tb') /\
    _hyperlinkMap tb' !! 1 = None /\
    exists customId, (customId, 1) ∈ _hyperlinkCustomIdMap tb'.
Proof.
  eexists _, _.
  split; [vm_compute; reflexivity|].
  split; [split; try reflexivity; cbn; unfold UINT16_MAX; lia|].
  split.
  { split.
    - unfold referencedBy. vm_compute. left.
    - intros j Hj. assert (j = 1) as -> by (simpl in Hj; lia).
      unfold referencedBy. vm_compute. apply not_elem_of_nil. }
  split; [vm_compute; reflexivity|].
  split; [reflexivity|]. eexists. vm_compute. left.
Qed.

(** C8 as stated fails: a needle made of a horizontal tab, a whitespace
    character, is not rejected; it is handed to the search engine, which
    finds the tab stored in the buffer. *)
Lemma SearchText_tab_needle_is_searched :
  Forall (fun ch => isWhitespaceChar ch = true) [9] /\
  exists tb,
    tabBuffer 128 = Some tb /\
    SearchText literalFindAll [9] false 0 CoordTypeMax tb
    = [mkSpan (mkPoint 0 0) (mkPoint 0 0)].
Proof.
  split; [by repeat constructor|].
  eexists. split; [vm_compute; reflexivity|]. reflexivity.
Qed.

Lemma digitsBuffer_registry_ok : registry_ok digitsBuffer.
Proof. split; [unfold validId, UINT16_MAX; simpl; lia|constructor]. Qed.

Lemma GetHyperlinkId_never_zero_witness :
  registry_ok digitsBuffer /\
  exists n tb', GetHyperlinkId constantHash [117] [97] digitsBuffer = Some (n, tb') /\
                validId n.
Proof.
  split; [exact digitsBuffer_registry_ok|].
  destruct (GetHyperlinkId_never_zero constantHash [117] [97] digitsBuffer
              digitsBuffer_registry_ok) as (n & tb' & E & Hn & _).
  exists n, tb'. split; [exact E|exact Hn].
Defined.

Lemma GetHyperlinkId_custom_id_reused_witness :
  [97] <> ([] : wstring) /\
  exists n tb',
    GetHyperlinkId constantHash [117] [97] digitsBuffer = Some (n, tb') /\
    GetHyperlinkId constantHash [117] [97] tb' = Some (n, tb').
Proof.
  split; [discriminate|].
  eexists _, _. split; [vm_compute; reflexivity|].
  apply (GetHyperlinkId_custom_id_reused constantHash [117] [97] digitsBuffer);
    [discriminate|vm_compute; reflexivity].
Defined.

Lemma GetCustomIdFromId_round_trip_witness :
  [97] <> ([] : wstring) /\
  customIdLookup (customKey constantHash [117] [97]) (_hyperlinkCustomIdMap digitsBuffer)
  = None /\
  countId (_currentHyperlinkId digitsBuffer) (_hyperlinkCustomIdMap digitsBuffer) = 0%nat /\
  exists tb',
    GetHyperlinkId constantHash [117] [97] digitsBuffer = Some (1, tb') /\
    GetCustomIdFromId 1 tb' = customKey constantHash [117] [97].
Proof.
  assert (H1 : [97] <> ([] : wstring)) by discriminate.
  split; [exact H1|]. split; [reflexivity|]. split; [reflexivity|].
  destruct (GetCustomIdFromId_round_trip constantHash [117] [97] digitsBuffer H1
              eq_refl eq_refl) as (tb' & E & Hk & _).
  exists tb'. split; [exact E|exact Hk].
Defined.

Lemma digitsBuffer_cursorInside : cursorInside digitsBuffer.
Proof. unfold cursorInside, cursorX, cursorY. simpl. lia. Qed.

Lemma GetScratchpadRow_leaves_rows_witness :
  wf digitsBuffer /\
  exists tb', GetScratchpadRow 128 defaultTextAttribute digitsBuffer = Some (0%nat, tb') /\
              header tb' = header digitsBuffer.
Proof.
  split; [exact digitsBuffer_wf|].
  destruct (GetScratchpadRow_leaves_rows 128 digitsBuffer defaultTextAttribute digitsBuffer_wf)
    as (tb' & E & _ & Hh & _).
  exists tb'. split; [exact E|exact Hh].
Defined.

Lemma IncrementCircularBuffer_scrolls_rows_witness :
  wf digitsBuffer /\
  exists tb', IncrementCircularBuffer 128 defaultTextAttribute digitsBuffer = Some (tt, tb') /\
              _cursor tb' = _cursor digitsBuffer.
Proof.
  split; [exact digitsBuffer_wf|].
  destruct (IncrementCircularBuffer_scrolls_rows 128 digitsBuffer defaultTextAttribute
              digitsBuffer_wf) as (tb' & E & _ & _ & _ & _ & _ & Hc & _).
  exists tb'. split; [exact E|exact Hc].
Defined.

Lemma digitsBuffer_fullyCommitted : fullyCommitted digitsBuffer.
Proof. reflexivity. Qed.

Lemma IncrementCursor_advances_or_wraps_witness :
  wf digitsBuffer /\ cursorInside digitsBuffer /\ fullyCommitted digitsBuffer /\
  exists tb', IncrementCursor 128 digitsBuffer = Some (tt, tb') /\
              _commitWatermark tb' = _commitWatermark digitsBuffer /\
              cursorInside tb'.
Proof.
  split; [exact digitsBuffer_wf|]. split; [exact digitsBuffer_cursorInside|].
  split; [exact digitsBuffer_fullyCommitted|].
  destruct (IncrementCursor_advances_or_wraps 128 digitsBuffer digitsBuffer_wf
              digitsBuffer_cursorInside) as (Heffect & Hreturns).
  destruct (Hreturns digitsBuffer_fullyCommitted) as (tb' & E & Hw).
  exists tb'. split; [exact E|]. split; [exact Hw|].
  exact (proj1 (proj2 (proj2 (Heffect tb' E)))).
Defined.

Lemma InsertCharacter_keeps_cursor_inside_witness :
  wf digitsBuffer /\ cursorInside digitsBuffer /\ fullyCommitted digitsBuffer /\
  exists tb', InsertCharacter 128 [0x4E2D] Leading defaultTextAttribute digitsBuffer
              = Some (tt, tb') /\
              _commitWatermark tb' = _commitWatermark digitsBuffer /\
              cursorInside tb'.
Proof.
  split; [exact digitsBuffer_wf|]. split; [exact digitsBuffer_cursorInside|].
  split; [exact digitsBuffer_fullyCommitted|].
  destruct (InsertCharacter_keeps_cursor_inside 128 [0x4E2D] Leading defaultTextAttribute
              digitsBuffer digitsBuffer_wf digitsBuffer_cursorInside)
    as (Heffect & Hreturns).
  destruct (Hreturns digitsBuffer_fullyCommitted) as (tb' & E & Hw).
  exists tb'. split; [exact E|]. split; [exact Hw|].
  exact (proj2 (proj2 (Heffect tb' E))).
Defined.

Lemma InsertCharacter_stores_glyph_witness :
  wf digitsBuffer /\ cursorInside digitsBuffer /\
  (Single = Leading ->
   cursorX digitsBuffer
   <> lineWidthAt digitsBuffer (peekRow digitsBuffer) (cursorY digitsBuffer) - 1) /\
  exists tb', InsertCharacter 128 [97] Single defaultTextAttribute digitsBuffer
              = Some (tt, tb').
Proof.
  assert (H : Single = Leading ->
              cursorX digitsBuffer
              <> lineWidthAt digitsBuffer (peekRow digitsBuffer) (cursorY digitsBuffer) - 1)
    by discriminate.
  split; [exact digitsBuffer_wf|]. split; [exact digitsBuffer_cursorInside|].
  split; [exact H|].
  destruct (InsertCharacter_stores_glyph 128 [97] Single defaultTextAttribute
              digitsBuffer digitsBuffer_wf digitsBuffer_cursorInside H) as (tb' & E & _).
  exists tb'. exact E.
Defined.

Lemma newBuffer_wf : wf (TextBuffer_new 10 5 defaultTextAttribute 25 false 0).
Proof. split; try reflexivity; cbn; unfold UINT16_MAX; lia. Qed.

Lemma Reset_clears_only_text_witness :
  wf digitsBuffer /\
  forall s, peekRow (Reset digitsBuffer) s = ROW_construct 10 defaultTextAttribute.
Proof.
  split; [exact digitsBuffer_wf|].
  exact (proj1 (proj2 (Reset_clears_only_text 128 digitsBuffer digitsBuffer_wf))).
Defined.

Lemma rows_past_estimate_are_blank_witness :
  wf (TextBuffer_new 10 5 defaultTextAttribute 25 false 0) /\
  _firstRow (TextBuffer_new 10 5 defaultTextAttribute 25 false 0) = 0 /\
  _estimateOffsetOfLastCommittedRow (TextBuffer_new 10 5 defaultTextAttribute 25 false 0)
  < 3 < _height (TextBuffer_new 10 5 defaultTextAttribute 25 false 0) /\
  rowIsEmpty (TextBuffer_new 10 5 defaultTextAttribute 25 false 0)
             (peekRow (TextBuffer_new 10 5 defaultTextAttribute 25 false 0)) 3.
Proof.
  assert (H : _estimateOffsetOfLastCommittedRow
                (TextBuffer_new 10 5 defaultTextAttribute 25 false 0)
              < 3 < _height (TextBuffer_new 10 5 defaultTextAttribute 25 false 0))
    by (vm_compute; split; reflexivity).
  split; [exact newBuffer_wf|]. split; [reflexivity|]. split; [exact H|].
  exact (proj2 (rows_past_estimate_are_blank _ 3 newBuffer_wf eq_refl H)).
Defined.


Lemma BufferToScreenPosition_round_trip_witness :
  wf digitsBuffer /\ 0 <= y (mkPoint 3 1) < _height digitsBuffer /\
  0 <= x (mkPoint 3 1) < 2 ^ 30 /\
  exists tb1 tb2,
    BufferToScreenPosition 128 (mkPoint 3 1) digitsBuffer
    = Some (mkPoint (3 * lineScale digitsBuffer (peekRow digitsBuffer) 1) 1, tb1) /\
    ScreenToBufferPosition 128 (mkPoint (3 * lineScale digitsBuffer (peekRow digitsBuffer) 1) 1)
      tb1 = Some (mkPoint 3 1, tb2).
Proof.
  assert (H1 : 0 <= y (mkPoint 3 1) < _height digitsBuffer) by (simpl; lia).
  assert (H2 : 0 <= x (mkPoint 3 1) < 2 ^ 30) by (simpl; lia).
  split; [exact digitsBuffer_wf|]. split; [exact H1|]. split; [exact H2|].
  destruct (BufferToScreenPosition_round_trip 128 digitsBuffer (mkPoint 3 1)
              digitsBuffer_wf H1 H2) as (tb1 & tb2 & _ & _ & _ & E1 & E2 & _).
  exists tb1, tb2. split; [exact E1|exact E2].
Defined.

Lemma ClampPositionWithinLine_clamps_right_witness :
  wf digitsBuffer /\ 0 <= y (mkPoint 30 1) < _height digitsBuffer /\
  exists q tb', ClampPositionWithinLine 128 (mkPoint 30 1) digitsBuffer = Some (q, tb') /\
    q = mkPoint (Z.min 30 (lineWidthAt digitsBuffer (peekRow digitsBuffer) 1 - 1)) 1.
Proof.
  assert (H1 : 0 <= y (mkPoint 30 1) < _height digitsBuffer) by (simpl; lia).
  split; [exact digitsBuffer_wf|]. split; [exact H1|].
  destruct (ClampPositionWithinLine_clamps_right 128 digitsBuffer (mkPoint 30 1)
              digitsBuffer_wf H1) as (q & tb' & _ & E & _ & Hq & _).
  exists q, tb'. split; [exact E|exact Hq].
Defined.

Lemma GetPreviousFromCursor_after_IncrementCursor_witness :
  wf digitsBuffer /\ cursorInside digitsBuffer /\ 2 <= _height digitsBuffer /\
  cursorX digitsBuffer < lineWidthAt digitsBuffer (peekRow digitsBuffer) (cursorY digitsBuffer) /\
  exists tb1 q tb2,
    IncrementCursor 128 digitsBuffer = Some (tt, tb1) /\
    _GetPreviousFromCursor 128 tb1 = Some (q, tb2) /\ x q = cursorX digitsBuffer.
Proof.
  assert (H1 : 2 <= _height digitsBuffer) by (simpl; lia).
  assert (H2 : cursorX digitsBuffer
               < lineWidthAt digitsBuffer (peekRow digitsBuffer) (cursorY digitsBuffer))
    by (vm_compute; reflexivity).
  split; [exact digitsBuffer_wf|]. split; [exact digitsBuffer_cursorInside|].
  split; [exact H1|]. split; [exact H2|].
  destruct (GetPreviousFromCursor_after_IncrementCursor 128 digitsBuffer digitsBuffer_wf
              digitsBuffer_cursorInside H1 H2) as (tb1 & q & tb2 & E1 & E2 & Hq & _).
  exists tb1, q, tb2. split; [exact E1|]. split; [exact E2|exact Hq].
Defined.

Lemma ScrollRows_moves_block_witness :
  wf digitsBuffer /\ 1 <> 0 /\ 0 <= 3 /\ 0 <= 1 /\ 1 + 3 <= _height digitsBuffer /\
  0 <= 1 + 1 /\ 1 + 3 + 1 <= _height digitsBuffer /\
  exists tb', ScrollRows 128 1 3 1 digitsBuffer = Some (tt, tb') /\ wf tb'.
Proof.
  assert (H1 : 1 <> 0) by lia. assert (H2 : 0 <= 3) by lia. assert (H3 : 0 <= 1) by lia.
  assert (H4 : 1 + 3 <= _height digitsBuffer) by (simpl; lia).
  assert (H5 : 0 <= 1 + 1) by lia.
  assert (H6 : 1 + 3 + 1 <= _height digitsBuffer) by (simpl; lia).
  split; [exact digitsBuffer_wf|]. split; [exact H1|]. split; [exact H2|].
  split; [exact H3|]. split; [exact H4|]. split; [exact H5|]. split; [exact H6|].
  destruct (ScrollRows_moves_block 128 digitsBuffer 1 3 1 digitsBuffer_wf H1 H2 H3 H4 H5 H6)
    as (tb' & E & Hwf & _).
  exists tb'. split; [exact E|exact Hwf].
Defined.


Lemma FitTextIntoColumns_bounds_witness :
  1 <= 2 <= INT32_MAX /\
  (2 <= INT32_MAX - 2 \/ Z.of_nat (length [97; 0x4E2D; 98]) < 2 ^ 30) /\
  fst (FitTextIntoColumns cjkFullWidth [97; 0x4E2D; 98] 1)
  <= fst (FitTextIntoColumns cjkFullWidth [97; 0x4E2D; 98] 2).
Proof.
  assert (H1 : 1 <= 2 <= INT32_MAX) by (unfold INT32_MAX; lia).
  assert (H2 : 2 <= INT32_MAX - 2 \/ Z.of_nat (length [97; 0x4E2D; 98]) < 2 ^ 30)
    by (left; unfold INT32_MAX; lia).
  split; [exact H1|]. split; [exact H2|].
  exact (proj2 (proj2 (proj2 (proj2
    (FitTextIntoColumns_bounds cjkFullWidth [97; 0x4E2D; 98] 1 2 H1 H2))))).
Defined.


Lemma sampleRows_coloursCover : coloursCover sampleRows.
Proof.
  intros [|[|row]] rowText H; simpl in H; try discriminate; injection H as <-;
    eexists _, _; (split; [reflexivity|]); (split; [reflexivity|]); simpl; lia.
Qed.

Lemma GenHTML_header_offsets_witness :
  GenHTML narrowBytes hashColor sampleRows 12 [67] 0 <> [] /\
  Z.of_nat (length (GenHTML narrowBytes hashColor sampleRows 12 [67] 0)) < 10 ^ 10 /\
  exists fragment,
    GenHTML narrowBytes hashColor sampleRows 12 [67] 0
    = clipHeader 157 (Z.of_nat (length (GenHTML narrowBytes hashColor sampleRows 12 [67] 0)))
        (157 + 35)
        (Z.of_nat (length (GenHTML narrowBytes hashColor sampleRows 12 [67] 0)) - 14)
      ++ Literal.htmlHeader ++ Literal.startFragment ++ fragment
      ++ Literal.endFragment ++ Literal.HtmlFooter.
Proof.
  assert (H1 : GenHTML narrowBytes hashColor sampleRows 12 [67] 0 <> [])
    by (vm_compute; discriminate).
  assert (H2 : Z.of_nat (length (GenHTML narrowBytes hashColor sampleRows 12 [67] 0))
               < 10 ^ 10) by (vm_compute; reflexivity).
  split; [exact H1|]. split; [exact H2|].
  destruct (GenHTML_header_offsets narrowBytes hashColor sampleRows 12 [67] 0 H1 H2)
    as (fragment & E & _).
  exists fragment. exact E.
Defined.

Lemma GenHTML_needs_the_colours_witness :
  coloursCover sampleRows /\ GenHTML narrowBytes hashColor sampleRows 12 [67] 0 <> [].
Proof.
  split; [exact sampleRows_coloursCover|].
  exact (proj1 (GenHTML_needs_the_colours narrowBytes hashColor sampleRows 12 [67] 0)
           sampleRows_coloursCover).
Defined.


